(** * space-fantasy-football: fixtures, event queue and season simulation

    A shallow embedding of the league scheduler and of the event-driven
    simulation clock, with the properties the specification states about
    them.

    - [JsDate]: the part of the runtime's Date object the program uses.
    - [TournamentScheduler]: the round-robin fixture generator and the
      [Schedule] built on it.
    - [Obj]: string-keyed objects, kept in insertion order.
    - [Simulation]: the game state with its event queue
      (game-state.ts) and the handlers of the season lifecycle with
      [process] (game-simulation.ts).

    The definitions come first, the properties after them. *)

From Stdlib Require Import String Ascii DecimalString DecimalNat DecimalFacts.
From Stdlib Require Import List Arith ZArith Lia ZifyNat Bool.
From Stdlib Require Import Permutation Sorted.
Import ListNotations.
Local Open Scope list_scope.

Set Implicit Arguments.

(* ================================================================== *)
(** ** The runtime's Date *)
(* ================================================================== *)

(** A Date is its time value: milliseconds on the local civil time line,
    0 being midnight of 1970-01-01.  The local zone is taken to keep one
    offset throughout (no daylight-saving shift), so a local calendar day
    is always 86400000 ms long. *)
Module JsDate.

Local Open Scope Z_scope.

Definition Date : Type := Z.

Definition msPerHour : Z := 3600000.
Definition msPerDay : Z := 24 * msPerHour.

Definition getTime (d : Date) : Z := d.

(** Day number and time within the day. *)
Definition Day (t : Z) : Z := t / msPerDay.
Definition TimeWithinDay (t : Z) : Z := t mod msPerDay.

(** Day number of the civil date year-month-day (month 1..12) in the
    proleptic Gregorian calendar; day 0 is 1970-01-01. *)
Definition days_from_civil_def (y m d : Z) : Z :=
  let y' := if m <=? 2 then y - 1 else y in
  let era := y' / 400 in
  let yoe := y' - era * 400 in
  let mp := if 2 <? m then m - 3 else m + 9 in
  let doy := (153 * mp + 2) / 5 + d - 1 in
  let doe := yoe * 365 + yoe / 4 - yoe / 100 + doy in
  era * 146097 + doe - 719468.

(** Civil date (year, month 1..12, day) of a day number. *)
Definition civil_from_days_def (z : Z) : Z * Z * Z :=
  let z' := z + 719468 in
  let era := z' / 146097 in
  let doe := z' - era * 146097 in
  let yoe := (doe - doe / 1460 + doe / 36524 - doe / 146096) / 365 in
  let doy := doe - (365 * yoe + yoe / 4 - yoe / 100) in
  let mp := (5 * doy + 2) / 153 in
  let d := doy - (153 * mp + 2) / 5 + 1 in
  let m := if mp <? 10 then mp + 3 else mp - 9 in
  (yoe + era * 400 + (if m <=? 2 then 1 else 0), m, d).

(** A function of a number that waits for the number: applied to a
    numeral it computes, applied to anything else it stays as it is, a
    small term. *)
Definition onNumeral {A : Type} (f : Z -> A) (z : Z) : A :=
  match z with
  | Z0 => f 0
  | Zpos p => f (Zpos p)
  | Zneg p => f (Zneg p)
  end.

Definition days_from_civil (y m d : Z) : Z :=
  onNumeral (fun y => days_from_civil_def y m d) y.

Definition civil_from_days (z : Z) : Z * Z * Z :=
  onNumeral civil_from_days_def z.

Definition getFullYear (d : Date) : Z :=
  let '(y, _, _) := civil_from_days (Day d) in y.

(** Months count from 0 (8 is September). *)
Definition getMonth (d : Date) : Z :=
  let '(_, m, _) := civil_from_days (Day d) in m - 1.

Definition getDate (d : Date) : Z :=
  let '(_, _, dd) := civil_from_days (Day d) in dd.

(** Day of the week, 0 is Sunday; day 0 was a Thursday. *)
Definition getDay (d : Date) : Z := (Day d + 4) mod 7.

Definition getHours (d : Date) : Z := TimeWithinDay d / msPerHour.

(** The day number the constructor computes from a year, a month counted
    from 0 and a day of the month; a month outside 0..11 carries into the
    year and a day outside the month carries into the neighbouring ones. *)
Definition MakeDay (year month date : Z) : Z :=
  days_from_civil (year + month / 12) (month mod 12 + 1) 1 + date - 1.

(** [new Date(year, month, date)]: midnight of that day.  A year from 0 to
    99 stands for 1900 + year. *)
Definition newDate (year month date : Z) : Date :=
  let yr := if (0 <=? year) && (year <=? 99) then 1900 + year else year in
  MakeDay yr month date * msPerDay.

(** [d.setHours(h)] and [d.setDate(n)] move the time value by the distance
    between the requested field and the current one, the other fields
    carrying over. *)
Definition setHours (d : Date) (h : Z) : Date :=
  d + (h - getHours d) * msPerHour.

Definition setDate (d : Date) (n : Z) : Date :=
  d + (n - getDate d) * msPerDay.

(** A number as the template literal prints it. *)
Definition numberToString (z : Z) : string :=
  NilZero.string_of_int (Z.to_int z).

End JsDate.

(* ================================================================== *)
(** ** Round-robin fixtures *)
(* ================================================================== *)

Module TournamentScheduler.

Section Fixtures.

Context {A : Type}.

(** One pairing: home first, away second. *)
Definition pairing : Type := (A * A)%type.
Definition tournamentRound : Type := list pairing.

(** Modelled from the spec: [rotate] of tournament-scheduler.ts, which is
    not among the sources.  The first element is unchanged, the element
    previously at the last position moves to the second position, and every
    other element moves one position up.  A list shorter than two elements
    has nothing to rotate. *)
Definition rotate (teams : list A) : list A :=
  match teams with
  | [] => []
  | first :: rest =>
      match rev rest with
      | [] => [first]
      | lst :: front => first :: lst :: rev front
      end
  end.

(** Modelled from the spec: [createRound] of tournament-scheduler.ts.  For n
    teams it returns n/2 pairs, the element at position i paired with the
    element at position n-1-i, for i = 0 .. n/2-1: the first half zipped
    with the list read from its end. *)
Definition createRound (teams : list A) : tournamentRound :=
  combine (firstn (length teams / 2) teams) (rev teams).

(** [k] rounds from the ordering [teams]: a round on the current ordering,
    then the ordering is rotated for the next round. *)
Fixpoint roundsFrom (k : nat) (teams : list A) : list tournamentRound :=
  match k with
  | 0 => []
  | S k' => createRound teams :: roundsFrom k' (rotate teams)
  end.

(** Modelled from the spec: [createTournamentRounds] of
    tournament-scheduler.ts.  It produces n-1 rounds (none for an empty
    list) by repeatedly calling [createRound] on the current ordering and
    rotating the ordering for the next round. *)
Definition createTournamentRounds (teams : list A) : list tournamentRound :=
  roundsFrom (length teams - 1) teams.

(** Home and away exchanged. *)
Definition swapPairing (p : pairing) : pairing := (snd p, fst p).

Definition mirrorRound (r : tournamentRound) : tournamentRound :=
  map swapPairing r.

(** Modelled from the spec: [createDoubleRoundsTournament] of
    tournament-scheduler.ts.  The rounds of a single cycle followed by the
    same rounds mirrored, each pairing's two members swapped. *)
Definition createDoubleRoundsTournament (teams : list A)
  : list tournamentRound :=
  let single := createTournamentRounds teams in
  single ++ map mirrorRound single.

(** The teams of a round, in the order the test's [round.flat()] lists
    them. *)
Definition flat (r : tournamentRound) : list A :=
  flat_map (fun p => [fst p; snd p]) r.

(** The position of the original ordering that is found at position [p]
    after [k] rotations of [m + 1] teams. *)
Definition origin (m k p : nat) : nat :=
  if p =? 0 then 0
  else if k <? p then p - k else p + m - k.

End Fixtures.

(** *** The dated schedule *)

Record Match := {
  id : string;
  home : string;
  away : string;
  result : option (Z * Z)
}.

Record Round := {
  date : JsDate.Date;
  matches : list Match
}.

Record Schedule := {
  rounds : list Round
}.

(** [l.map((x, i) => f(i, x))], the index starting at [i]. *)
Fixpoint mapWithIndexFrom {X Y : Type} (f : nat -> X -> Y) (i : nat)
  (l : list X) : list Y :=
  match l with
  | [] => []
  | x :: l' => f i x :: mapWithIndexFrom f (S i) l'
  end.

Definition mapWithIndex {X Y : Type} (f : nat -> X -> Y) (l : list X)
  : list Y :=
  mapWithIndexFrom f 0 l.

Definition indexToString (n : nat) : string :=
  NilZero.string_of_uint (Nat.to_uint n).

(** Modelled from the spec: the identifier of a match, which the spec wants
    deterministic and derived from the round index and the pairing index:
    the two indices in decimal, a dash between them. *)
Definition matchId (round pairing : nat) : string :=
  String.append (indexToString round)
    (String.append "-" (indexToString pairing)).

(** No dash among the characters of a string: what keeps the two halves
    of an identifier apart. *)
Fixpoint dashFree (s : string) : Prop :=
  match s with
  | EmptyString => True
  | String c s' => c <> "-"%char /\ dashFree s'
  end.

(** Modelled from the spec: the constructor of [Schedule] in
    tournament-scheduler.ts.  One round per fixture round of the double
    round-robin; round k is dated 7k days after the start date; every match
    starts without a result. *)
Definition newSchedule (teams : list string) (start : JsDate.Date)
  : Schedule :=
  {| rounds :=
       mapWithIndex
         (fun k fixtures =>
            {| date :=
                 JsDate.setDate start
                   (JsDate.getDate start + 7 * Z.of_nat k)%Z;
               matches :=
                 mapWithIndex
                   (fun j p =>
                      {| id := matchId k j;
                         home := fst p;
                         away := snd p;
                         result := None |})
                   fixtures |})
         (createDoubleRoundsTournament teams) |}.

(** Every match of a schedule, round after round. *)
Definition allMatches (s : Schedule) : list Match :=
  flat_map matches (rounds s).

End TournamentScheduler.

(* ================================================================== *)
(** ** String-keyed objects *)
(* ================================================================== *)

(** An object used as a dictionary: its own string keys in the order they
    were first assigned (which is the order [Object.keys], [Object.values]
    and [for .. in] follow for keys that are not array indices). *)
Module Obj.

(** The names every object inherits from [Object.prototype]: reading one
    of them on an object that has no own key of that name gives the
    inherited member (a function, or the prototype itself for
    [__proto__]), not undefined. *)
Definition prototypeKeys : list string :=
  [ "constructor"; "__defineGetter__"; "__defineSetter__";
    "hasOwnProperty"; "__lookupGetter__"; "__lookupSetter__";
    "isPrototypeOf"; "propertyIsEnumerable"; "toString"; "valueOf";
    "__proto__"; "toLocaleString" ]%string.

Definition inherits (k : string) : bool :=
  existsb (String.eqb k) prototypeKeys.

Section Obj.

Context {V : Type}.

Definition t : Type := list (string * V).

(** [o[k]] *)
Fixpoint get (k : string) (o : t) : option V :=
  match o with
  | [] => None
  | (k', v) :: o' => if String.eqb k k' then Some v else get k o'
  end.

(** [o[k] = v]: an existing key keeps its place. *)
Fixpoint set (k : string) (v : V) (o : t) : t :=
  match o with
  | [] => [(k, v)]
  | (k', v') :: o' =>
      if String.eqb k k' then (k, v) :: o' else (k', v') :: set k v o'
  end.

(** [delete o[k]] *)
Fixpoint delete (k : string) (o : t) : t :=
  match o with
  | [] => []
  | (k', v') :: o' =>
      if String.eqb k k' then delete k o' else (k', v') :: delete k o'
  end.

Definition keys (o : t) : list string := map fst o.

Definition values (o : t) : list V := map snd o.

(** Every value replaced by its image, keys and order kept: what a loop
    that updates each value in place leaves behind. *)
Definition mapValues (f : V -> V) (o : t) : t :=
  map (fun kv => (fst kv, f (snd kv))) o.

(** No key occurs twice, as in every object the runtime builds. *)
Definition wf (o : t) : Prop := NoDup (keys o).

(** What the expression [o[k]] evaluates to, for any string [k]: the value
    of the own key, else the member of [Object.prototype] of that name,
    else undefined.  [get] is the own part of it.  The object is taken to
    have [Object.prototype] as its prototype, as an object literal and
    every copy the runtime makes of one have. *)
Inductive Read : Type :=
| Own (v : V)
| Inherited (name : string)
| Undefined.

Definition read (k : string) (o : t) : Read :=
  match get k o with
  | Some v => Own v
  | None => if inherits k then Inherited k else Undefined
  end.

Definition mapRead (f : V -> V) (r : Read) : Read :=
  match r with
  | Own v => Own (f v)
  | Inherited name => Inherited name
  | Undefined => Undefined
  end.

End Obj.

Arguments t : clear implicits.
Arguments Read : clear implicits.
Arguments Own {V} v.
Arguments Inherited {V} name.
Arguments Undefined {V}.

End Obj.

(* ================================================================== *)
(** ** Game state and simulation *)
(* ================================================================== *)

Module Simulation.

Import JsDate.
Local Open Scope Z_scope.

(** *** game-simulation.ts: constants and events *)

Definition NEXT_HOURS : Z := 12.
Definition SEASON_START_MONTH : Z := 8.
Definition SEASON_START_DATE : Z := 1.
Definition SEASON_END_MONTH : Z := 5.
Definition SEASON_END_DATE : Z := 1.

Inductive GameEventTypes :=
| simRound
| skillUpdate
| seasonEnd
| seasonStart
| updateContract.

Record SimRound := { round : Z }.

Record GameEvent := {
  evt_date : Date;
  evt_type : GameEventTypes;
  detail : option SimRound
}.

(** *** game-state.ts: the saved game *)

Record ScheduleRound := {
  sr_date : Date;
  matchIds : list string
}.

(** A contract, declared in character/team: the two fields this program
    reads. *)
Record Contract := {
  playerId : string;
  duration : Z
}.

(** A match table in which the matches [ids] carry a result, each side
    with fewer than six goals. *)
Definition resultsWritten (ids : list string)
  (tbl : Obj.t TournamentScheduler.Match) : Prop :=
  forall id, In id ids ->
    exists m h a,
      Obj.get id tbl = Some m /\
      TournamentScheduler.result m = Some (h, a) /\
      0 <= h < 6 /\ 0 <= a < 6.

(** A contract one season shorter. *)
Definition decremented (c : Contract) : Contract :=
  {| playerId := playerId c; duration := duration c - 1 |}.

(** Contracts as [GameState.saveContract] stores them: one per key, each
    under the identifier of its player. *)
Definition contractsKeyed (cs : Obj.t Contract) : Prop :=
  Obj.wf cs /\ forall k c, In (k, c) cs -> playerId c = k.

Definition INIT_MONTH : Z := 7.
Definition INIT_DATE : Z := 1.
Definition INIT_HOUR : Z := 10.

Section State.

(** The player and team records belong to character/player and
    character/team; the simulation stores them and hands them on. *)
Variables Player Team : Type.

(** [randomCalls] is not a field of the saved game: it counts the numbers
    the runtime's random source has handed out so far. *)
Record GameState := {
  date : Date;
  eventQueue : list GameEvent;
  players : Obj.t Player;
  teams : Obj.t Team;
  contracts : Obj.t Contract;
  schedules : Obj.t (list ScheduleRound);
  matches : Obj.t TournamentScheduler.Match;
  randomCalls : nat
}.

Definition withDate (s : GameState) (d : Date) : GameState :=
  {| date := d; eventQueue := eventQueue s; players := players s;
     teams := teams s; contracts := contracts s; schedules := schedules s;
     matches := matches s; randomCalls := randomCalls s |}.

Definition withEventQueue (s : GameState) (q : list GameEvent) : GameState :=
  {| date := date s; eventQueue := q; players := players s;
     teams := teams s; contracts := contracts s; schedules := schedules s;
     matches := matches s; randomCalls := randomCalls s |}.

Definition withPlayers (s : GameState) (p : Obj.t Player) : GameState :=
  {| date := date s; eventQueue := eventQueue s; players := p;
     teams := teams s; contracts := contracts s; schedules := schedules s;
     matches := matches s; randomCalls := randomCalls s |}.

Definition withContracts (s : GameState) (c : Obj.t Contract) : GameState :=
  {| date := date s; eventQueue := eventQueue s; players := players s;
     teams := teams s; contracts := c; schedules := schedules s;
     matches := matches s; randomCalls := randomCalls s |}.

Definition withSchedules (s : GameState) (x : Obj.t (list ScheduleRound))
  : GameState :=
  {| date := date s; eventQueue := eventQueue s; players := players s;
     teams := teams s; contracts := contracts s; schedules := x;
     matches := matches s; randomCalls := randomCalls s |}.

Definition withMatches (s : GameState) (m : Obj.t TournamentScheduler.Match)
  : GameState :=
  {| date := date s; eventQueue := eventQueue s; players := players s;
     teams := teams s; contracts := contracts s; schedules := schedules s;
     matches := m; randomCalls := randomCalls s |}.

Definition withRandomCalls (s : GameState) (n : nat) : GameState :=
  {| date := date s; eventQueue := eventQueue s; players := players s;
     teams := teams s; contracts := contracts s; schedules := schedules s;
     matches := matches s; randomCalls := n |}.

(** What the rest of the repository and the runtime supply.  The team
    operations receive the game state and may change it; they are taken to
    return, and to replace a contract in the table rather than change its
    fields in place.  [randomUnit n] is the n-th number of the random
    source, already scaled by six and floored (reduced below six where it
    is used). *)
Class Collaborators := {
  Player_applyMonthlyGrowth : Player -> Date -> Player;
  Player_applyMonthlyDegrowth : Player -> Date -> Player;
  Team_renewExipiringContracts : GameState -> string -> GameState;
  Team_unsignPlayer : GameState -> Contract -> GameState;
  randomUnit : nat -> nat
}.

(** *** Running a function on the game state *)

Inductive Exn :=
| Error (message : string)
| TypeError.

(** A call either returns a value and leaves a state, or throws. *)
Inductive Outcome (A : Type) :=
| Returned (value : A) (s : GameState)
| Thrown (e : Exn).

Arguments Thrown {A} e.

Definition Sim (A : Type) : Type := GameState -> Outcome A.

Definition ret {A : Type} (a : A) : Sim A := fun s => Returned a s.

Definition bind {A B : Type} (c : Sim A) (k : A -> Sim B) : Sim B :=
  fun s =>
    match c s with
    | Returned a s' => k a s'
    | Thrown e => Thrown e
    end.

Definition throw {A : Type} (e : Exn) : Sim A := fun _ => Thrown e.

Definition gets {A : Type} (f : GameState -> A) : Sim A :=
  fun s => Returned (f s) s.

Definition modify (f : GameState -> GameState) : Sim unit :=
  fun s => Returned tt (f s).

Fixpoint forEach {X : Type} (l : list X) (body : X -> Sim unit) : Sim unit :=
  match l with
  | [] => ret tt
  | x :: l' => bind (body x) (fun _ => forEach l' body)
  end.

Context {env : Collaborators}.

Local Notation "x <- c ;; k" := (bind c (fun x => k))
  (at level 61, c at next level, right associativity).
Local Notation "c ;; k" := (bind c (fun _ => k))
  (at level 61, right associativity).

(** *** Arrays *)

(** [a[i]] for an integer index: nothing below 0 or past the end. *)
Definition arrayAt {X : Type} (a : list X) (i : Z) : option X :=
  if i <? 0 then None else nth_error a (Z.to_nat i).

Fixpoint findIndexFrom {X : Type} (p : X -> bool) (a : list X) (i : Z) : Z :=
  match a with
  | [] => -1
  | x :: a' => if p x then i else findIndexFrom p a' (i + 1)
  end.

(** [a.findIndex(p)]: the first index whose element satisfies [p], or -1. *)
Definition findIndex {X : Type} (p : X -> bool) (a : list X) : Z :=
  findIndexFrom p a 0.

(** [a.splice(i, 0, x)] for an index from 0 to the length. *)
Definition spliceInsert {X : Type} (a : list X) (i : Z) (x : X) : list X :=
  firstn (Z.to_nat i) a ++ x :: skipn (Z.to_nat i) a.

Definition push {X : Type} (a : list X) (x : X) : list X := a ++ [x].

(** *** game-state.ts: static methods of GameState *)

(** The queue after [GameState.enqueueGameEvent(s, e)]. *)
Definition enqueue (queue : list GameEvent) (e : GameEvent)
  : list GameEvent :=
  let findOlder :=
    fun evt => getTime (evt_date evt) >? getTime (evt_date e) in
  let i := findIndex findOlder queue in
  if negb (i =? -1) then spliceInsert queue i e else push queue e.

(** The queue is in order when every event is dated no later than the
    next one. *)
Definition sortedByDate (queue : list GameEvent) : Prop :=
  Sorted (fun a b => getTime (evt_date a) <= getTime (evt_date b)) queue.

Definition enqueueGameEvent (e : GameEvent) : Sim unit :=
  modify (fun s => withEventQueue s (enqueue (eventQueue s) e)).


Definition deleteContract (c : Contract) : Sim unit :=
  modify (fun s => withContracts s (Obj.delete (playerId c) (contracts s))).

(** [s.schedules[key].push(r)] *)
Definition pushScheduleRound (key : string) (r : ScheduleRound) : Sim unit :=
  fun s =>
    match Obj.get key (schedules s) with
    | None => Thrown TypeError
    | Some a =>
        Returned tt (withSchedules s (Obj.set key (push a r) (schedules s)))
    end.

(** The record a round is saved as: its date and the identifiers of its
    matches. *)
Definition toScheduleRound (round : TournamentScheduler.Round)
  : ScheduleRound :=
  {| sr_date := TournamentScheduler.date round;
     matchIds :=
       map TournamentScheduler.id (TournamentScheduler.matches round) |}.

(** [s.matches[m.id] = m] *)
Definition saveMatch (m : TournamentScheduler.Match) : Sim unit :=
  modify (fun s =>
    withMatches s (Obj.set (TournamentScheduler.id m) m (matches s))).

Definition saveSchedule (schd : TournamentScheduler.Schedule) (key : string)
  : Sim unit :=
  modify (fun s => withSchedules s (Obj.set key [] (schedules s))) ;;
  forEach (TournamentScheduler.rounds schd) (fun round =>
    pushScheduleRound key (toScheduleRound round) ;;
    forEach (TournamentScheduler.matches round) saveMatch).

(** *** game-simulation.ts *)

(** [Math.floor(Math.random() * 6)] *)
Definition goals : Sim Z :=
  fun s =>
    Returned (Z.of_nat (randomUnit (randomCalls s) mod 6))
             (withRandomCalls s (S (randomCalls s))).

Definition simulateMatch (matchId : string) : Sim unit :=
  m <- gets (fun s => Obj.get matchId (matches s)) ;;
  h <- goals ;;
  a <- goals ;;
  match m with
  | None => throw TypeError
  | Some mt =>
      modify (fun s =>
        withMatches s
          (Obj.set matchId
             {| TournamentScheduler.id := TournamentScheduler.id mt;
                TournamentScheduler.home := TournamentScheduler.home mt;
                TournamentScheduler.away := TournamentScheduler.away mt;
                TournamentScheduler.result := Some (h, a) |}
             (matches s)))
  end.

(** [gs.schedules.now?.[round]] *)
Definition currentRound (s : GameState) (round : Z) : option ScheduleRound :=
  match Obj.get "now" (schedules s) with
  | None => None
  | Some now => arrayAt now round
  end.

Definition simulateRound (round : Z) : Sim unit :=
  r <- gets (fun s => currentRound s round) ;;
  match r with
  | None => ret tt
  | Some r => forEach (matchIds r) simulateMatch
  end.

Definition enqueueSimRoundEvent (round : Z) : Sim unit :=
  r <- gets (fun s => currentRound s round) ;;
  match r with
  | None => ret tt
  | Some r =>
      enqueueGameEvent
        {| evt_date := sr_date r;
           evt_type := simRound;
           detail := Some {| round := round |} |}
  end.

Definition updateSkills : Sim unit :=
  modify (fun s =>
    withPlayers s
      (Obj.mapValues
         (fun p =>
            Player_applyMonthlyDegrowth
              (Player_applyMonthlyGrowth p (date s)) (date s))
         (players s))).

Definition enqueueSkillUpdateEvent : Sim unit :=
  d <- gets date ;;
  enqueueGameEvent
    {| evt_date := newDate (getFullYear d) (getMonth d + 1) 1;
       evt_type := skillUpdate;
       detail := None |}.

Definition enqueueSeasonEndEvent : Sim unit :=
  d <- gets date ;;
  let year := getFullYear d + 1 in
  enqueueGameEvent
    {| evt_date := newDate year SEASON_END_MONTH SEASON_END_DATE;
       evt_type := seasonEnd;
       detail := None |}.

Definition enqueueSeasonStartEvent : Sim unit :=
  d <- gets date ;;
  let y := getFullYear d in
  enqueueGameEvent
    {| evt_date := newDate y SEASON_START_MONTH SEASON_START_DATE;
       evt_type := seasonStart;
       detail := None |}.

Definition enqueueUpdateContractEvent (d : Date) : Sim unit :=
  let date := setDate d (getDate d + 1) in
  enqueueGameEvent
    {| evt_date := date; evt_type := updateContract; detail := None |}.

Definition newSeasonSchedule (teams : list string) : Sim unit :=
  d <- gets date ;;
  let start :=
    newDate (getFullYear d) SEASON_START_MONTH (SEASON_START_DATE + 1) in
  if getTime start <=? getTime d
  then throw (Error "should be called before september second")
  else
    let daysToSunday := Z.rem (7 - getDay start) 7 in
    let start := setDate start (getDate start + daysToSunday) in
    saveSchedule (TournamentScheduler.newSchedule teams start) "now".

Definition storeEndedSeasonSchedule : Sim unit :=
  schd <- gets (fun s => Obj.get "now" (schedules s)) ;;
  match schd with
  | None => ret tt
  | Some schd =>
      match arrayAt schd 0, arrayAt schd (Z.of_nat (length schd) - 1) with
      | Some first, Some last =>
          let startY := getFullYear (sr_date first) in
          let endY := getFullYear (sr_date last) in
          let key :=
            String.append (numberToString startY)
              (String.append "-" (numberToString endY)) in
          modify (fun s => withSchedules s (Obj.set key schd (schedules s)))
      | _, _ => throw TypeError
      end
  end.

Definition updateContracts : Sim unit :=
  modify (fun s =>
    withContracts s (Obj.mapValues decremented (contracts s))).

Definition renewExipiringContracts : Sim unit :=
  ts <- gets (fun s => Obj.keys (teams s)) ;;
  forEach ts (fun team =>
    modify (fun s => Team_renewExipiringContracts s team)).

Definition removeExpiredContracts : Sim unit :=
  cs <- gets (fun s => Obj.values (contracts s)) ;;
  forEach cs (fun c =>
    if duration c =? 0
    then modify (fun s => Team_unsignPlayer s c)
    else ret tt).

Definition handleSimRound (r : SimRound) : Sim bool :=
  simulateRound (round r) ;;
  enqueueSimRoundEvent (round r + 1) ;;
  ret false.

Definition handleSkillUpdate : Sim bool :=
  updateSkills ;;
  enqueueSkillUpdateEvent ;;
  ret true.

Definition handleSeasonEnd (e : GameEvent) : Sim bool :=
  storeEndedSeasonSchedule ;;
  enqueueSeasonStartEvent ;;
  enqueueUpdateContractEvent (evt_date e) ;;
  ret true.

Definition handleSeasonStart : Sim bool :=
  ts <- gets (fun s => Obj.keys (teams s)) ;;
  newSeasonSchedule ts ;;
  enqueueSimRoundEvent 0 ;;
  enqueueSeasonEndEvent ;;
  ret true.

Definition handleUpdateContracts : Sim bool :=
  updateContracts ;;
  renewExipiringContracts ;;
  removeExpiredContracts ;;
  ret false.

(** An event of type simRound without its detail makes [handleSimRound]
    read a field of undefined.  The source ends with [return false] for a
    type that is none of the five, which [GameEventTypes] has no value
    for. *)
Definition handleGameEvent (evt : GameEvent) : Sim bool :=
  match evt_type evt with
  | simRound =>
      match detail evt with
      | Some r => handleSimRound r
      | None => throw TypeError
      end
  | skillUpdate => handleSkillUpdate
  | seasonEnd => handleSeasonEnd evt
  | seasonStart => handleSeasonStart
  | updateContract => handleUpdateContracts
  end.

(** The values [t] takes in the loop of [process]: 0, then steps of
    [NEXT_HOURS], while below 24. *)
Definition processTicks : list Z :=
  map (fun i => Z.of_nat i * NEXT_HOURS)
      (seq 0 (Z.to_nat ((24 + NEXT_HOURS - 1) / NEXT_HOURS))).

(** The loop of [process], one element of [ticks] per value of [t] that is
    still below 24. *)
Fixpoint processLoop (ticks : list Z) : Sim bool :=
  fun gs =>
    match ticks with
    | [] => Returned (Nat.eqb (length (eventQueue gs)) 0) gs
    | _ :: ticks' =>
        match eventQueue gs with
        | [] => Returned (Nat.eqb (length (eventQueue gs)) 0) gs
        | first :: rest =>
            if getTime (date gs) >=? getTime (evt_date first)
            then handleGameEvent first (withEventQueue gs rest)
            else
              processLoop ticks'
                (withDate gs
                   (setHours (date gs) (getHours (date gs) + NEXT_HOURS)))
        end
    end.

Definition process : Sim bool := processLoop processTicks.

(** [n] updateContract events handled one after the other. *)
Fixpoint handleUpdateContractsTimes (n : nat) : Sim unit :=
  match n with
  | O => ret tt
  | S n' => handleUpdateContracts ;; handleUpdateContractsTimes n'
  end.

(** *** game-state.ts: the first events of a new game *)

Definition initGameEvents : Sim unit :=
  enqueueSimRoundEvent 0 ;;
  enqueueSkillUpdateEvent ;;
  enqueueSeasonEndEvent.

End State.

Arguments Thrown {Player Team A} e.
Arguments Player_applyMonthlyGrowth {Player Team Collaborators}.
Arguments Player_applyMonthlyDegrowth {Player Team Collaborators}.
Arguments Team_renewExipiringContracts {Player Team Collaborators}.
Arguments Team_unsignPlayer {Player Team Collaborators}.
Arguments randomUnit {Player Team Collaborators}.
Arguments simulateMatch {Player Team env}.
Arguments saveMatch {Player Team}.

(** Team operations that leave the other contracts alone: unsigning a
    player removes the contract of that player from the table, as
    [GameState.deleteContract] does, and renewing leaves the contracts whose
    duration is not 0 as they are and keeps the table keyed by player. *)
Definition teamsKeepOtherContracts {Player Team : Type}
  (env : Collaborators Player Team) : Prop :=
  (forall s c,
     contracts (Team_unsignPlayer s c)
     = Obj.delete (playerId c) (contracts s)) /\
  (forall s team k c,
     Obj.get k (contracts s) = Some c -> duration c <> 0 ->
     Obj.get k (contracts (Team_renewExipiringContracts s team)) = Some c) /\
  (forall s team,
     contractsKeyed (contracts s) ->
     contractsKeyed (contracts (Team_renewExipiringContracts s team))).

(** *** Sample collaborators and states *)

(** Players that do not change, teams that renew nothing and whose
    unsigning only deletes the contract (as [GameState.deleteContract]
    does), and a random source that counts 0, 1, 2, ... *)
Definition plainCollaborators : Collaborators unit unit :=
  {| Player_applyMonthlyGrowth := fun p _ => p;
     Player_applyMonthlyDegrowth := fun p _ => p;
     Team_renewExipiringContracts := fun s _ => s;
     Team_unsignPlayer :=
       fun s c => withContracts s (Obj.delete (playerId c) (contracts s));
     randomUnit := fun n => n |}.

(** A game at the date [d] with nothing in it. *)
Definition emptyGame (d : Date) : GameState unit unit :=
  {| date := d; eventQueue := []; players := []; teams := [];
     contracts := []; schedules := []; matches := []; randomCalls := 0 |}.

Definition sampleTeams : list string := ["a"; "b"; "c"; "d"]%string.

(** A season of two rounds, the first in 2010 and the last in 2011. *)
Definition sampleSeason : list ScheduleRound :=
  [ {| sr_date := newDate 2010 8 5; matchIds := ["0-0"%string] |};
    {| sr_date := newDate 2011 4 1; matchIds := ["1-0"%string] |} ].

(** A game on June 1, 2011 whose current season is [sampleSeason]. *)
Definition sampleGame : GameState unit unit :=
  withSchedules (emptyGame (newDate 2011 5 1))
                [("now"%string, sampleSeason)].

Definition seasonEndEvent : GameEvent :=
  {| evt_date := newDate 2011 5 1; evt_type := seasonEnd; detail := None |}.


(** [sampleGame] with the two matches of the season in its match table. *)
Definition sampleGameWithMatches : GameState unit unit :=
  withMatches sampleGame
    [ ("0-0", {| TournamentScheduler.id := "0-0";
                 TournamentScheduler.home := "a";
                 TournamentScheduler.away := "b";
                 TournamentScheduler.result := None |});
      ("1-0", {| TournamentScheduler.id := "1-0";
                 TournamentScheduler.home := "b";
                 TournamentScheduler.away := "a";
                 TournamentScheduler.result := None |}) ]%string.


(** A skillUpdate event twelve hours after time 0, and two games at time
    0: one that waits for it, one with an event of time 0 queued before a
    later one. *)
Definition eventAtNoon : GameEvent :=
  {| evt_date := 12 * msPerHour; evt_type := skillUpdate; detail := None |}.

Definition gameBeforeNoon : GameState unit unit :=
  withEventQueue (emptyGame 0) [eventAtNoon].

Definition eventAtMidnight : GameEvent :=
  {| evt_date := 0; evt_type := updateContract; detail := None |}.

Definition gameWithQueue : GameState unit unit :=
  withEventQueue (emptyGame 0) [eventAtMidnight; eventAtNoon].

(** Three contracts: one below zero, one about to expire, one running. *)
Definition sampleContracts : Obj.t Contract :=
  [ ("p1", {| playerId := "p1"; duration := -1 |});
    ("p2", {| playerId := "p2"; duration := 1 |});
    ("p3", {| playerId := "p3"; duration := 5 |}) ]%string.

Definition gameWithContracts : GameState unit unit :=
  withContracts (emptyGame (newDate 2011 5 2)) sampleContracts.

(** *** game-state.ts: players, teams and contracts of the saved game *)

Section Records.

Variables Player Team : Type.

(** The fields of a player and of a team that the game state reads; the
    records themselves are declared in character/player and
    character/team. *)
Class CharacterFields := {
  Player_id : Player -> string;
  Team_name : Team -> string;
  Team_playerIds : Team -> list string
}.

Context {fields : CharacterFields}.

Definition withTeams (s : GameState Player Team) (t : Obj.t Team)
  : GameState Player Team :=
  {| date := date s; eventQueue := eventQueue s; players := players s;
     teams := t; contracts := contracts s; schedules := schedules s;
     matches := matches s; randomCalls := randomCalls s |}.

(** [new GameState(date)]: the date is copied, every table starts
    empty. *)
Definition newGameState (d : Date) : GameState Player Team :=
  {| date := getTime d; eventQueue := []; players := []; teams := [];
     contracts := []; schedules := []; matches := []; randomCalls := 0 |}.

(** [GameState.getTeamPlayers(s, team)]:
    [s.teams[team]?.playerIds.map((id) => s.players[id]) ?? []].  For a
    saved team, one entry per player id of the team, each what
    [s.players[id]] reads; the empty array when [s.teams[team]] is
    undefined.  When [team] names a member of [Object.prototype] and no
    team is saved under it, [s.teams[team]] is that member, the optional
    chain goes on, the member has no [playerIds] and calling [map] on
    undefined throws. *)
Definition getTeamPlayers (s : GameState Player Team) (team : string)
  : Outcome Player Team (list (Obj.Read Player)) :=
  match Obj.read team (teams s) with
  | Obj.Own t =>
      Returned (map (fun id => Obj.read id (players s)) (Team_playerIds t)) s
  | Obj.Inherited _ => Thrown TypeError
  | Obj.Undefined => Returned [] s
  end.

(** [GameState.getContract(s, p)]: [s.contracts[p.id]]. *)
Definition getContract (s : GameState Player Team) (p : Player)
  : Obj.Read Contract :=
  Obj.read (Player_id p) (contracts s).

Definition savePlayer (p : Player) : Sim Player Team unit :=
  modify (fun s => withPlayers s (Obj.set (Player_id p) p (players s))).

Definition saveTeam (t : Team) : Sim Player Team unit :=
  modify (fun s => withTeams s (Obj.set (Team_name t) t (teams s))).

End Records.

Arguments Player_id {Player Team CharacterFields}.
Arguments Team_name {Player Team CharacterFields}.
Arguments Team_playerIds {Player Team CharacterFields}.
Arguments savePlayer {Player Team fields}.
Arguments saveTeam {Player Team fields}.

(** *** game-simulation.ts: the frames of GameSimulation.run *)

Section Frames.

Context {Player Team : Type} {env : Collaborators Player Team}.

(** [runSim] of [GameSimulation.run], frame after frame of the host:
    [process] is called on the working state until it returns true, which
    stops the simulation.  After [frames] frames the value is true when the
    simulation has stopped and false when it is still running. *)
Fixpoint runSim (frames : nat) : Sim Player Team bool :=
  match frames with
  | O => ret false
  | S frames' =>
      bind (@process Player Team env)
        (fun stopped => if stopped then ret true else runSim frames')
  end.

(** Every match the current season lists is in the match table. *)
Definition matchesCover (s : GameState Player Team) : Prop :=
  forall now r id,
    Obj.get "now" (schedules s) = Some now ->
    In r now -> In id (matchIds r) ->
    exists m, Obj.get id (matches s) = Some m.

(** The stop signal of each type of event. *)
Definition requestsStop (t : GameEventTypes) : bool :=
  match t with
  | skillUpdate | seasonEnd | seasonStart => true
  | simRound | updateContract => false
  end.

End Frames.

(** Team operations that leave the clock and the event queue alone. *)
Definition teamsKeepClockAndQueue {Player Team : Type}
  (env : Collaborators Player Team) : Prop :=
  (forall s c,
     date (Team_unsignPlayer s c) = date s /\
     eventQueue (Team_unsignPlayer s c) = eventQueue s) /\
  (forall s team,
     date (Team_renewExipiringContracts s team) = date s /\
     eventQueue (Team_renewExipiringContracts s team) = eventQueue s).

(** *** game-state.ts: the first step of GameState.init *)

(** [new Date(year, month, date, hours)] *)
Definition newDateHours (year month date hours : Z) : Date :=
  newDate year month date + hours * msPerHour.

Section Init.

Context {Player Team : Type} {env : Collaborators Player Team}.

(** The first step of [GameState.init], for the year [year] that
    [new Date().getFullYear()] gives: the new state and the schedule of
    its first season.  The step after it, [initTeams], creates the teams
    and players with character/team and character/player. *)
Definition initSchedule (year : Z) (names : list string)
  : Outcome Player Team unit :=
  newSeasonSchedule names
    (newGameState Player Team
       (newDateHours year INIT_MONTH INIT_DATE INIT_HOUR)).

End Init.

(** *** More sample states *)

(** Players and teams reduced to the fields the game state reads: a player
    is its identifier, a team its name and the identifiers of its
    players. *)
Definition plainFields : CharacterFields string (string * list string) :=
  {| Player_id := fun p => p;
     Team_name := fst;
     Team_playerIds := snd |}.

(** A game of such players and teams that holds [sampleContracts] and
    nothing else, and the same game with a team saved whose two players
    are not. *)
Definition clubGame : GameState string (string * list string) :=
  withContracts (newGameState _ _ (newDate 2011 5 2)) sampleContracts.

Definition reds : string * list string := ("reds", ["p1"; "p2"])%string.

Definition clubGameWithTeam : GameState string (string * list string) :=
  withTeams clubGame [("reds"%string, reds)].

(** A team whose only player is called constructor, in a game where no
    player is saved. *)
Definition ghosts : string * list string := ("ghosts", ["constructor"])%string.

Definition clubGameWithGhosts : GameState string (string * list string) :=
  withTeams clubGame [("ghosts"%string, ghosts)].

(** The state [c] returns, or [s] when it throws. *)
Definition stateAfter {Player Team A : Type}
  (c : Sim Player Team A) (s : GameState Player Team)
  : GameState Player Team :=
  match c s with
  | Returned _ s' => s'
  | Thrown _ => s
  end.



(** [gameBeforeNoon] after one call of [process], and [gameWithQueue] after
    two frames of a run. *)
Definition gameAfterNoon : GameState unit unit :=
  Eval vm_compute in
    stateAfter (process (env := plainCollaborators)) gameBeforeNoon.

Definition gameWithQueueAfterTwoFrames : GameState unit unit :=
  Eval vm_compute in
    stateAfter (runSim (env := plainCollaborators) 2) gameWithQueue.

(** [sampleGame] after its seasonEnd event. *)
Definition sampleGameAfterSeasonEnd : GameState unit unit :=
  Eval vm_compute in
    stateAfter (handleSeasonEnd seasonEndEvent) sampleGame.

(** A game on June 2, 2011 with two teams, waiting for the seasonStart
    event of September 1. *)
Definition seasonStartEvent : GameEvent :=
  {| evt_date := newDate 2011 SEASON_START_MONTH SEASON_START_DATE;
     evt_type := seasonStart; detail := None |}.

Definition gameBeforeSeason : GameState unit unit :=
  withEventQueue
    (withTeams (emptyGame (newDate 2011 5 2))
               [("a", tt); ("b", tt)]%string)
    [seasonStartEvent].

End Simulation.

(* ================================================================== *)
(** * Properties *)
(* ================================================================== *)

(** Division and remainder by constants are left to [lia]. *)
Ltac Zify.zify_post_hook ::= Z.to_euclidean_division_equations.

(** ** Lists *)

Section ListFacts.

Context {A B : Type}.

Lemma nth_error_combine (l1 : list A) (l2 : list B) i a b :
  nth_error (combine l1 l2) i = Some (a, b) <->
  nth_error l1 i = Some a /\ nth_error l2 i = Some b.
Proof.
  revert l2 i.
  induction l1 as [|x l1 IH]; intros [|y l2] [|i]; simpl;
    try (split; [discriminate | intros [? ?]; discriminate]).
  - split; [intros [= -> ->]; auto | intros [[= ->] [= ->]]; reflexivity].
  - apply IH.
Qed.

Lemma combine_app_short (l1 : list A) (l2 l3 : list B) :
  (length l1 <= length l2)%nat ->
  combine l1 (l2 ++ l3) = combine l1 l2.
Proof.
  revert l2.
  induction l1 as [|x l1 IH]; intros [|y l2] Hle; simpl in *;
    try reflexivity; try lia.
  f_equal. apply IH. lia.
Qed.

Lemma snoc_cases (l : list A) :
  l = [] \/ exists front lst, l = front ++ [lst].
Proof.
  destruct (rev l) as [|lst front] eqn:E.
  - left. apply (f_equal (@rev A)) in E.
    now rewrite rev_involutive in E.
  - right. exists (rev front), lst.
    apply (f_equal (@rev A)) in E.
    now rewrite rev_involutive in E.
Qed.

Lemma option_map_Some (f : A -> B) (o : option A) (y : B) :
  option_map f o = Some y -> exists x, o = Some x /\ y = f x.
Proof.
  destruct o as [x|]; simpl; [|discriminate].
  intros [= <-]. now exists x.
Qed.

(** A list of lists without repetition inside a list or between two
    lists flattens to a list without repetition. *)
Lemma NoDup_concat_by_index (ls : list (list A)) :
  (forall l, In l ls -> NoDup l) ->
  (forall i j li lj x,
      nth_error ls i = Some li -> nth_error ls j = Some lj ->
      In x li -> In x lj -> i = j) ->
  NoDup (concat ls).
Proof.
  induction ls as [|l ls IH]; intros Hin Hsep; simpl; [constructor|].
  apply NoDup_app.
  - apply Hin. now left.
  - apply IH.
    + intros l' Hl'. apply Hin. now right.
    + intros i j li lj x Hi Hj Hxi Hxj.
      specialize (Hsep (S i) (S j) li lj x Hi Hj Hxi Hxj). lia.
  - intros x Hx Hx'. apply in_concat in Hx'.
    destruct Hx' as (l' & Hl' & Hxl').
    apply In_nth_error in Hl'. destruct Hl' as [j Hj].
    specialize (Hsep 0%nat (S j) l l' x eq_refl Hj Hx Hxl').
    discriminate.
Qed.

End ListFacts.

(** ** Round-robin fixtures *)

Section FixtureFacts.

Import TournamentScheduler.

Context {A : Type}.

Implicit Types (teams l : list A).

Lemma rotate_cons_snoc (x y : A) mid :
  rotate (x :: mid ++ [y]) = x :: y :: mid.
Proof.
  unfold rotate. rewrite rev_app_distr. simpl.
  now rewrite rev_involutive.
Qed.

Lemma length_rotate l : length (rotate l) = length l.
Proof.
  destruct l as [|x rest]; [reflexivity|].
  destruct (snoc_cases rest) as [-> | (mid & y & ->)]; [reflexivity|].
  rewrite rotate_cons_snoc. simpl. rewrite length_app. simpl. lia.
Qed.

Lemma Permutation_rotate l : Permutation (rotate l) l.
Proof.
  destruct l as [|x rest]; [reflexivity|].
  destruct (snoc_cases rest) as [-> | (mid & y & ->)]; [reflexivity|].
  rewrite rotate_cons_snoc. apply perm_skip.
  change (y :: mid) with ([y] ++ mid). apply Permutation_app_comm.
Qed.

(** Where the element at position [p] of a rotated list of [m + 1] teams
    comes from. *)
Lemma nth_error_rotate l m p :
  length l = S m -> (1 <= m)%nat -> (p <= m)%nat ->
  nth_error (rotate l) p =
  nth_error l (if p =? 0 then 0 else if p =? 1 then m else p - 1)%nat.
Proof.
  intros Hlen Hm Hp.
  destruct l as [|x rest]; [discriminate|].
  destruct (snoc_cases rest) as [-> | (mid & y & ->)];
    [simpl in Hlen; lia|].
  rewrite rotate_cons_snoc.
  simpl in Hlen. rewrite length_app in Hlen. simpl in Hlen.
  destruct p as [|[|p]]; simpl.
  - reflexivity.
  - destruct m as [|m]; [lia|]. simpl.
    rewrite nth_error_app2 by lia.
    replace (m - length mid)%nat with 0%nat by lia. reflexivity.
  - rewrite nth_error_app1 by lia. reflexivity.
Qed.

Lemma length_rotations k l : length (Nat.iter k rotate l) = length l.
Proof.
  induction k as [|k IH]; simpl; [reflexivity|].
  now rewrite length_rotate.
Qed.

Lemma Permutation_rotations k l : Permutation (Nat.iter k rotate l) l.
Proof.
  induction k as [|k IH]; simpl; [reflexivity|].
  etransitivity; [apply Permutation_rotate | exact IH].
Qed.

Lemma nth_error_rotations l m k p :
  length l = S m -> (1 <= m)%nat -> (k <= m)%nat -> (p <= m)%nat ->
  nth_error (Nat.iter k rotate l) p = nth_error l (origin m k p).
Proof.
  intros Hlen Hm. revert p.
  induction k as [|k IH]; intros p Hk Hp.
  - simpl. unfold origin.
    destruct (Nat.eqb_spec p 0); [now subst|].
    destruct (Nat.ltb_spec 0 p); [|lia].
    now rewrite Nat.sub_0_r.
  - simpl.
    rewrite (@nth_error_rotate _ m) by (rewrite ?length_rotations; auto).
    assert (Hsrc : ((if p =? 0 then 0 else if p =? 1 then m else p - 1)
                    <= m)%nat)
      by (destruct p as [|[|p]]; simpl; lia).
    rewrite IH by (auto; lia).
    f_equal. unfold origin.
    destruct p as [|[|p]]; [reflexivity| |]; simpl (_ =? _)%nat; cbv iota.
    all: repeat match goal with
           | |- context [Nat.eqb ?a ?b] => destruct (Nat.eqb_spec a b)
           | |- context [Nat.ltb ?a ?b] => destruct (Nat.ltb_spec a b)
           end; lia.
Qed.

Lemma createRound_cons_snoc (x y : A) mid :
  createRound (x :: mid ++ [y]) = (x, y) :: createRound mid.
Proof.
  unfold createRound.
  assert (Hhalf : (length (x :: mid ++ [y]) / 2 = S (length mid / 2))%nat)
    by (cbn [length]; rewrite length_app; cbn [length]; lia).
  rewrite Hhalf.
  assert (Hle : (length mid / 2 <= length mid)%nat) by lia.
  generalize dependent (length mid / 2)%nat. intros h _ Hle.
  cbn [rev firstn]. rewrite rev_app_distr. cbn [rev app combine].
  f_equal.
  rewrite firstn_app.
  replace (h - length mid)%nat with 0%nat by lia.
  cbn [firstn]. rewrite app_nil_r.
  apply combine_app_short.
  rewrite length_firstn, length_rev. lia.
Qed.

(** The teams of a round are the teams of the ordering it was made from,
    each once. *)
Lemma flat_createRound_Permutation h : forall l,
  length l = (2 * h)%nat -> Permutation (flat (createRound l)) l.
Proof.
  induction h as [|h IH]; intros l Hlen.
  - destruct l; [reflexivity | discriminate].
  - destruct l as [|x rest]; [discriminate|].
    destruct (snoc_cases rest) as [-> | (mid & y & ->)];
      [simpl in Hlen; lia|].
    rewrite createRound_cons_snoc.
    simpl in Hlen. rewrite length_app in Hlen. simpl in Hlen.
    unfold flat. simpl. fold (flat (createRound mid)).
    apply perm_skip.
    rewrite (IH mid) by lia.
    change (y :: mid) with ([y] ++ mid). apply Permutation_app_comm.
Qed.

(** [createRound] as the scheduler describes it: n/2 pairings, the one at
    position [i] joining positions [i] and [n - 1 - i] of the ordering. *)
Lemma length_createRound l : length (createRound l) = (length l / 2)%nat.
Proof.
  unfold createRound.
  change (length (A:=pairing)) with (length (A:=A * A)).
  rewrite length_combine, length_firstn, length_rev. lia.
Qed.

Lemma nth_error_createRound l i a b :
  nth_error (createRound l) i = Some (a, b) <->
  (i < length l / 2)%nat /\
  nth_error l i = Some a /\
  nth_error l (length l - 1 - i) = Some b.
Proof.
  unfold createRound.
  etransitivity; [apply nth_error_combine|].
  rewrite nth_error_firstn, nth_error_rev.
  destruct (Nat.ltb_spec i (length l / 2)) as [Hlt|Hge].
  - destruct (Nat.ltb_spec i (length l)) as [_|Hge]; [|lia].
    replace (length l - S i)%nat with (length l - 1 - i)%nat by lia.
    tauto.
  - split; [intros [[=] _] | intros [Hlt _]; lia].
Qed.

Lemma In_createRound l a b :
  In (a, b) (createRound l) ->
  exists i, (i < length l / 2)%nat /\
            nth_error l i = Some a /\
            nth_error l (length l - 1 - i) = Some b.
Proof.
  intros Hin. apply In_nth_error in Hin. destruct Hin as [i Hi].
  unfold createRound in Hi. apply nth_error_combine in Hi.
  destruct Hi as [Ha Hb].
  rewrite nth_error_firstn in Ha.
  destruct (Nat.ltb_spec i (length l / 2)) as [Hlt|]; [|discriminate].
  rewrite nth_error_rev in Hb.
  destruct (Nat.ltb_spec i (length l)) as [Hlt'|]; [|discriminate].
  exists i. repeat split; auto.
  now replace (length l - 1 - i)%nat with (length l - S i)%nat by lia.
Qed.

Lemma nth_error_roundsFrom k : forall l i,
  nth_error (roundsFrom k l) i =
  if (i <? k)%nat then Some (createRound (Nat.iter i rotate l)) else None.
Proof.
  induction k as [|k IH]; intros l i.
  - now destruct i.
  - destruct i as [|i]; [reflexivity|].
    simpl roundsFrom. simpl nth_error. rewrite IH.
    change (S i <? S k)%nat with (i <? k)%nat.
    now rewrite Nat.iter_succ_r.
Qed.

Lemma length_roundsFrom k : forall l, length (roundsFrom k l) = k.
Proof.
  induction k as [|k IH]; intros l; simpl; [reflexivity|].
  now rewrite IH.
Qed.

(** A round of the single cycle is the round of some rotation of the
    teams. *)
Lemma nth_error_createTournamentRounds teams i r :
  nth_error (createTournamentRounds teams) i = Some r ->
  (i < length teams - 1)%nat /\ r = createRound (Nat.iter i rotate teams).
Proof.
  unfold createTournamentRounds. rewrite nth_error_roundsFrom.
  destruct (Nat.ltb_spec i (length teams - 1)); [|discriminate].
  intros [= <-]. auto.
Qed.

Lemma origin_le m k p :
  (k <= m)%nat -> (p <= m)%nat -> (origin m k p <= m)%nat.
Proof.
  intros Hk Hp. unfold origin.
  destruct (Nat.eqb_spec p 0); [lia|].
  destruct (Nat.ltb_spec k p); lia.
Qed.

(** The circle method on an odd number [m] of moving teams: the two
    positions a pairing joins determine the round. *)
Lemma origin_pair_unique m h i j p q :
  m = (2 * h + 1)%nat ->
  (i < m)%nat -> (j < m)%nat -> (p <= h)%nat -> (q <= h)%nat ->
  (origin m i p = origin m j q /\
   origin m i (m - p) = origin m j (m - q)) \/
  (origin m i p = origin m j (m - q) /\
   origin m i (m - p) = origin m j q) ->
  i = j.
Proof.
  intros Hm Hi Hj Hp Hq. unfold origin.
  repeat match goal with
         | |- context [Nat.eqb ?a ?b] => destruct (Nat.eqb_spec a b)
         | |- context [Nat.ltb ?a ?b] => destruct (Nat.ltb_spec a b)
         end; lia.
Qed.

(** A pairing and its mirror image occur in one round of the single cycle
    only. *)
Lemma pairing_in_one_round teams i j a b :
  NoDup teams -> Nat.Even (length teams) ->
  (i < length teams - 1)%nat -> (j < length teams - 1)%nat ->
  In (a, b) (createRound (Nat.iter i rotate teams)) ->
  In (a, b) (createRound (Nat.iter j rotate teams)) \/
  In (b, a) (createRound (Nat.iter j rotate teams)) ->
  i = j.
Proof.
  intros Hnd [h Hh] Hi Hj Hin1 Hin2.
  destruct h as [|h]; [lia|].
  set (m := (2 * h + 1)%nat).
  assert (Hlen : length teams = S m) by (unfold m; lia).
  assert (Hm : (1 <= m)%nat) by (unfold m; lia).
  assert (Hhalf : (length teams / 2 = S h)%nat) by lia.
  apply In_createRound in Hin1. destruct Hin1 as (p & Hp & Hpa & Hpb).
  rewrite length_rotations, ?Hhalf, ?Hlen in *.
  rewrite (@nth_error_rotations _ m) in Hpa, Hpb by lia.
  replace (S m - 1 - p)%nat with (m - p)%nat in Hpb by lia.
  assert (Hkey :
    exists q, (q <= h)%nat /\
      ((nth_error teams (origin m j q) = Some a /\
        nth_error teams (origin m j (m - q)) = Some b) \/
       (nth_error teams (origin m j q) = Some b /\
        nth_error teams (origin m j (m - q)) = Some a))).
  { destruct Hin2 as [Hin2|Hin2];
      apply In_createRound in Hin2; destruct Hin2 as (q & Hq & Hqa & Hqb);
      rewrite length_rotations, ?Hhalf, ?Hlen in *;
      rewrite (@nth_error_rotations _ m) in Hqa, Hqb by lia;
      replace (S m - 1 - q)%nat with (m - q)%nat in Hqb by lia;
      exists q; (split; [lia|]); [left | right]; auto. }
  destruct Hkey as (q & Hq & Hcases).
  pose proof (proj1 (NoDup_nth_error teams) Hnd) as Hinj.
  assert (Hb1 : (origin m i p < length teams)%nat)
    by (pose proof (@origin_le m i p); lia).
  assert (Hb2 : (origin m i (m - p) < length teams)%nat)
    by (pose proof (@origin_le m i (m - p)); lia).
  apply (@origin_pair_unique m h i j p q); try (unfold m; lia).
  destruct Hcases as [[Hqa Hqb]|[Hqb Hqa]]; [left | right]; split;
    apply Hinj; auto; congruence.
Qed.

Lemma flat_cons (p : A * A) (r : list (A * A)) :
  flat (p :: r) = fst p :: snd p :: flat r.
Proof. reflexivity. Qed.

Lemma In_flat_l a b (r : list (A * A)) : In (a, b) r -> In a (flat r).
Proof.
  intros Hin. unfold flat. apply in_flat_map.
  exists (a, b). split; [assumption | now left].
Qed.

Lemma In_flat_r a b (r : list (A * A)) : In (a, b) r -> In b (flat r).
Proof.
  intros Hin. unfold flat. apply in_flat_map.
  exists (a, b). split; [assumption | right; now left].
Qed.

(** In a round where no team plays twice no pairing is listed twice, and
    no pairing comes with its mirror image. *)
Lemma NoDup_flat_NoDup (r : list (A * A)) : NoDup (flat r) -> NoDup r.
Proof.
  induction r as [|[a b] r IH]; intros Hnd; [constructor|].
  rewrite flat_cons in Hnd. simpl in Hnd.
  inversion Hnd as [|? ? Ha Hnd']; subst.
  inversion Hnd' as [|? ? Hb Hnd'']; subst.
  constructor; [|auto].
  intros Hin. apply Ha. right. eapply In_flat_l; eauto.
Qed.

Lemma NoDup_flat_no_mirror (r : list (A * A)) a b :
  NoDup (flat r) -> In (a, b) r -> ~ In (b, a) r.
Proof.
  induction r as [|[x y] r IH]; intros Hnd Hin Hmir; [contradiction|].
  rewrite flat_cons in Hnd. simpl in Hnd.
  inversion Hnd as [|? ? Hx Hnd']; subst.
  inversion Hnd' as [|? ? Hy Hnd'']; subst.
  destruct Hin as [[= ? ?]|Hin], Hmir as [[= ? ?]|Hmir]; subst.
  - apply Hx. now left.
  - apply Hx. right. eapply In_flat_r; eauto.
  - apply Hx. right. eapply In_flat_r; eauto.
  - now apply IH.
Qed.

Lemma round_is_perfect_matching teams r :
  Nat.Even (length teams) ->
  In r (createTournamentRounds teams) ->
  Permutation (flat r) teams.
Proof.
  intros [h Hh] Hin.
  apply In_nth_error in Hin. destruct Hin as [i Hi].
  apply nth_error_createTournamentRounds in Hi. destruct Hi as [_ ->].
  etransitivity; [|apply (Permutation_rotations i)].
  apply (@flat_createRound_Permutation h).
  now rewrite length_rotations.
Qed.

Lemma NoDup_flat_one_pairing (r : list (A * A)) t p p' :
  NoDup (flat r) -> In p r -> In p' r ->
  fst p = t \/ snd p = t -> fst p' = t \/ snd p' = t -> p' = p.
Proof.
  induction r as [|[x y] r IH]; intros Hnd Hp Hp' Ht Ht'; [contradiction|].
  rewrite flat_cons in Hnd. simpl in Hnd.
  inversion Hnd as [|? ? Hx Hnd']; subst.
  inversion Hnd' as [|? ? Hy Hnd'']; subst.
  assert (Hout : forall q, In q r -> fst q = x \/ snd q = x \/
                                    fst q = y \/ snd q = y -> False).
  { intros [qa qb] Hq Hc. simpl in Hc.
    pose proof (@In_flat_l qa qb r Hq). pose proof (@In_flat_r qa qb r Hq).
    destruct Hc as [<-|[<-|[<-|<-]]]; auto; apply Hx; now right. }
  destruct Hp as [<-|Hp], Hp' as [<-|Hp']; simpl in *.
  - reflexivity.
  - exfalso. apply (Hout p' Hp').
    destruct Ht as [<-|<-], Ht' as [->| ->]; auto.
  - exfalso. apply (Hout p Hp).
    destruct Ht as [->| ->], Ht' as [<-|<-]; auto.
  - eapply IH; eauto.
Qed.

(** C1. For an even number n of distinct teams createTournamentRounds
    returns n-1 rounds (none for the empty list); the teams of every round,
    pairing after pairing, are the n teams each listed once, so that every
    team is in exactly one pairing of the round; and a pairing, read in
    either order, that occurs in two rounds occurs in one and the same
    round. *)
Theorem createTournamentRounds_round_robin teams :
  NoDup teams -> Nat.Even (length teams) ->
  length (createTournamentRounds teams) = (length teams - 1)%nat /\
  (forall r, In r (createTournamentRounds teams) ->
     Permutation (flat r) teams /\
     forall t, In t teams ->
       exists p, In p r /\ (fst p = t \/ snd p = t) /\
         forall p', In p' r -> fst p' = t \/ snd p' = t -> p' = p) /\
  (forall i j ri rj a b,
     nth_error (createTournamentRounds teams) i = Some ri ->
     nth_error (createTournamentRounds teams) j = Some rj ->
     In (a, b) ri -> In (a, b) rj \/ In (b, a) rj -> i = j).
Proof.
  intros Hnd Heven. split; [|split].
  - apply length_roundsFrom.
  - intros r Hr.
    pose proof (@round_is_perfect_matching teams r Heven Hr) as Hperm.
    split; [exact Hperm|].
    intros t Ht.
    assert (Hflat : In t (flat r))
      by (eapply Permutation_in; [symmetry; exact Hperm | exact Ht]).
    unfold flat in Hflat. apply in_flat_map in Hflat.
    destruct Hflat as (p & Hp & Htp).
    assert (Hside : fst p = t \/ snd p = t) by (simpl in Htp; tauto).
    exists p. repeat split; auto.
    intros p' Hp' Hside'.
    eapply NoDup_flat_one_pairing; eauto.
    eapply Permutation_NoDup; [symmetry; exact Hperm | exact Hnd].
  - intros i j ri rj a b Hi Hj Hin1 Hin2.
    apply nth_error_createTournamentRounds in Hi, Hj.
    destruct Hi as [Hi ->], Hj as [Hj ->].
    apply (@pairing_in_one_round teams i j a b); auto.
Qed.

Lemma swapPairing_inj (p q : A * A) : swapPairing p = swapPairing q -> p = q.
Proof. destruct p, q. unfold swapPairing. simpl. congruence. Qed.

Lemma In_mirrorRound a b (r : list (A * A)) :
  In (a, b) (mirrorRound r) <-> In (b, a) r.
Proof.
  unfold mirrorRound. rewrite in_map_iff. split.
  - intros ([x y] & [= <- <-] & Hin). exact Hin.
  - intros Hin. exists (b, a). auto.
Qed.

Lemma NoDup_round teams r :
  NoDup teams -> Nat.Even (length teams) ->
  In r (createTournamentRounds teams) -> NoDup (flat r).
Proof.
  intros Hnd Heven Hr.
  eapply Permutation_NoDup; [|exact Hnd].
  symmetry. now apply round_is_perfect_matching.
Qed.

Lemma nth_error_double teams i r :
  nth_error (createDoubleRoundsTournament teams) i = Some r ->
  exists k single,
    (k < length teams - 1)%nat /\
    nth_error (createTournamentRounds teams) k = Some single /\
    ((i = k /\ r = single) \/
     (i = (length teams - 1 + k)%nat /\ r = mirrorRound single)).
Proof.
  unfold createDoubleRoundsTournament. cbv zeta.
  rewrite nth_error_app.
  assert (Hlen : length (createTournamentRounds teams)
                 = (length teams - 1)%nat) by apply length_roundsFrom.
  rewrite Hlen.
  destruct (Nat.ltb_spec i (length teams - 1)) as [Hlt|Hge]; intros Hi.
  - exists i, r. auto.
  - rewrite nth_error_map in Hi.
    destruct (nth_error (createTournamentRounds teams)
                (i - (length teams - 1))) as [single|] eqn:E;
      [|discriminate].
    injection Hi as <-.
    assert (Hk : (i - (length teams - 1) < length teams - 1)%nat)
      by (rewrite <- Hlen; apply nth_error_Some; congruence).
    exists (i - (length teams - 1))%nat, single.
    repeat split; auto. right. split; [lia | reflexivity].
Qed.

(** C2. For an even number n of distinct teams
    createDoubleRoundsTournament returns 2(n-1) rounds: the first n-1 are
    the rounds of the single cycle, the last n-1 are those rounds with the
    two members of every pairing swapped; and the list of all (home, away)
    pairings of all the rounds has no repetition. *)
Theorem createDoubleRoundsTournament_mirrored teams :
  NoDup teams -> Nat.Even (length teams) ->
  length (createDoubleRoundsTournament teams)
    = (2 * (length teams - 1))%nat /\
  firstn (length teams - 1) (createDoubleRoundsTournament teams)
    = createTournamentRounds teams /\
  skipn (length teams - 1) (createDoubleRoundsTournament teams)
    = map (map (fun p => (snd p, fst p))) (createTournamentRounds teams) /\
  NoDup (concat (createDoubleRoundsTournament teams)).
Proof.
  intros Hnd Heven.
  assert (Hlen : length (createTournamentRounds teams)
                 = (length teams - 1)%nat) by apply length_roundsFrom.
  split; [|split; [|split]].
  - unfold createDoubleRoundsTournament. cbv zeta.
    rewrite length_app, length_map, Hlen. lia.
  - unfold createDoubleRoundsTournament. cbv zeta.
    rewrite <- Hlen, firstn_app, Nat.sub_diag, firstn_all. simpl.
    apply app_nil_r.
  - unfold createDoubleRoundsTournament. cbv zeta.
    rewrite <- Hlen, skipn_app, Nat.sub_diag, skipn_all. reflexivity.
  - apply NoDup_concat_by_index.
    + intros r Hr. apply In_nth_error in Hr. destruct Hr as [i Hi].
      apply nth_error_double in Hi.
      destruct Hi as (k & single & _ & Hk & [[_ ->]|[_ ->]]);
        apply nth_error_In in Hk;
        pose proof (@NoDup_flat_NoDup _ (@NoDup_round teams single Hnd Heven Hk)).
      * assumption.
      * apply Finite.Injective_map_NoDup; [|assumption].
        intros p q. apply swapPairing_inj.
    + intros i j ri rj [a b] Hi Hj Hin1 Hin2.
      apply nth_error_double in Hi, Hj.
      destruct Hi as (k & si & Hk & Hsi & Hi).
      destruct Hj as (k' & sj & Hk' & Hsj & Hj).
      pose proof (@NoDup_round teams si Hnd Heven (nth_error_In _ _ Hsi)) as Hndi.
      apply nth_error_createTournamentRounds in Hsi, Hsj.
      destruct Hsi as [_ Hsi], Hsj as [_ Hsj].
      destruct Hi as [[-> ->]|[-> ->]], Hj as [[-> ->]|[-> ->]];
        rewrite ?In_mirrorRound in *.
      * subst.
        apply (@pairing_in_one_round teams k k' a b); auto.
      * exfalso. subst.
        assert (k = k')
          by (apply (@pairing_in_one_round teams k k' a b); auto).
        subst k'. eapply NoDup_flat_no_mirror; eauto.
      * exfalso. subst.
        assert (k' = k)
          by (apply (@pairing_in_one_round teams k' k a b); auto).
        subst k'. eapply NoDup_flat_no_mirror; eauto.
      * f_equal. subst.
        apply (@pairing_in_one_round teams k k' b a); auto.
Qed.

End FixtureFacts.

(** ** Match identifiers *)

Section IdentifierFacts.

Import TournamentScheduler.

Lemma dashFree_digits d : dashFree (NilEmpty.string_of_uint d).
Proof.
  induction d; simpl; auto; split; auto; discriminate.
Qed.

Lemma dashFree_indexToString n : dashFree (indexToString n).
Proof.
  unfold indexToString, NilZero.string_of_uint.
  destruct (Nat.to_uint n) eqn:E; try (rewrite <- E; apply dashFree_digits);
    rewrite ?E; try apply dashFree_digits.
  simpl. split; [discriminate | exact I].
Qed.

(** Two strings cut at their first dash agree part by part. *)
Lemma append_dash_inj s1 : forall s2 t1 t2,
  dashFree s1 -> dashFree s2 ->
  String.append s1 (String "-" t1) = String.append s2 (String "-" t2) ->
  s1 = s2 /\ t1 = t2.
Proof.
  induction s1 as [|c s1 IH]; intros [|c' s2] t1 t2 H1 H2 Heq;
    simpl in *.
  - injection Heq as ->. auto.
  - injection Heq as <- _. destruct H2 as [H2 _]. now elim H2.
  - injection Heq as -> _. destruct H1 as [H1 _]. now elim H1.
  - injection Heq as -> Heq. destruct H1 as [_ H1], H2 as [_ H2].
    destruct (IH s2 t1 t2 H1 H2 Heq) as [-> ->]. auto.
Qed.

Lemma indexToString_inj n n' : indexToString n = indexToString n' -> n = n'.
Proof.
  unfold indexToString. intros Heq.
  assert (Hnn : forall k, Nat.to_uint k <> Decimal.Nil).
  { intros k.
    rewrite <- (DecimalNat.Unsigned.of_to k) at 1.
    rewrite DecimalNat.Unsigned.to_of.
    apply DecimalFacts.unorm_nonnil. }
  apply DecimalNat.Unsigned.to_uint_inj.
  pose proof (NilZero.usu _ (Hnn n)) as E1.
  pose proof (NilZero.usu _ (Hnn n')) as E2.
  rewrite Heq in E1. congruence.
Qed.

Lemma matchId_inj k j k' j' : matchId k j = matchId k' j' -> k = k' /\ j = j'.
Proof.
  unfold matchId. intros Heq.
  apply append_dash_inj in Heq; try apply dashFree_indexToString.
  destruct Heq as [Hk Hj].
  split; now apply indexToString_inj.
Qed.

End IdentifierFacts.

(** ** The dated schedule *)

Section ScheduleFacts.

Import JsDate TournamentScheduler.

Lemma length_mapWithIndexFrom {X Y : Type} (f : nat -> X -> Y) l :
  forall i, length (mapWithIndexFrom f i l) = length l.
Proof.
  induction l as [|x l IH]; intros i; simpl; [reflexivity|].
  now rewrite IH.
Qed.

Lemma nth_error_mapWithIndexFrom {X Y : Type} (f : nat -> X -> Y) l :
  forall i k,
    nth_error (mapWithIndexFrom f i l) k =
    option_map (f (i + k)%nat) (nth_error l k).
Proof.
  induction l as [|x l IH]; intros i [|k]; simpl; try reflexivity.
  - now rewrite Nat.add_0_r.
  - rewrite IH. now replace (S i + k)%nat with (i + S k)%nat by lia.
Qed.

Lemma map_mapWithIndexFrom {X Y : Type} (g : Y -> X) (f : nat -> X -> Y) l :
  (forall j x, g (f j x) = x) ->
  forall i, map g (mapWithIndexFrom f i l) = l.
Proof.
  intros Hgf. induction l as [|x l IH]; intros i; simpl; [reflexivity|].
  now rewrite Hgf, IH.
Qed.

Lemma nth_error_mapWithIndex {X Y : Type} (f : nat -> X -> Y) l k :
  nth_error (mapWithIndex f l) k = option_map (f k) (nth_error l k).
Proof. apply nth_error_mapWithIndexFrom. Qed.

(** [d.setDate(d.getDate() + k)] is [k] days later. *)
Lemma setDate_plus d k :
  setDate d (getDate d + k) = (d + k * msPerDay)%Z.
Proof. unfold setDate. f_equal. f_equal. lia. Qed.

Lemma nth_error_rounds_newSchedule teams start k r :
  nth_error (rounds (newSchedule teams start)) k = Some r ->
  exists fixtures,
    nth_error (createDoubleRoundsTournament teams) k = Some fixtures /\
    date r = (start + 7 * Z.of_nat k * msPerDay)%Z /\
    matches r =
      mapWithIndex
        (fun j p => {| id := matchId k j; home := fst p; away := snd p;
                       result := None |})
        fixtures.
Proof.
  unfold newSchedule. cbn [rounds].
  rewrite nth_error_mapWithIndex. intros Hr.
  apply option_map_Some in Hr. destruct Hr as (fixtures & Hfix & ->).
  exists fixtures. cbn [date matches].
  rewrite setDate_plus. auto.
Qed.

Lemma In_ids_of_round k (fixtures : list (string * string)) x :
  In x (map id
          (mapWithIndex
             (fun j p => {| id := matchId k j; home := fst p;
                            away := snd p; result := None |})
             fixtures)) ->
  exists j, x = matchId k j.
Proof.
  intros Hin. apply In_nth_error in Hin. destruct Hin as [j Hj].
  rewrite nth_error_map, nth_error_mapWithIndex in Hj.
  destruct (nth_error fixtures j); simpl in Hj; [|discriminate].
  injection Hj as <-. now exists j.
Qed.

Lemma NoDup_ids_of_round k (fixtures : list (string * string)) :
  NoDup (map id
          (mapWithIndex
             (fun j p => {| id := matchId k j; home := fst p;
                            away := snd p; result := None |})
             fixtures)).
Proof.
  apply NoDup_nth_error. intros i j Hi Heq.
  rewrite length_map in Hi.
  unfold mapWithIndex in Hi. rewrite length_mapWithIndexFrom in Hi.
  rewrite !nth_error_map, !nth_error_mapWithIndex in Heq.
  destruct (nth_error fixtures i) eqn:Ei;
    [|apply nth_error_None in Ei; lia].
  destruct (nth_error fixtures j); simpl in Heq; [|discriminate].
  injection Heq as Heq.
  now apply matchId_inj in Heq.
Qed.

(** C5. A Schedule built from any team list and start date D has one round
    per fixture round of the double round-robin, round k holding the
    pairings of fixture round k as its home and away teams; round k is
    dated D + 7k days, so that consecutive rounds are seven days apart;
    and the identifiers of all the matches of the schedule, taken
    together, are pairwise different. *)
Theorem Schedule_weekly_rounds_unique_ids (teams : list string) (D : Date) :
  length (rounds (newSchedule teams D))
    = length (createDoubleRoundsTournament teams) /\
  (forall k r, nth_error (rounds (newSchedule teams D)) k = Some r ->
     date r = (D + 7 * Z.of_nat k * msPerDay)%Z /\
     date r = setDate D (getDate D + 7 * Z.of_nat k) /\
     nth_error (createDoubleRoundsTournament teams) k
       = Some (map (fun m => (home m, away m)) (matches r))) /\
  (forall k r r',
     nth_error (rounds (newSchedule teams D)) k = Some r ->
     nth_error (rounds (newSchedule teams D)) (S k) = Some r' ->
     date r' = setDate (date r) (getDate (date r) + 7)) /\
  NoDup (map id (allMatches (newSchedule teams D))).
Proof.
  split; [|split; [|split]].
  - unfold newSchedule, mapWithIndex. cbn [rounds].
    apply length_mapWithIndexFrom.
  - intros k r Hr.
    apply nth_error_rounds_newSchedule in Hr.
    destruct Hr as (fixtures & Hfix & Hdate & Hm).
    rewrite setDate_plus. repeat split; auto.
    rewrite Hfix, Hm. f_equal. symmetry.
    apply map_mapWithIndexFrom. now intros j [h a].
  - intros k r r' Hr Hr'.
    apply nth_error_rounds_newSchedule in Hr, Hr'.
    destruct Hr as (_ & _ & -> & _), Hr' as (_ & _ & -> & _).
    rewrite setDate_plus. lia.
  - unfold allMatches. rewrite flat_map_concat_map, concat_map, map_map.
    apply NoDup_concat_by_index.
    + intros ids Hids. apply in_map_iff in Hids.
      destruct Hids as (r & <- & Hr).
      apply In_nth_error in Hr. destruct Hr as [k Hk].
      apply nth_error_rounds_newSchedule in Hk.
      destruct Hk as (fixtures & _ & _ & ->).
      apply NoDup_ids_of_round.
    + intros i j li lj x Hi Hj Hxi Hxj.
      rewrite nth_error_map in Hi, Hj.
      destruct (nth_error (rounds (newSchedule teams D)) i) as [ri|] eqn:Ei;
        simpl in Hi; [|discriminate].
      destruct (nth_error (rounds (newSchedule teams D)) j) as [rj|] eqn:Ej;
        simpl in Hj; [|discriminate].
      injection Hi as <-. injection Hj as <-.
      apply nth_error_rounds_newSchedule in Ei, Ej.
      destruct Ei as (fi & _ & _ & Hmi), Ej as (fj & _ & _ & Hmj).
      rewrite Hmi in Hxi. rewrite Hmj in Hxj.
      apply In_ids_of_round in Hxi, Hxj.
      destruct Hxi as [a ->], Hxj as [b Heq].
      now apply matchId_inj in Heq.
Qed.

End ScheduleFacts.

(** ** Arrays *)

Section ArrayFacts.

Import Simulation.
Local Open Scope Z_scope.

Context {X : Type}.

(** [findIndex] stops at the first element that satisfies the test. *)
Lemma findIndexFrom_cases (p : X -> bool) (a : list X) : forall i,
  (findIndexFrom p a i = -1 /\ Forall (fun x => p x = false) a) \/
  (exists before x rest,
      a = before ++ x :: rest /\
      Forall (fun x => p x = false) before /\
      p x = true /\
      findIndexFrom p a i = i + Z.of_nat (length before)).
Proof.
  induction a as [|x a IH]; intros i; simpl.
  - left. split; auto.
  - destruct (p x) eqn:Hx.
    + right. exists [], x, a. simpl. repeat split; auto. lia.
    + destruct (IH (i + 1)) as [(Hnone & Hall)|
                                (before & y & rest & -> & Hall & Hy & Hidx)].
      * left. split; auto.
      * right. exists (x :: before), y, rest. simpl.
        repeat split; auto. lia.
Qed.

Lemma findIndex_cases (p : X -> bool) (a : list X) :
  (findIndex p a = -1 /\ Forall (fun x => p x = false) a) \/
  (exists before x rest,
      a = before ++ x :: rest /\
      Forall (fun x => p x = false) before /\
      p x = true /\
      findIndex p a = Z.of_nat (length before)).
Proof.
  unfold findIndex.
  destruct (findIndexFrom_cases p a 0)
    as [(Hnone & Hall)|(before & y & rest & Ha & Hall & Hy & Hidx)].
  - left. split; auto.
  - right. exists before, y, rest. repeat split; auto.
Qed.

Lemma spliceInsert_at (before after : list X) (x : X) :
  spliceInsert (before ++ after) (Z.of_nat (length before)) x
  = before ++ x :: after.
Proof.
  unfold spliceInsert. rewrite Nat2Z.id.
  rewrite firstn_app, skipn_app, Nat.sub_diag, firstn_all, skipn_all.
  simpl. now rewrite app_nil_r.
Qed.

End ArrayFacts.

(** ** The event queue *)

Section QueueFacts.

Import JsDate Simulation.
Local Open Scope Z_scope.

(** Where [enqueue] puts the event: after every event dated no later, and
    before the first event dated strictly later, if there is one. *)
Lemma enqueue_position (queue : list GameEvent) (e : GameEvent) :
  exists before after,
    queue = before ++ after /\
    enqueue queue e = before ++ e :: after /\
    Forall (fun x => getTime (evt_date x) <= getTime (evt_date e)) before /\
    match after with
    | [] => True
    | x :: _ => getTime (evt_date e) < getTime (evt_date x)
    end.
Proof.
  unfold enqueue. cbv zeta.
  destruct (findIndex_cases
              (fun evt => getTime (evt_date evt) >? getTime (evt_date e))
              queue)
    as [(-> & Hall)|(before & x & rest & -> & Hall & Hx & ->)].
  - exists queue, []. simpl. rewrite app_nil_r.
    repeat split; auto.
    eapply Forall_impl; [|exact Hall]. simpl. intros a Ha. lia.
  - exists before, (x :: rest).
    replace (negb (Z.of_nat (length before) =? -1)) with true
      by (symmetry; apply negb_true_iff, Z.eqb_neq; lia).
    rewrite spliceInsert_at. repeat split; auto.
    + eapply Forall_impl; [|exact Hall]. simpl. intros a Ha. lia.
    + lia.
Qed.

Lemma sortedByDate_strong (queue : list GameEvent) :
  sortedByDate queue <->
  StronglySorted
    (fun a b => getTime (evt_date a) <= getTime (evt_date b)) queue.
Proof.
  unfold sortedByDate. split.
  - apply Sorted_StronglySorted. intros a b c. lia.
  - apply StronglySorted_Sorted.
Qed.

Lemma StronglySorted_app_inv {T : Type} (R : T -> T -> Prop) l1 : forall l2,
  StronglySorted R (l1 ++ l2) ->
  StronglySorted R l1 /\ StronglySorted R l2 /\
  forall a b, In a l1 -> In b l2 -> R a b.
Proof.
  induction l1 as [|x l1 IH]; intros l2 Hs; simpl in *.
  - split; [constructor|]. split; [assumption|]. intros a b [].
  - inversion Hs as [|? ? Hs' Hall]; subst.
    destruct (IH l2 Hs') as (H1 & H2 & H12).
    rewrite Forall_app in Hall. destruct Hall as [Hall1 Hall2].
    repeat split; auto.
    + constructor; auto.
    + intros a b [<-|Ha] Hb; auto.
      rewrite Forall_forall in Hall2. auto.
Qed.

Lemma StronglySorted_app_intro {T : Type} (R : T -> T -> Prop) l1 : forall l2,
  StronglySorted R l1 -> StronglySorted R l2 ->
  (forall a b, In a l1 -> In b l2 -> R a b) ->
  StronglySorted R (l1 ++ l2).
Proof.
  induction l1 as [|x l1 IH]; intros l2 H1 H2 H12; simpl; auto.
  inversion H1 as [|? ? H1' Hall]; subst.
  constructor.
  - apply IH; auto. intros a b Ha Hb. apply H12; simpl; auto.
  - rewrite Forall_app. split; auto.
    rewrite Forall_forall. intros b Hb. apply H12; simpl; auto.
Qed.

(** C4. GameState.enqueueGameEvent(s, e) changes the event queue only; it
    splits the queue in two and puts e between the parts: every event of
    the first part is dated no later than e, and the second part is empty
    or starts with the first event dated strictly later than e.  When the
    queue was in ascending order of date, every event of the second part is
    dated strictly later than e, so that all events of e's date precede e,
    and the new queue is in ascending order as well. *)
Theorem enqueueGameEvent_keeps_order
  {Player Team : Type} (s : GameState Player Team) (e : GameEvent) :
  exists before after,
    eventQueue s = before ++ after /\
    enqueueGameEvent e s
      = Returned tt (withEventQueue s (before ++ e :: after)) /\
    Forall (fun x => getTime (evt_date x) <= getTime (evt_date e)) before /\
    match after with
    | [] => True
    | x :: _ => getTime (evt_date e) < getTime (evt_date x)
    end /\
    (sortedByDate (eventQueue s) ->
     Forall (fun x => getTime (evt_date e) < getTime (evt_date x)) after /\
     sortedByDate (before ++ e :: after)).
Proof.
  destruct (enqueue_position (eventQueue s) e)
    as (before & after & Hq & Henq & Hbefore & Hafter).
  exists before, after. split; [exact Hq|]. split; [|split; [|split]]; auto.
  - unfold enqueueGameEvent, modify. now rewrite Henq.
  - rewrite Hq. rewrite !sortedByDate_strong. intros Hs.
    apply StronglySorted_app_inv in Hs. destruct Hs as (Hs1 & Hs2 & H12).
    assert (Hlater :
      Forall (fun x => getTime (evt_date e) < getTime (evt_date x)) after).
    { destruct after as [|x rest]; [constructor|].
      inversion Hs2 as [|? ? _ Hall]; subst.
      constructor; [exact Hafter|].
      eapply Forall_impl; [|exact Hall]. simpl. intros a Ha. lia. }
    split; [exact Hlater|].
    apply StronglySorted_app_intro; [exact Hs1| |].
    + constructor; [exact Hs2|].
      eapply Forall_impl; [|exact Hlater]. simpl. intros a Ha. lia.
    + rewrite Forall_forall in Hbefore, Hlater.
      intros a b Ha [<-|Hb].
      * now apply Hbefore.
      * specialize (Hbefore a Ha). specialize (Hlater b Hb).
        simpl in *. lia.
Qed.

End QueueFacts.

(** ** Dates *)

Section DateFacts.

Import JsDate.
Local Open Scope Z_scope.

(** [d.setHours(d.getHours() + h)] is [h] hours later. *)
Lemma setHours_plus d h :
  setHours d (getHours d + h) = d + h * msPerHour.
Proof. unfold setHours. f_equal. f_equal. lia. Qed.




Lemma onNumeral_eq {A : Type} (f : Z -> A) z : onNumeral f z = f z.
Proof. now destruct z. Qed.

Lemma days_from_civil_unfold y m d :
  days_from_civil y m d = days_from_civil_def y m d.
Proof.
  unfold days_from_civil.
  exact (onNumeral_eq (fun y => days_from_civil_def y m d) y).
Qed.

Lemma civil_from_days_unfold z : civil_from_days z = civil_from_days_def z.
Proof. unfold civil_from_days. apply onNumeral_eq. Qed.

(** The civil date of a day number, from the era, the year of the era and
    the day of the year (counted from March 1) the number splits into. *)
Lemma civil_from_days_eq z era yoe doy :
  0 <= yoe < 400 -> 0 <= doy <= 364 ->
  z + 719468 = era * 146097 + (yoe * 365 + yoe / 4 - yoe / 100 + doy) ->
  civil_from_days z =
  (yoe + era * 400 +
     (if (if (5 * doy + 2) / 153 <? 10
          then (5 * doy + 2) / 153 + 3 else (5 * doy + 2) / 153 - 9) <=? 2
      then 1 else 0),
   if (5 * doy + 2) / 153 <? 10
   then (5 * doy + 2) / 153 + 3 else (5 * doy + 2) / 153 - 9,
   doy - (153 * ((5 * doy + 2) / 153) + 2) / 5 + 1).
Proof.
  intros Hyoe Hdoy Hz. rewrite civil_from_days_unfold.
  unfold civil_from_days_def. cbv zeta. rewrite Hz.
  set (doe := yoe * 365 + yoe / 4 - yoe / 100 + doy).
  assert (Hdoe : 0 <= doe < 146097) by (unfold doe; lia).
  assert (E1 : (era * 146097 + doe) / 146097 = era) by lia.
  rewrite E1.
  replace (era * 146097 + doe - era * 146097) with doe by lia.
  assert (E2 : (doe - doe / 1460 + doe / 36524 - doe / 146096) / 365 = yoe)
    by (unfold doe; lia).
  rewrite E2.
  replace (doe - (365 * yoe + yoe / 4 - yoe / 100)) with doy
    by (unfold doe; lia).
  reflexivity.
Qed.

Lemma civil_of_september y d :
  1 <= d <= 30 -> civil_from_days (days_from_civil y 9 d) = (y, 9, d).
Proof.
  intros Hd.
  rewrite (@civil_from_days_eq _ (y / 400) (y - y / 400 * 400) (183 + d)).
  - assert (E : (5 * (183 + d) + 2) / 153 = 6) by lia.
    rewrite E. change (6 <? 10) with true. cbv iota.
    change (6 + 3 <=? 2) with false. cbv iota.
    f_equal; [f_equal|]; lia.
  - lia.
  - lia.
  - rewrite days_from_civil_unfold. unfold days_from_civil_def. cbv zeta.
    change (9 <=? 2) with false. change (2 <? 9) with true. cbv iota. lia.
Qed.

(** [new Date(y, 8, d)] is midnight of September [d] of the year [y], for
    a year the constructor does not read as a year of the 1900s. *)
Lemma newDate_september y d :
  y < 0 \/ 99 < y -> 1 <= d <= 30 ->
  getFullYear (newDate y 8 d) = y /\
  getMonth (newDate y 8 d) = 8 /\
  getDate (newDate y 8 d) = d /\
  TimeWithinDay (newDate y 8 d) = 0.
Proof.
  intros Hy Hd.
  assert (Hday : Day (newDate y 8 d) = days_from_civil y 9 d).
  { unfold newDate, Day, MakeDay.
    replace ((0 <=? y) && (y <=? 99)) with false
      by (symmetry; apply andb_false_iff; lia).
    change (8 / 12) with 0. change (8 mod 12 + 1) with 9.
    rewrite Z.add_0_r.
    assert (Hmid : days_from_civil y 9 1 + d - 1 = days_from_civil y 9 d)
      by (rewrite !days_from_civil_unfold; unfold days_from_civil_def; lia).
    rewrite Hmid. unfold msPerDay, msPerHour. lia. }
  unfold getFullYear, getMonth, getDate.
  rewrite Hday, civil_of_september by assumption.
  repeat split; try reflexivity.
  unfold TimeWithinDay, newDate, msPerDay, msPerHour. lia.
Qed.

(** A year from 0 to 99 is read as a year of the 1900s. *)
Lemma newDate_legacy y m d :
  0 <= y <= 99 -> newDate y m d = newDate (1900 + y) m d.
Proof.
  intros Hy. unfold newDate.
  replace ((0 <=? y) && (y <=? 99)) with true
    by (symmetry; apply andb_true_iff; lia).
  replace ((0 <=? 1900 + y) && (1900 + y <=? 99)) with false
    by (symmetry; apply andb_false_iff; lia).
  reflexivity.
Qed.

(** [new Date(y, 8, d)] for such a year is midnight of September [d] of
    the year 1900 + [y]. *)
Lemma newDate_september_legacy y d :
  0 <= y <= 99 -> 1 <= d <= 30 ->
  getFullYear (newDate y 8 d) = 1900 + y /\
  getMonth (newDate y 8 d) = 8 /\
  getDate (newDate y 8 d) = d /\
  TimeWithinDay (newDate y 8 d) = 0.
Proof.
  intros Hy Hd. rewrite (newDate_legacy 8 d Hy).
  apply newDate_september; [lia|exact Hd].
Qed.

End DateFacts.

(** ** The simulation clock *)

Section ClockFacts.

Import JsDate Simulation.
Local Open Scope Z_scope.

Context {Player Team : Type} {env : Collaborators Player Team}.

Implicit Types (gs : GameState Player Team).

Lemma processTicks_eq : processTicks = [0; 12].
Proof. reflexivity. Qed.

Lemma withDate_withDate gs d d' : withDate (withDate gs d) d' = withDate gs d'.
Proof. reflexivity. Qed.

Lemma process_empty gs :
  eventQueue gs = [] -> process gs = Returned true gs.
Proof.
  intros Hq. unfold process. rewrite processTicks_eq. simpl.
  now rewrite Hq.
Qed.

Lemma process_due_now gs first rest :
  eventQueue gs = first :: rest ->
  getTime (evt_date first) <= getTime (date gs) ->
  process gs = handleGameEvent first (withEventQueue gs rest).
Proof.
  intros Hq Hdue. unfold process. rewrite processTicks_eq. simpl.
  rewrite Hq.
  destruct (Z.geb_spec (getTime (date gs)) (getTime (evt_date first)));
    [reflexivity | lia].
Qed.

Lemma process_due_after_one_step gs first rest :
  eventQueue gs = first :: rest ->
  getTime (date gs) < getTime (evt_date first) ->
  getTime (evt_date first) <= getTime (date gs) + 12 * msPerHour ->
  process gs =
  handleGameEvent first
    (withEventQueue (withDate gs (date gs + 12 * msPerHour)) rest).
Proof.
  intros Hq Hnot Hdue. unfold process. rewrite processTicks_eq. simpl.
  rewrite Hq.
  destruct (Z.geb_spec (getTime (date gs)) (getTime (evt_date first)));
    [lia|].
  unfold NEXT_HOURS. rewrite setHours_plus.
  destruct (Z.geb_spec (getTime (date gs + 12 * msPerHour))
                       (getTime (evt_date first))) as [|Hlt];
    [reflexivity | unfold getTime in *; lia].
Qed.

Lemma process_nothing_due gs first rest :
  eventQueue gs = first :: rest ->
  getTime (date gs) + 12 * msPerHour < getTime (evt_date first) ->
  process gs = Returned false (withDate gs (date gs + 24 * msPerHour)).
Proof.
  intros Hq Hnot. unfold process. rewrite processTicks_eq. simpl.
  rewrite Hq.
  assert (0 < msPerHour) by (unfold msPerHour; lia).
  destruct (Z.geb_spec (getTime (date gs)) (getTime (evt_date first)));
    [unfold getTime in *; lia|].
  unfold NEXT_HOURS. rewrite !setHours_plus.
  destruct (Z.geb_spec (getTime (date gs + 12 * msPerHour))
                       (getTime (evt_date first)));
    [unfold getTime in *; lia|].
  simpl. unfold withDate. simpl. do 2 f_equal. lia.
Qed.

(** C3. One call of process: with an empty queue it returns true and
    dispatches nothing.  Otherwise it tests the earliest event against the
    current date before each of at most two steps of twelve hours; at the
    first test that finds it due that event alone leaves the queue and the
    call is the call of its handler, whose signal it returns; when neither
    test finds it due the date has moved on by the two steps, nothing else
    has changed, and the call returns false. *)
Theorem process_case_analysis gs :
  (eventQueue gs = [] -> process gs = Returned true gs) /\
  (forall first rest,
     eventQueue gs = first :: rest ->
     (getTime (evt_date first) <= getTime (date gs) ->
      process gs = handleGameEvent first (withEventQueue gs rest)) /\
     (getTime (date gs) < getTime (evt_date first) ->
      getTime (evt_date first) <= getTime (date gs) + 12 * msPerHour ->
      process gs =
      handleGameEvent first
        (withEventQueue (withDate gs (date gs + 12 * msPerHour)) rest)) /\
     (getTime (date gs) + 12 * msPerHour < getTime (evt_date first) ->
      process gs = Returned false (withDate gs (date gs + 24 * msPerHour)))).
Proof.
  split; [apply process_empty|].
  intros first rest Hq. split; [|split].
  - now apply process_due_now.
  - now apply process_due_after_one_step.
  - intros Hlate. now apply (@process_nothing_due gs first rest).
Qed.

(** C9. On a game state whose event queue is empty process returns true
    and leaves the state as it was: the date and every other field. *)
Theorem process_empty_queue_no_change gs :
  eventQueue gs = [] -> process gs = Returned true gs.
Proof. apply process_empty. Qed.

End ClockFacts.

(** ** String-keyed objects *)

Section ObjFacts.

Context {V : Type}.

Implicit Types (o : Obj.t V) (k : string) (v : V).

Lemma Obj_get_set_eq k v o : Obj.get k (Obj.set k v o) = Some v.
Proof.
  induction o as [|[k' v'] o IH]; simpl.
  - now rewrite String.eqb_refl.
  - destruct (String.eqb_spec k k') as [->|Hne]; simpl.
    + now rewrite String.eqb_refl.
    + destruct (String.eqb_spec k k'); [contradiction | exact IH].
Qed.

Lemma Obj_get_set_neq k k' v o :
  k <> k' -> Obj.get k' (Obj.set k v o) = Obj.get k' o.
Proof.
  intros Hne. induction o as [|[k0 v0] o IH]; simpl.
  - destruct (String.eqb_spec k' k); [congruence | reflexivity].
  - destruct (String.eqb_spec k k0) as [->|Hk]; simpl.
    + destruct (String.eqb_spec k' k0); [congruence | reflexivity].
    + destruct (String.eqb_spec k' k0); [reflexivity | exact IH].
Qed.

Lemma Obj_set_set k v v' o : Obj.set k v' (Obj.set k v o) = Obj.set k v' o.
Proof.
  induction o as [|[k0 v0] o IH]; simpl.
  - now rewrite String.eqb_refl.
  - destruct (String.eqb_spec k k0) as [->|Hk]; simpl.
    + now rewrite String.eqb_refl.
    + destruct (String.eqb_spec k k0); [contradiction|]. now rewrite IH.
Qed.

Lemma Obj_set_same k v o : Obj.get k o = Some v -> Obj.set k v o = o.
Proof.
  induction o as [|[k0 v0] o IH]; simpl; [discriminate|].
  destruct (String.eqb_spec k k0) as [->|Hk].
  - now intros [= ->].
  - intros Hget. now rewrite IH.
Qed.

Lemma Obj_keys_set_present k v v0 o :
  Obj.get k o = Some v0 -> Obj.keys (Obj.set k v o) = Obj.keys o.
Proof.
  unfold Obj.keys.
  induction o as [|[k0 v1] o IH]; simpl; [discriminate|].
  destruct (String.eqb_spec k k0) as [->|Hk]; simpl.
  - reflexivity.
  - intros Hget. now rewrite IH.
Qed.

Lemma Obj_get_delete_eq k o : Obj.get k (Obj.delete k o) = None.
Proof.
  induction o as [|[k0 v0] o IH]; simpl; [reflexivity|].
  destruct (String.eqb_spec k k0) as [->|Hk]; simpl; [exact IH|].
  destruct (String.eqb_spec k k0); [contradiction | exact IH].
Qed.

Lemma Obj_get_delete_neq k k' o :
  k <> k' -> Obj.get k' (Obj.delete k o) = Obj.get k' o.
Proof.
  intros Hne. induction o as [|[k0 v0] o IH]; simpl; [reflexivity|].
  destruct (String.eqb_spec k k0) as [->|Hk]; simpl.
  - destruct (String.eqb_spec k' k0); [congruence | exact IH].
  - destruct (String.eqb_spec k' k0); [reflexivity | exact IH].
Qed.

Lemma Obj_get_mapValues (f : V -> V) k o :
  Obj.get k (Obj.mapValues f o) = option_map f (Obj.get k o).
Proof.
  induction o as [|[k0 v0] o IH]; simpl; [reflexivity|].
  destruct (String.eqb_spec k k0); [reflexivity | exact IH].
Qed.

Lemma Obj_keys_mapValues (f : V -> V) o :
  Obj.keys (Obj.mapValues f o) = Obj.keys o.
Proof.
  unfold Obj.keys, Obj.mapValues. rewrite map_map. reflexivity.
Qed.

Lemma Obj_get_In k v o : Obj.get k o = Some v -> In (k, v) o.
Proof.
  induction o as [|[k0 v0] o IH]; simpl; [discriminate|].
  destruct (String.eqb_spec k k0) as [->|Hk].
  - intros [= ->]. now left.
  - intros Hget. right. now apply IH.
Qed.

Lemma Obj_In_get k v o : Obj.wf o -> In (k, v) o -> Obj.get k o = Some v.
Proof.
  unfold Obj.wf, Obj.keys.
  induction o as [|[k0 v0] o IH]; simpl; [contradiction|].
  intros Hnd [[= -> ->]|Hin].
  - now rewrite String.eqb_refl.
  - inversion Hnd as [|? ? Hk0 Hnd']; subst.
    destruct (String.eqb_spec k k0) as [->|Hk]; [|now apply IH].
    exfalso. apply Hk0. apply in_map_iff. now exists (k0, v).
Qed.

End ObjFacts.


(** ** The calendar, both ways *)

Section CalendarFacts.

Import JsDate.
Local Open Scope Z_scope.

(** The civil date of a day number is a date of the calendar, and it is
    the date of that day number. *)
Lemma days_from_civil_of_civil_from_days z y m d :
  civil_from_days z = (y, m, d) ->
  1 <= m <= 12 /\ 1 <= d <= 31 /\ days_from_civil y m d = z.
Proof.
  rewrite civil_from_days_unfold, days_from_civil_unfold.
  unfold civil_from_days_def, days_from_civil_def. cbv zeta.
  set (z' := z + 719468).
  set (era := z' / 146097).
  set (doe := z' - era * 146097).
  set (yoe := (doe - doe / 1460 + doe / 36524 - doe / 146096) / 365).
  set (doy := doe - (365 * yoe + yoe / 4 - yoe / 100)).
  set (mp := (5 * doy + 2) / 153).
  assert (Hdoe : 0 <= doe < 146097) by (subst doe era; lia).
  assert (Hyoe : 0 <= yoe < 400 /\ 0 <= doy <= 365)
    by (subst doy yoe; lia).
  assert (Hmp : 0 <= mp <= 11) by (subst mp; lia).
  destruct (Z.ltb_spec mp 10) as [Hlt|Hge].
  - destruct (Z.leb_spec (mp + 3) 2); [lia|].
    intros Hc. pose proof (f_equal (fun p => fst (fst p)) Hc) as Hy.
    pose proof (f_equal (fun p => snd (fst p)) Hc) as Hm.
    pose proof (f_equal snd Hc) as Hd.
    cbn [fst snd] in Hy, Hm, Hd. subst y m d. clear Hc.
    destruct (Z.leb_spec (mp + 3) 2); [lia|].
    destruct (Z.ltb_spec 2 (mp + 3)); [|lia].
    replace (mp + 3 - 3) with mp by lia.
    replace ((yoe + era * 400 + 0) / 400) with era by lia.
    split; [lia|]. split; [subst mp; lia|]. subst doy doe z'. lia.
  - destruct (Z.leb_spec (mp - 9) 2); [|lia].
    intros Hc. pose proof (f_equal (fun p => fst (fst p)) Hc) as Hy.
    pose proof (f_equal (fun p => snd (fst p)) Hc) as Hm.
    pose proof (f_equal snd Hc) as Hd.
    cbn [fst snd] in Hy, Hm, Hd. subst y m d. clear Hc.
    destruct (Z.leb_spec (mp - 9) 2); [|lia].
    destruct (Z.ltb_spec 2 (mp - 9)); [lia|].
    replace (mp - 9 + 9) with mp by lia.
    replace ((yoe + era * 400 + 1 - 1) / 400) with era by lia.
    split; [lia|]. split; [subst mp; lia|]. subst doy doe z'. lia.
Qed.

(** The first day of the month after the one a day is in comes after
    that day. *)
Lemma next_month_is_later z y m d :
  civil_from_days z = (y, m, d) ->
  z < days_from_civil (y + m / 12) (m mod 12 + 1) 1 <= z + 31.
Proof.
  rewrite civil_from_days_unfold, days_from_civil_unfold.
  unfold civil_from_days_def, days_from_civil_def. cbv zeta.
  set (z' := z + 719468).
  set (era := z' / 146097).
  set (doe := z' - era * 146097).
  set (yoe := (doe - doe / 1460 + doe / 36524 - doe / 146096) / 365).
  set (doy := doe - (365 * yoe + yoe / 4 - yoe / 100)).
  set (mp := (5 * doy + 2) / 153).
  assert (Hdoe : 0 <= doe < 146097) by (subst doe era; lia).
  assert (Hyoe : 0 <= yoe < 400 /\ 0 <= doy <= 365)
    by (subst doy yoe; lia).
  assert (Hleap : doy = 365 ->
                  yoe mod 4 = 3 /\ (yoe mod 100 <> 99 \/ yoe = 399))
    by (subst doy yoe; lia).
  assert (Hmp : 0 <= mp <= 11 /\ (153 * mp + 2) / 5 <= doy
                /\ doy < (153 * (mp + 1) + 2) / 5) by (subst mp; lia).
  assert (Hz : z = era * 146097 + (yoe * 365 + yoe / 4 - yoe / 100 + doy)
                   - 719468) by (subst doy doe z'; lia).
  clearbody mp doy yoe. clear Hdoe. clearbody era. clear doe z'.
  intros Hc. pose proof (f_equal (fun p => fst (fst p)) Hc) as Hy.
  pose proof (f_equal (fun p => snd (fst p)) Hc) as Hm.
  cbn [fst snd] in Hy, Hm. clear Hc. subst y m z.
  destruct (Z.ltb_spec mp 10) as [Hlt|Hge].
  - destruct (Z.leb_spec (mp + 3) 2); [lia|].
    destruct (Z.eq_dec mp 9) as [->|Hne].
    + change ((9 + 3) / 12) with 1. change ((9 + 3) mod 12 + 1) with 1.
      change (1 <=? 2) with true. change (2 <? 1) with false. cbv iota.
      replace (yoe + era * 400 + 0 + 1 - 1) with (yoe + era * 400) by lia.
      replace ((yoe + era * 400) / 400) with era by lia.
      lia.
    + replace ((mp + 3) / 12) with 0 by lia.
      replace ((mp + 3) mod 12 + 1) with (mp + 4) by lia.
      destruct (Z.leb_spec (mp + 4) 2); [lia|].
      destruct (Z.ltb_spec 2 (mp + 4)); [|lia].
      replace (yoe + era * 400 + 0 + 0) with (yoe + era * 400) by lia.
      replace ((yoe + era * 400) / 400) with era by lia.
      replace (mp + 4 - 3) with (mp + 1) by lia.
      lia.
  - destruct (Z.leb_spec (mp - 9) 2); [|lia].
    replace ((mp - 9) / 12) with 0 by lia.
    replace ((mp - 9) mod 12 + 1) with (mp - 8) by lia.
    destruct (Z.eq_dec mp 10) as [->|Hne].
    + change (10 - 8 <=? 2) with true. change (2 <? 10 - 8) with false.
      cbv iota.
      replace (yoe + era * 400 + 1 + 0 - 1) with (yoe + era * 400) by lia.
      replace ((yoe + era * 400) / 400) with era by lia.
      lia.
    + assert (mp = 11) as -> by lia.
      change (11 - 8 <=? 2) with false. change (2 <? 11 - 8) with true.
      cbv iota.
      destruct (Z.eq_dec yoe 399) as [->|Hyoe399].
      * replace ((399 + era * 400 + 1 + 0) / 400) with (era + 1) by lia.
        lia.
      * replace ((yoe + era * 400 + 1 + 0) / 400) with era by lia.
        lia.
Qed.

Lemma days_from_civil_year_mono y1 y2 m d :
  y1 <= y2 -> days_from_civil y1 m d <= days_from_civil y2 m d.
Proof.
  intros Hy. rewrite !days_from_civil_unfold.
  unfold days_from_civil_def. cbv zeta.
  destruct (m <=? 2); lia.
Qed.

(** June 1 of the year after the one a day is in comes after that day. *)
Lemma next_june_is_later z y m d :
  civil_from_days z = (y, m, d) -> z < days_from_civil (y + 1) 6 1.
Proof.
  intros Hc.
  destruct (days_from_civil_of_civil_from_days z Hc) as (Hm & Hd & <-).
  rewrite !days_from_civil_unfold. unfold days_from_civil_def. cbv zeta.
  change (6 <=? 2) with false. change (2 <? 6) with true. cbv iota.
  destruct (Z.leb_spec m 2); destruct (Z.ltb_spec 2 m); try lia.
Qed.

Lemma triple_eq (a b c a' b' c' : Z) :
  a = a' -> b = b' -> c = c' -> (a, b, c) = (a', b', c').
Proof. now intros -> -> ->. Qed.

(** The civil date of the first day of a month. *)
Lemma civil_of_month_start y m :
  1 <= m <= 12 -> civil_from_days (days_from_civil y m 1) = (y, m, 1).
Proof.
  intros Hm.
  set (y' := if m <=? 2 then y - 1 else y).
  set (mp := if 2 <? m then m - 3 else m + 9).
  assert (Hmp : 0 <= mp <= 11)
    by (subst mp; destruct (Z.ltb_spec 2 m); lia).
  rewrite (@civil_from_days_eq _ (y' / 400) (y' - y' / 400 * 400)
             ((153 * mp + 2) / 5)).
  - assert (E : (5 * ((153 * mp + 2) / 5) + 2) / 153 = mp) by lia.
    rewrite E.
    replace ((153 * mp + 2) / 5 - (153 * mp + 2) / 5 + 1) with 1 by lia.
    subst mp y'.
    destruct (Z.ltb_spec 2 m); destruct (Z.leb_spec m 2); try lia.
    + destruct (Z.ltb_spec (m - 3) 10); [|lia].
      replace (m - 3 + 3) with m by lia.
      destruct (Z.leb_spec m 2); [lia|].
      apply triple_eq; lia.
    + destruct (Z.ltb_spec (m + 9) 10); [lia|].
      replace (m + 9 - 9) with m by lia.
      destruct (Z.leb_spec m 2); [|lia].
      apply triple_eq; lia.
  - lia.
  - lia.
  - rewrite days_from_civil_unfold. unfold days_from_civil_def. cbv zeta.
    fold y' mp. lia.
Qed.

Lemma civil_of_date (d : Date) :
  exists y m dd,
    civil_from_days (Day d) = (y, m, dd) /\
    getFullYear d = y /\ getMonth d = m - 1 /\ getDate d = dd.
Proof.
  unfold getFullYear, getMonth, getDate.
  destruct (civil_from_days (Day d)) as [[y m] dd].
  now exists y, m, dd.
Qed.

Lemma Day_bounds (d : Date) :
  Day d * msPerDay <= d < (Day d + 1) * msPerDay.
Proof. unfold Day, msPerDay, msPerHour. lia. Qed.

Lemma Day_of_midnight z : Day (z * msPerDay) = z.
Proof. unfold Day, msPerDay, msPerHour. lia. Qed.

Lemma TimeWithinDay_of_midnight z : TimeWithinDay (z * msPerDay) = 0.
Proof. unfold TimeWithinDay, msPerDay, msPerHour. lia. Qed.

(** The year the constructor takes a year argument for. *)
Lemma newDate_first y month :
  exists yr,
    newDate y month 1
      = days_from_civil (yr + month / 12) (month mod 12 + 1) 1 * msPerDay /\
    y <= yr /\ (y < 0 \/ 99 < y -> yr = y).
Proof.
  unfold newDate, MakeDay.
  destruct (Z.leb_spec 0 y); destruct (Z.leb_spec y 99); cbn [andb].
  - exists (1900 + y). split; [f_equal; lia|lia].
  - exists y. split; [f_equal; lia|lia].
  - exists y. split; [f_equal; lia|lia].
  - exists y. split; [f_equal; lia|lia].
Qed.


End CalendarFacts.

(** ** Saving a schedule and starting a season *)

Section SeasonStartFacts.

Import JsDate Simulation.
Local Open Scope Z_scope.

Context {Player Team : Type} {env : Collaborators Player Team}.

Implicit Types (gs s : GameState Player Team).

(** The match table after the matches [ms] were saved one by one. *)
Lemma forEach_saveMatch ms : forall s,
  forEach ms (@saveMatch Player Team) s =
  Returned tt
    (withMatches s
       (fold_left (fun tbl m => Obj.set (TournamentScheduler.id m) m tbl)
                  ms (matches s))).
Proof.
  induction ms as [|m ms IH]; intros s; simpl.
  - unfold ret. now destruct s.
  - unfold bind, saveMatch at 1, modify. rewrite IH. reflexivity.
Qed.

Lemma saveSchedule_rounds key rounds : forall s acc,
  Obj.get key (schedules s) = Some acc ->
  forEach rounds
    (fun round =>
       bind (pushScheduleRound key (toScheduleRound round))
            (fun _ =>
               forEach (TournamentScheduler.matches round)
                       (@saveMatch Player Team))) s =
  Returned tt
    (withMatches
       (withSchedules s
          (Obj.set key (acc ++ map toScheduleRound rounds) (schedules s)))
       (fold_left (fun tbl m => Obj.set (TournamentScheduler.id m) m tbl)
                  (flat_map TournamentScheduler.matches rounds)
                  (matches s))).
Proof.
  induction rounds as [|r rounds IH]; intros s acc Hacc.
  - simpl. rewrite app_nil_r, (Obj_set_same _ _ Hacc).
    unfold ret. now destruct s.
  - cbn [forEach]. unfold bind at 1. unfold bind at 1.
    unfold pushScheduleRound at 1. rewrite Hacc.
    rewrite forEach_saveMatch.
    erewrite IH by (cbn; apply Obj_get_set_eq).
    cbn. unfold push.
    rewrite Obj_set_set, fold_left_app, <- app_assoc. reflexivity.
Qed.

(** [saveSchedule] never throws: it stores the rounds under the key, in
    order, and every match under its identifier. *)
Lemma saveSchedule_returns schd key s :
  saveSchedule schd key s =
  Returned tt
    (withMatches
       (withSchedules s
          (Obj.set key (map toScheduleRound (TournamentScheduler.rounds schd))
                   (schedules s)))
       (fold_left (fun tbl m => Obj.set (TournamentScheduler.id m) m tbl)
                  (TournamentScheduler.allMatches schd)
                  (matches s))).
Proof.
  unfold saveSchedule, bind at 1, modify.
  erewrite saveSchedule_rounds by (cbn; apply Obj_get_set_eq).
  cbn. rewrite Obj_set_set. reflexivity.
Qed.


Lemma enqueueSimRoundEvent_eq r s :
  enqueueSimRoundEvent r s =
  Returned tt
    match currentRound s r with
    | None => s
    | Some rd =>
        withEventQueue s
          (enqueue (eventQueue s)
             {| evt_date := sr_date rd; evt_type := simRound;
                detail := Some {| round := r |} |})
    end.
Proof.
  unfold enqueueSimRoundEvent, bind, gets.
  destruct (currentRound s r); reflexivity.
Qed.

Lemma enqueueSeasonEndEvent_eq s :
  enqueueSeasonEndEvent s =
  Returned tt
    (withEventQueue s
       (enqueue (eventQueue s)
          {| evt_date :=
               newDate (getFullYear (date s) + 1)
                       SEASON_END_MONTH SEASON_END_DATE;
             evt_type := seasonEnd; detail := None |})).
Proof. reflexivity. Qed.


Lemma newSeasonSchedule_unfold teams gs :
  newSeasonSchedule teams gs =
  if getTime (newDate (getFullYear (date gs)) 8 2) <=? getTime (date gs)
  then Thrown (Error "should be called before september second")
  else
    saveSchedule
      (TournamentScheduler.newSchedule teams
         (setDate (newDate (getFullYear (date gs)) 8 2)
            (getDate (newDate (getFullYear (date gs)) 8 2)
             + Z.rem (7 - getDay (newDate (getFullYear (date gs)) 8 2)) 7)))
      "now" gs.
Proof.
  unfold newSeasonSchedule, bind, gets.
  change (SEASON_START_DATE + 1) with 2. unfold SEASON_START_MONTH.
  destruct (getTime (newDate (getFullYear (date gs)) 8 2)
            <=? getTime (date gs)); reflexivity.
Qed.



Lemma newSeasonSchedule_in_time teams gs :
  getTime (date gs) < getTime (newDate (getFullYear (date gs)) 8 2) ->
  newSeasonSchedule teams gs =
  saveSchedule
    (TournamentScheduler.newSchedule teams
       (newDate (getFullYear (date gs)) 8 2
        + Z.rem (7 - getDay (newDate (getFullYear (date gs)) 8 2)) 7
          * msPerDay))
    "now" gs.
Proof.
  intros Hearly. rewrite newSeasonSchedule_unfold.
  apply Z.leb_gt in Hearly. rewrite Hearly. cbv iota.
  rewrite setDate_plus. reflexivity.
Qed.


End SeasonStartFacts.

(** ** Simulating a round *)

Section SimRoundFacts.

Import JsDate Simulation.
Local Open Scope Z_scope.

Context {Player Team : Type} {env : Collaborators Player Team}.

Implicit Types (gs s : GameState Player Team).

(** The goals the random source gives at its [n]-th call. *)
Lemma goals_range n : 0 <= Z.of_nat (randomUnit n mod 6) < 6.
Proof. lia. Qed.

Lemma simulateMatch_absent matchId s :
  Obj.get matchId (matches s) = None ->
  simulateMatch matchId s = Thrown TypeError.
Proof.
  intros Hget. unfold simulateMatch, bind, gets, goals. cbn.
  now rewrite Hget.
Qed.

Lemma simulateMatch_present matchId s mt :
  Obj.get matchId (matches s) = Some mt ->
  simulateMatch matchId s =
  Returned tt
    (withMatches
       (withRandomCalls s (S (S (randomCalls s))))
       (Obj.set matchId
          {| TournamentScheduler.id := TournamentScheduler.id mt;
             TournamentScheduler.home := TournamentScheduler.home mt;
             TournamentScheduler.away := TournamentScheduler.away mt;
             TournamentScheduler.result :=
               Some (Z.of_nat (randomUnit (randomCalls s) mod 6),
                     Z.of_nat (randomUnit (S (randomCalls s)) mod 6)) |}
          (matches s))).
Proof.
  intros Hget. unfold simulateMatch, bind, gets, goals. cbn.
  now rewrite Hget.
Qed.

Lemma withMatches_withRandomCalls s n tbl n' tbl' :
  withMatches (withRandomCalls (withMatches (withRandomCalls s n) tbl) n') tbl'
  = withMatches (withRandomCalls s n') tbl'.
Proof. reflexivity. Qed.

(** Simulating the matches [ids], all of them in the match table: the call
    returns; only the match table and the count of random numbers have
    changed; the matches [ids] carry a result and no other entry of the
    table has changed. *)
Lemma forEach_simulateMatch ids : forall s,
  (forall id, In id ids -> exists m, Obj.get id (matches s) = Some m) ->
  exists tbl n,
    forEach ids (@simulateMatch Player Team env) s
      = Returned tt (withMatches (withRandomCalls s n) tbl) /\
    Obj.keys tbl = Obj.keys (matches s) /\
    resultsWritten ids tbl /\
    (forall id, ~ In id ids -> Obj.get id tbl = Obj.get id (matches s)).
Proof.
  induction ids as [|id ids IH]; intros s Hall.
  - exists (matches s), (randomCalls s). simpl. unfold ret.
    repeat split; auto.
    + now destruct s.
    + intros id [].
  - destruct (Hall id (or_introl eq_refl)) as [mt Hmt].
    cbn [forEach]. unfold bind at 1.
    rewrite (simulateMatch_present _ _ Hmt).
    set (mt' := {| TournamentScheduler.id := _ |}).
    set (s1 := withMatches _ _).
    assert (Hall1 : forall id', In id' ids ->
                      exists m, Obj.get id' (matches s1) = Some m).
    { intros id' Hin. unfold s1. cbn.
      destruct (string_dec id id') as [<-|Hne].
      - rewrite Obj_get_set_eq. eauto.
      - rewrite Obj_get_set_neq by assumption. apply Hall. now right. }
    destruct (IH s1 Hall1) as (tbl & n & Hrun & Hkeys & Hres & Hframe).
    exists tbl, n. rewrite Hrun. unfold s1 at 1.
    rewrite withMatches_withRandomCalls.
    split; [reflexivity|]. split; [|split].
    + rewrite Hkeys. unfold s1. cbn.
      eapply Obj_keys_set_present; eauto.
    + intros id' [<-|Hin]; [|now apply Hres].
      destruct (in_dec string_dec id ids) as [Hin|Hnotin];
        [now apply Hres|].
      exists mt', (Z.of_nat (randomUnit (randomCalls s) mod 6)),
             (Z.of_nat (randomUnit (S (randomCalls s)) mod 6)).
      rewrite (Hframe id Hnotin). unfold s1. cbn.
      rewrite Obj_get_set_eq.
      repeat split; auto; apply goals_range.
    + intros id' Hnotin. rewrite Hframe by (intros Hin; apply Hnotin; now right).
      unfold s1. cbn. apply Obj_get_set_neq.
      intros ->. apply Hnotin. now left.
Qed.

Lemma currentRound_absent s r :
  Obj.get "now" (schedules s) = None -> currentRound s r = None.
Proof. intros H. unfold currentRound. now rewrite H. Qed.

(** Past the end of the schedule every later round is missing too. *)
Lemma currentRound_none_next s r :
  0 <= r -> currentRound s r = None -> currentRound s (r + 1) = None.
Proof.
  unfold currentRound. destruct (Obj.get "now" (schedules s)) as [now|];
    [|reflexivity].
  unfold arrayAt. intros Hr.
  destruct (Z.ltb_spec r 0); [lia|].
  destruct (Z.ltb_spec (r + 1) 0); [lia|].
  rewrite !nth_error_None. lia.
Qed.

Lemma simulateRound_absent s r :
  currentRound s r = None -> simulateRound r s = Returned tt s.
Proof.
  intros H. unfold simulateRound, bind, gets. now rewrite H.
Qed.

Lemma handleSimRound_round_missing gs r :
  currentRound gs r = None ->
  handleSimRound {| round := r |} gs =
  Returned false
    match currentRound gs (r + 1) with
    | None => gs
    | Some next =>
        withEventQueue gs
          (enqueue (eventQueue gs)
             {| evt_date := sr_date next; evt_type := simRound;
                detail := Some {| round := r + 1 |} |})
    end.
Proof.
  intros Hnone. unfold handleSimRound. cbn [round].
  unfold bind at 1. rewrite (simulateRound_absent _ _ Hnone).
  unfold bind at 1. rewrite enqueueSimRoundEvent_eq. reflexivity.
Qed.

Lemma handleSimRound_round_present gs r rd :
  currentRound gs r = Some rd ->
  (forall id, In id (matchIds rd) ->
     exists m, Obj.get id (matches gs) = Some m) ->
  exists tbl n,
    handleSimRound {| round := r |} gs =
    Returned false
      (withEventQueue (withMatches (withRandomCalls gs n) tbl)
         match currentRound gs (r + 1) with
         | None => eventQueue gs
         | Some next =>
             enqueue (eventQueue gs)
               {| evt_date := sr_date next; evt_type := simRound;
                  detail := Some {| round := r + 1 |} |}
         end) /\
    Obj.keys tbl = Obj.keys (matches gs) /\
    resultsWritten (matchIds rd) tbl /\
    (forall id, ~ In id (matchIds rd) ->
       Obj.get id tbl = Obj.get id (matches gs)).
Proof.
  intros Hrd Hall.
  destruct (forEach_simulateMatch (matchIds rd) gs Hall)
    as (tbl & n & Hrun & Hkeys & Hres & Hframe).
  exists tbl, n. split; [|auto].
  unfold handleSimRound. cbn [round].
  unfold bind at 1. unfold simulateRound, bind at 1, gets.
  rewrite Hrd, Hrun.
  unfold bind at 1. rewrite enqueueSimRoundEvent_eq.
  change (currentRound (withMatches (withRandomCalls gs n) tbl) (r + 1))
    with (currentRound gs (r + 1)).
  destruct (currentRound gs (r + 1)); [reflexivity|].
  unfold ret. now destruct gs.
Qed.

(** C7, amended. Handling a simRound event for round r: when the current
    season schedule is absent, or lacks round r and round r+1 (as it does
    whenever it lacks round r and r is not negative), no match is
    simulated, nothing is enqueued, and the call returns false with the
    state as it was; when round r is missing and round r+1 exists, no match
    is simulated and simRound(r+1) is enqueued; when round r exists and the
    match table holds all its matches, the call returns false, its matches
    carry a result, the rest of the match table is as before, and
    simRound(r+1), dated as round r+1, is enqueued if and only if round r+1
    exists. *)
Theorem handleSimRound_skips_or_simulates gs r :
  (Obj.get "now" (schedules gs) = None ->
   handleSimRound {| round := r |} gs = Returned false gs) /\
  (currentRound gs r = None -> currentRound gs (r + 1) = None ->
   handleSimRound {| round := r |} gs = Returned false gs) /\
  (0 <= r -> currentRound gs r = None ->
   handleSimRound {| round := r |} gs = Returned false gs) /\
  (forall next,
     currentRound gs r = None -> currentRound gs (r + 1) = Some next ->
     handleSimRound {| round := r |} gs =
     Returned false
       (withEventQueue gs
          (enqueue (eventQueue gs)
             {| evt_date := sr_date next; evt_type := simRound;
                detail := Some {| round := r + 1 |} |}))) /\
  (forall rd,
     currentRound gs r = Some rd ->
     (forall id, In id (matchIds rd) ->
        exists m, Obj.get id (matches gs) = Some m) ->
     exists tbl n,
       handleSimRound {| round := r |} gs =
       Returned false
         (withEventQueue (withMatches (withRandomCalls gs n) tbl)
            match currentRound gs (r + 1) with
            | None => eventQueue gs
            | Some next =>
                enqueue (eventQueue gs)
                  {| evt_date := sr_date next; evt_type := simRound;
                     detail := Some {| round := r + 1 |} |}
            end) /\
       Obj.keys tbl = Obj.keys (matches gs) /\
       resultsWritten (matchIds rd) tbl /\
       (forall id, ~ In id (matchIds rd) ->
          Obj.get id tbl = Obj.get id (matches gs))).
Proof.
  assert (Hboth : currentRound gs r = None ->
                  currentRound gs (r + 1) = None ->
                  handleSimRound {| round := r |} gs = Returned false gs).
  { intros H1 H2. rewrite (handleSimRound_round_missing _ _ H1).
    now rewrite H2. }
  split; [|split; [|split; [|split]]].
  - intros Habsent. apply Hboth; now apply currentRound_absent.
  - exact Hboth.
  - intros Hr Hnone. apply Hboth; [exact Hnone|].
    now apply currentRound_none_next.
  - intros next H1 H2. rewrite (handleSimRound_round_missing _ _ H1).
    now rewrite H2.
  - intros rd. apply handleSimRound_round_present.
Qed.

End SimRoundFacts.

(** ** Ending a season *)

Section SeasonEndFacts.

Import JsDate Simulation.
Local Open Scope Z_scope.

Context {Player Team : Type} {env : Collaborators Player Team}.

Implicit Types (gs s : GameState Player Team).


Lemma storeEndedSeasonSchedule_no_round s :
  Obj.get "now" (schedules s) = Some [] ->
  storeEndedSeasonSchedule s = Thrown TypeError.
Proof.
  intros Hnow. unfold storeEndedSeasonSchedule, bind, gets.
  rewrite Hnow. reflexivity.
Qed.


End SeasonEndFacts.

(** ** Contracts *)

Section ContractFacts.

Import JsDate Simulation.
Local Open Scope Z_scope.

Context {Player Team : Type} {env : Collaborators Player Team}.

Implicit Types (gs s : GameState Player Team) (cs : list Contract).

Lemma forEach_unsign cs : forall s,
  forEach cs
    (fun c => if duration c =? 0
              then modify (fun s => Team_unsignPlayer s c)
              else ret tt) s =
  Returned tt
    (fold_left Team_unsignPlayer
               (filter (fun c => duration c =? 0) cs) s).
Proof.
  induction cs as [|c cs IH]; intros s; simpl; [reflexivity|].
  unfold bind at 1.
  destruct (duration c =? 0); simpl; unfold modify, ret; apply IH.
Qed.

(** [removeExpiredContracts] unsigns the contracts whose duration is 0,
    and no other. *)
Lemma removeExpiredContracts_eq s :
  removeExpiredContracts s =
  Returned tt
    (fold_left Team_unsignPlayer
               (filter (fun c => duration c =? 0)
                       (Obj.values (contracts s))) s).
Proof.
  unfold removeExpiredContracts, bind at 1, gets. apply forEach_unsign.
Qed.

Lemma forEach_renew ts : forall s,
  forEach ts
    (fun team => modify (fun s => Team_renewExipiringContracts s team)) s =
  Returned tt (fold_left Team_renewExipiringContracts ts s).
Proof.
  induction ts as [|t ts IH]; intros s; simpl; [reflexivity|].
  unfold bind at 1, modify. apply IH.
Qed.

Lemma handleUpdateContracts_eq s :
  handleUpdateContracts s =
  Returned false
    (let s1 := withContracts s (Obj.mapValues decremented (contracts s)) in
     let s2 :=
       fold_left Team_renewExipiringContracts (Obj.keys (teams s1)) s1 in
     fold_left Team_unsignPlayer
               (filter (fun c => duration c =? 0)
                       (Obj.values (contracts s2))) s2).
Proof.
  unfold handleUpdateContracts, bind at 1, updateContracts, modify.
  unfold bind at 1, renewExipiringContracts, bind at 1, gets.
  rewrite forEach_renew.
  unfold bind at 1. rewrite removeExpiredContracts_eq. reflexivity.
Qed.

(** *** The contract table *)

Lemma contractsKeyed_delete k (o : Obj.t Contract) :
  contractsKeyed o -> contractsKeyed (Obj.delete k o).
Proof.
  unfold contractsKeyed, Obj.wf, Obj.keys. intros [Hnd Hkey].
  assert (Hsub : forall x, In x (Obj.delete k o) -> In x o).
  { induction o as [|[k0 v0] o IH]; simpl; [auto|].
    inversion Hnd; subst.
    destruct (String.eqb k k0); simpl; intros x Hx.
    - right. apply IH; auto. intros k' c Hin. apply Hkey. now right.
    - destruct Hx as [<-|Hx]; [now left|]. right.
      apply IH; auto. intros k' c Hin. apply Hkey. now right. }
  split; [|intros k' c Hin; apply Hkey; now apply Hsub].
  clear Hkey Hsub.
  induction o as [|[k0 v0] o IH]; simpl; [constructor|].
  inversion Hnd as [|? ? Hk0 Hnd']; subst.
  destruct (String.eqb k k0); simpl; [now apply IH|].
  constructor; [|now apply IH].
  intros Hin. apply Hk0. clear -Hin.
  induction o as [|[k1 v1] o IH]; simpl in *; [contradiction|].
  destruct (String.eqb k k1); simpl in *; [right; now apply IH|].
  destruct Hin as [<-|Hin]; [now left | right; now apply IH].
Qed.

Lemma contractsKeyed_decremented (o : Obj.t Contract) :
  contractsKeyed o -> contractsKeyed (Obj.mapValues decremented o).
Proof.
  unfold contractsKeyed, Obj.wf. intros [Hnd Hkey].
  rewrite Obj_keys_mapValues. split; [exact Hnd|].
  intros k c Hin. unfold Obj.mapValues in Hin. apply in_map_iff in Hin.
  destruct Hin as ([k0 c0] & [= <- <-] & Hin). simpl.
  now apply Hkey.
Qed.

Lemma get_fold_delete_other k cs : forall (o : Obj.t Contract),
  (forall c, In c cs -> playerId c <> k) ->
  Obj.get k (fold_left (fun o c => Obj.delete (playerId c) o) cs o)
  = Obj.get k o.
Proof.
  induction cs as [|c cs IH]; intros o Hne; simpl; [reflexivity|].
  rewrite IH by (intros c' Hc'; apply Hne; now right).
  apply Obj_get_delete_neq. apply Hne. now left.
Qed.

Lemma get_fold_delete_none k cs : forall (o : Obj.t Contract),
  Obj.get k o = None ->
  Obj.get k (fold_left (fun o c => Obj.delete (playerId c) o) cs o) = None.
Proof.
  induction cs as [|c cs IH]; intros o Hnone; simpl; [exact Hnone|].
  apply IH. destruct (string_dec (playerId c) k) as [<-|Hne].
  - apply Obj_get_delete_eq.
  - now rewrite Obj_get_delete_neq.
Qed.

Lemma get_fold_delete_hit k cs : forall (o : Obj.t Contract),
  (exists c, In c cs /\ playerId c = k) ->
  Obj.get k (fold_left (fun o c => Obj.delete (playerId c) o) cs o) = None.
Proof.
  induction cs as [|c cs IH]; intros o (c0 & Hin & Hk); simpl;
    [contradiction|].
  destruct Hin as [->|Hin].
  - apply get_fold_delete_none. subst k. apply Obj_get_delete_eq.
  - apply IH. eauto.
Qed.

(** *** Teams that leave the other contracts alone *)

(** The three parts of [teamsKeepOtherContracts]: what is taken for granted
    of the team operations, which are not part of this program. *)
Section TeamsKeepOtherContracts.

Hypothesis unsign_deletes : forall s c,
  contracts (Team_unsignPlayer s c) = Obj.delete (playerId c) (contracts s).

Hypothesis renew_keeps_unexpired : forall s team k c,
  Obj.get k (contracts s) = Some c -> duration c <> 0 ->
  Obj.get k (contracts (Team_renewExipiringContracts s team)) = Some c.

Hypothesis renew_keeps_keyed : forall s team,
  contractsKeyed (contracts s) ->
  contractsKeyed (contracts (Team_renewExipiringContracts s team)).

Lemma contracts_fold_unsign cs : forall s,
  contracts (fold_left Team_unsignPlayer cs s) =
  fold_left (fun o c => Obj.delete (playerId c) o) cs (contracts s).
Proof.
  induction cs as [|c cs IH]; intros s; simpl; [reflexivity|].
  now rewrite IH, unsign_deletes.
Qed.

Lemma contractsKeyed_fold_unsign cs : forall s,
  contractsKeyed (contracts s) ->
  contractsKeyed (contracts (fold_left Team_unsignPlayer cs s)).
Proof.
  induction cs as [|c cs IH]; intros s Hk; simpl; [exact Hk|].
  apply IH. rewrite unsign_deletes. now apply contractsKeyed_delete.
Qed.

Lemma fold_renew_keeps ts : forall s,
  contractsKeyed (contracts s) ->
  contractsKeyed (contracts (fold_left Team_renewExipiringContracts ts s)) /\
  forall k c, Obj.get k (contracts s) = Some c -> duration c <> 0 ->
    Obj.get k (contracts (fold_left Team_renewExipiringContracts ts s))
    = Some c.
Proof.
  induction ts as [|t ts IH]; intros s Hk; simpl; [auto|].
  destruct (IH (Team_renewExipiringContracts s t)
               (renew_keeps_keyed s t Hk)) as [Hk' Hframe].
  split; [exact Hk'|]. intros k c Hget Hne.
  apply Hframe; auto.
Qed.

(** After [removeExpiredContracts] a contract is gone when its duration
    was 0 and in its place when it was not. *)
Lemma removeExpiredContracts_table s k c :
  contractsKeyed (contracts s) ->
  Obj.get k (contracts s) = Some c ->
  Obj.get k
    (contracts
       (fold_left Team_unsignPlayer
                  (filter (fun c => duration c =? 0)
                          (Obj.values (contracts s))) s))
  = if duration c =? 0 then None else Some c.
Proof.
  intros [Hwf Hkey] Hget. rewrite contracts_fold_unsign.
  pose proof (Obj_get_In _ _ Hget) as Hin.
  destruct (Z.eqb_spec (duration c) 0) as [Hz|Hnz].
  - apply get_fold_delete_hit. exists c. split; [|now apply Hkey].
    apply filter_In. split; [|now apply Z.eqb_eq].
    unfold Obj.values. apply in_map_iff. now exists (k, c).
  - rewrite get_fold_delete_other; [exact Hget|].
    intros c' Hc' Hsame. apply filter_In in Hc'. destruct Hc' as [Hc' Hz].
    unfold Obj.values in Hc'. apply in_map_iff in Hc'.
    destruct Hc' as ([k' c''] & Heq & Hin'). simpl in Heq. subst c''.
    pose proof (Hkey _ _ Hin') as Hk'. rewrite Hsame in Hk'. subst k'.
    pose proof (@Obj_In_get _ _ _ _ Hwf Hin') as Hget'.
    rewrite Hget in Hget'. injection Hget' as ->.
    apply Z.eqb_eq in Hz. contradiction.
Qed.

(** One updateContract event: a contract whose duration does not become 0
    is in its place afterwards, one season shorter. *)
Lemma handleUpdateContracts_keeps s k c :
  contractsKeyed (contracts s) ->
  Obj.get k (contracts s) = Some c -> duration c - 1 <> 0 ->
  exists s',
    handleUpdateContracts s = Returned false s' /\
    contractsKeyed (contracts s') /\
    Obj.get k (contracts s') = Some (decremented c).
Proof.
  intros Hk Hget Hne. rewrite handleUpdateContracts_eq. cbv zeta.
  set (s1 := withContracts s (Obj.mapValues decremented (contracts s))).
  assert (Hk1 : contractsKeyed (contracts s1))
    by (unfold s1; cbn; now apply contractsKeyed_decremented).
  assert (Hget1 : Obj.get k (contracts s1) = Some (decremented c))
    by (unfold s1; cbn; now rewrite Obj_get_mapValues, Hget).
  destruct (fold_renew_keeps (Obj.keys (teams s1)) s1 Hk1) as [Hk2 Hframe].
  specialize (Hframe k (decremented c) Hget1 Hne).
  set (s2 := fold_left Team_renewExipiringContracts _ s1) in *.
  eexists. split; [reflexivity|]. split.
  - now apply contractsKeyed_fold_unsign.
  - rewrite (@removeExpiredContracts_table s2 k (decremented c) Hk2 Hframe).
    destruct (Z.eqb_spec (duration (decremented c)) 0);
      [contradiction | reflexivity].
Qed.

Lemma handleUpdateContractsTimes_keeps n : forall s k c,
  contractsKeyed (contracts s) ->
  Obj.get k (contracts s) = Some c -> duration c < 0 ->
  exists s',
    handleUpdateContractsTimes n s = Returned tt s' /\
    Obj.get k (contracts s') =
      Some {| playerId := playerId c;
              duration := duration c - Z.of_nat n |}.
Proof.
  induction n as [|n IH]; intros s k c Hk Hget Hneg.
  - exists s. split; [reflexivity|]. rewrite Hget.
    destruct c as [p d]. cbn. do 2 f_equal. lia.
  - destruct (@handleUpdateContracts_keeps s k c Hk Hget ltac:(lia))
      as (s1 & Hrun & Hk1 & Hget1).
    destruct (IH s1 k (decremented c) Hk1 Hget1 ltac:(cbn; lia))
      as (s' & Hrun' & Hget').
    exists s'. cbn [handleUpdateContractsTimes]. unfold bind at 1.
    rewrite Hrun, Hrun'. split; [reflexivity|].
    rewrite Hget'. cbn. do 2 f_equal. lia.
Qed.

(** One updateContract event leaves no contract of duration 0 behind. *)
Lemma handleUpdateContracts_no_expired s :
  contractsKeyed (contracts s) ->
  exists s',
    handleUpdateContracts s = Returned false s' /\
    forall k c, Obj.get k (contracts s') = Some c -> duration c <> 0.
Proof.
  intros Hk. rewrite handleUpdateContracts_eq. cbv zeta.
  set (s1 := withContracts s (Obj.mapValues decremented (contracts s))).
  assert (Hk1 : contractsKeyed (contracts s1))
    by (unfold s1; cbn; now apply contractsKeyed_decremented).
  destruct (fold_renew_keeps (Obj.keys (teams s1)) s1 Hk1) as [Hk2 _].
  set (s2 := fold_left Team_renewExipiringContracts _ s1) in *.
  eexists. split; [reflexivity|]. intros k c Hget.
  destruct (Obj.get k (contracts s2)) as [c2|] eqn:H2.
  - rewrite (@removeExpiredContracts_table s2 k c2 Hk2 H2) in Hget.
    destruct (Z.eqb_spec (duration c2) 0); [discriminate|].
    injection Hget as <-. assumption.
  - rewrite contracts_fold_unsign, get_fold_delete_none in Hget
      by exact H2.
    discriminate.
Qed.

End TeamsKeepOtherContracts.

(** C10. updateContracts replaces every contract by the contract of the
    same player with the duration less one, and touches nothing else.
    Handling an updateContract event does that first, then lets the teams
    renew, then removes the expired contracts; removeExpiredContracts
    unsigns the contracts whose duration is 0 at that point and no other.
    With teams that leave the other contracts alone: a contract is gone
    after removeExpiredContracts when its duration was 0 and in its place,
    unchanged, when its duration was positive or negative; after one
    updateContract event a contract whose duration was not 1 is in its
    place with its duration less one, and no contract of duration 0 is
    left; so a contract whose duration is below zero is still in the
    table, its duration less by one each time, after any number of
    updateContract events. *)
Theorem removeExpiredContracts_only_at_zero gs :
  (exists gs1,
     updateContracts gs = Returned tt gs1 /\
     Obj.keys (contracts gs1) = Obj.keys (contracts gs) /\
     (forall k,
        Obj.get k (contracts gs1) =
        match Obj.get k (contracts gs) with
        | Some c =>
            Some {| playerId := playerId c; duration := duration c - 1 |}
        | None => None
        end) /\
     date gs1 = date gs /\ eventQueue gs1 = eventQueue gs /\
     players gs1 = players gs /\ teams gs1 = teams gs /\
     schedules gs1 = schedules gs /\ matches gs1 = matches gs) /\
  handleUpdateContracts gs =
    Returned false
      (let s1 :=
         withContracts gs
           (Obj.mapValues
              (fun c =>
                 {| playerId := playerId c; duration := duration c - 1 |})
              (contracts gs)) in
       let s2 :=
         fold_left Team_renewExipiringContracts (Obj.keys (teams s1)) s1 in
       fold_left Team_unsignPlayer
                 (filter (fun c => duration c =? 0)
                         (Obj.values (contracts s2))) s2) /\
  removeExpiredContracts gs =
    Returned tt
      (fold_left Team_unsignPlayer
                 (filter (fun c => duration c =? 0)
                         (Obj.values (contracts gs))) gs) /\
  (teamsKeepOtherContracts env -> contractsKeyed (contracts gs) ->
   (forall k c,
      Obj.get k (contracts gs) = Some c ->
      exists gs',
        removeExpiredContracts gs = Returned tt gs' /\
        Obj.get k (contracts gs')
          = if duration c =? 0 then None else Some c) /\
   (forall k c,
      Obj.get k (contracts gs) = Some c -> duration c <> 1 ->
      exists gs',
        handleUpdateContracts gs = Returned false gs' /\
        Obj.get k (contracts gs') =
          Some {| playerId := playerId c; duration := duration c - 1 |}) /\
   (exists gs',
      handleUpdateContracts gs = Returned false gs' /\
      forall k c, Obj.get k (contracts gs') = Some c -> duration c <> 0) /\
   (forall n k c,
      Obj.get k (contracts gs) = Some c -> duration c < 0 ->
      exists gs',
        handleUpdateContractsTimes n gs = Returned tt gs' /\
        Obj.get k (contracts gs') =
          Some {| playerId := playerId c;
                  duration := duration c - Z.of_nat n |})).
Proof.
  split.
  { eexists. split; [reflexivity|].
    cbn [contracts date eventQueue players teams schedules matches
         withContracts].
    split; [apply Obj_keys_mapValues|].
    split; [|repeat split].
    intros k. rewrite Obj_get_mapValues.
    now destruct (Obj.get k (contracts gs)). }
  split; [apply handleUpdateContracts_eq|].
  split; [apply removeExpiredContracts_eq|].
  intros (Hunsign & Hrenew & Hkeyed) Hk. split; [|split; [|split]].
  - intros k c Hget. eexists. split; [apply removeExpiredContracts_eq|].
    now apply removeExpiredContracts_table.
  - intros k c Hget Hne.
    destruct (@handleUpdateContracts_keeps Hunsign Hrenew Hkeyed gs k c
                Hk Hget ltac:(lia)) as (gs' & Hrun & _ & Hget').
    now exists gs'.
  - now apply handleUpdateContracts_no_expired.
  - intros n k c Hget Hneg. now apply handleUpdateContractsTimes_keeps.
Qed.

End ContractFacts.

(** ** The properties on sample data *)

Section Samples.

Import JsDate TournamentScheduler Simulation.
Local Open Scope Z_scope.
Local Open Scope string_scope.

(** The two examples of the scheduler's tests. *)
Example rotate_eight :
  rotate ["a"; "b"; "c"; "d"; "e"; "f"; "g"; "h"]
  = ["a"; "h"; "b"; "c"; "d"; "e"; "f"; "g"].
Proof. reflexivity. Qed.

Example createRound_eight :
  createRound ["a"; "b"; "c"; "d"; "e"; "f"; "g"; "h"]
  = [("a", "h"); ("b", "g"); ("c", "f"); ("d", "e")].
Proof. reflexivity. Qed.

Lemma sampleTeams_NoDup : NoDup sampleTeams.
Proof.
  unfold sampleTeams.
  repeat constructor; simpl; intuition discriminate.
Qed.

Lemma sampleTeams_Even : Nat.Even (length sampleTeams).
Proof. exists 2%nat. reflexivity. Qed.

Lemma createTournamentRounds_sample :
  length (createTournamentRounds sampleTeams) = 3%nat /\
  (forall r, In r (createTournamentRounds sampleTeams) ->
     Permutation (flat r) sampleTeams) /\
  (forall i j ri rj a b,
     nth_error (createTournamentRounds sampleTeams) i = Some ri ->
     nth_error (createTournamentRounds sampleTeams) j = Some rj ->
     In (a, b) ri -> In (a, b) rj \/ In (b, a) rj -> i = j).
Proof.
  destruct (createTournamentRounds_round_robin
              sampleTeams_NoDup sampleTeams_Even) as (Hlen & Hround & Hpair).
  split; [exact Hlen|]. split; [|exact Hpair].
  intros r Hr. exact (proj1 (Hround r Hr)).
Defined.

Lemma createDoubleRoundsTournament_sample :
  length (createDoubleRoundsTournament sampleTeams) = 6%nat /\
  NoDup (concat (createDoubleRoundsTournament sampleTeams)).
Proof.
  destruct (createDoubleRoundsTournament_mirrored
              sampleTeams_NoDup sampleTeams_Even) as (Hlen & _ & _ & Hnd).
  split; [exact Hlen | exact Hnd].
Defined.

Lemma process_sample_empty_queue :
  eventQueue sampleGame = [] /\
  process (env := plainCollaborators) sampleGame = Returned true sampleGame.
Proof.
  split; [reflexivity|].
  apply process_empty_queue_no_change. reflexivity.
Defined.

(** A simRound event for round -1 finds no round to simulate and still
    enqueues simRound(0); a round whose match is not in the match table
    makes the handler throw. *)
Lemma handleSimRound_before_first_round :
  currentRound sampleGame (-1) = None /\
  handleSimRound (env := plainCollaborators) {| round := -1 |} sampleGame
  = Returned false
      (withEventQueue sampleGame
         [ {| evt_date := newDate 2010 8 5; evt_type := simRound;
              detail := Some {| round := 0 |} |} ]) /\
  currentRound sampleGame 0
  = Some {| sr_date := newDate 2010 8 5; matchIds := ["0-0"] |} /\
  Obj.get "0-0" (Simulation.matches sampleGame) = None /\
  handleSimRound (env := plainCollaborators) {| round := 0 |} sampleGame
  = Thrown TypeError.
Proof. repeat split; vm_compute; reflexivity. Qed.




Lemma sampleContracts_keyed : contractsKeyed sampleContracts.
Proof.
  split.
  - unfold Obj.wf, sampleContracts. simpl.
    repeat constructor; simpl; intuition discriminate.
  - intros k c Hin. unfold sampleContracts in Hin. simpl in Hin.
    destruct Hin as [[= <- <-]|[[= <- <-]|[[= <- <-]|[]]]]; reflexivity.
Qed.

Lemma plainCollaborators_keep_contracts :
  teamsKeepOtherContracts plainCollaborators.
Proof.
  split; [|split].
  - intros s c. reflexivity.
  - intros s team k c H _. exact H.
  - intros s team H. exact H.
Qed.

(** One updateContract event on the sample contracts: the contract that
    reaches 0 is removed, the one below zero and the running one stay. *)
Example handleUpdateContracts_sample :
  handleUpdateContracts (env := plainCollaborators) gameWithContracts
  = Returned false
      (withContracts gameWithContracts
         [ ("p1", {| playerId := "p1"; duration := -2 |});
           ("p3", {| playerId := "p3"; duration := 4 |}) ]).
Proof. reflexivity. Qed.

Lemma removeExpiredContracts_sample :
  (exists gs',
     handleUpdateContracts (env := plainCollaborators) gameWithContracts
       = Returned false gs' /\
     Obj.get "p3" (contracts gs')
       = Some {| playerId := "p3"; duration := 4 |}) /\
  (exists gs',
     handleUpdateContractsTimes (env := plainCollaborators) 3
       gameWithContracts = Returned tt gs' /\
     Obj.get "p1" (contracts gs')
       = Some {| playerId := "p1"; duration := -4 |}).
Proof.
  destruct (@removeExpiredContracts_only_at_zero
              unit unit plainCollaborators gameWithContracts)
    as (_ & _ & _ & Hkeep).
  destruct (Hkeep plainCollaborators_keep_contracts sampleContracts_keyed)
    as (_ & Hshorter & _ & Hlater).
  split.
  - exact (Hshorter "p3" {| playerId := "p3"; duration := 5 |}
                    eq_refl ltac:(discriminate)).
  - exact (Hlater 3%nat "p1" {| playerId := "p1"; duration := -1 |}
                  eq_refl eq_refl).
Defined.

Lemma process_sample_due_at_noon :
  process (env := plainCollaborators) gameBeforeNoon
  = handleGameEvent (env := plainCollaborators) eventAtNoon
      (withEventQueue (withDate gameBeforeNoon (0 + 12 * msPerHour)) []).
Proof.
  destruct (process_case_analysis (env := plainCollaborators)
              gameBeforeNoon) as [_ Hcases].
  destruct (Hcases eventAtNoon [] eq_refl) as (_ & Hnoon & _).
  apply Hnoon.
  - reflexivity.
  - discriminate.
Defined.

Lemma gameWithQueue_sorted : sortedByDate (eventQueue gameWithQueue).
Proof.
  unfold sortedByDate. cbn [eventQueue gameWithQueue withEventQueue].
  repeat constructor. discriminate.
Qed.

Lemma enqueueGameEvent_sample :
  exists before after,
    eventQueue gameWithQueue = (before ++ after)%list /\
    enqueueGameEvent eventAtMidnight gameWithQueue
      = Returned tt
          (withEventQueue gameWithQueue
             (before ++ eventAtMidnight :: after)%list)
    /\ sortedByDate (before ++ eventAtMidnight :: after)%list.
Proof.
  destruct (enqueueGameEvent_keeps_order gameWithQueue eventAtMidnight)
    as (before & after & Hsplit & Hrun & _ & _ & Hsorted).
  exists before, after. split; [exact Hsplit|]. split; [exact Hrun|].
  exact (proj2 (Hsorted gameWithQueue_sorted)).
Defined.




Lemma handleSimRound_sample :
  exists tbl n,
    handleSimRound (env := plainCollaborators) {| round := 0 |}
      sampleGameWithMatches
    = Returned false
        (withEventQueue
           (withMatches (withRandomCalls sampleGameWithMatches n) tbl)
           [ {| evt_date := newDate 2011 4 1; evt_type := simRound;
                detail := Some {| round := 1 |} |} ]) /\
    resultsWritten ["0-0"] tbl.
Proof.
  destruct (handleSimRound_skips_or_simulates (env := plainCollaborators)
              sampleGameWithMatches 0) as (_ & _ & _ & _ & Hpresent).
  destruct (Hpresent {| sr_date := newDate 2010 8 5; matchIds := ["0-0"] |}
              eq_refl) as (tbl & n & Hrun & _ & Hres & _).
  - intros id [<-|[]]. eexists. reflexivity.
  - exists tbl, n. split; [exact Hrun | exact Hres].
Defined.

End Samples.

(** ** Objects filled entry by entry *)

Section ObjFillFacts.

Context {V : Type}.




Lemma Obj_delete_absent k (o : Obj.t V) :
  Obj.get k o = None -> Obj.delete k o = o.
Proof.
  induction o as [|[k0 v0] o IH]; simpl; [reflexivity|].
  destruct (String.eqb k k0); [discriminate|].
  intros H. now rewrite IH.
Qed.

(** [l.forEach((x) => { o[key(x)] = x })] *)
Context {X : Type} (key : X -> string) (val : X -> V).

Local Notation "'fill'" :=
  (fold_left (fun tbl x => Obj.set (key x) (val x) tbl)).

Lemma get_fill_other (l : list X) : forall (tbl : Obj.t V) k,
  ~ In k (map key l) -> Obj.get k (fill l tbl) = Obj.get k tbl.
Proof.
  induction l as [|x l IH]; intros tbl k Hk; simpl in *; [reflexivity|].
  rewrite IH by tauto. apply Obj_get_set_neq. tauto.
Qed.

Lemma get_fill_listed (l : list X) : forall (tbl : Obj.t V) k,
  In k (map key l) ->
  exists x, Obj.get k (fill l tbl) = Some (val x) /\ In x l /\ key x = k.
Proof.
  induction l as [|x l IH]; intros tbl k Hk; simpl in *; [tauto|].
  destruct (in_dec string_dec k (map key l)) as [Hin|Hout].
  - destruct (IH (Obj.set (key x) (val x) tbl) k Hin)
      as (x' & Hget & Hx' & Hkey).
    exists x'. auto.
  - destruct Hk as [Hk|Hk]; [|tauto]. subst k.
    exists x. rewrite get_fill_other by exact Hout.
    rewrite Obj_get_set_eq. auto.
Qed.

Lemma get_fill_unique (l : list X) : forall (tbl : Obj.t V) x,
  NoDup (map key l) -> In x l ->
  Obj.get (key x) (fill l tbl) = Some (val x).
Proof.
  induction l as [|x0 l IH]; intros tbl x Hnd Hin; simpl in *; [tauto|].
  inversion Hnd as [|? ? Hout Hnd']; subst.
  destruct Hin as [->|Hin].
  - rewrite get_fill_other by exact Hout. apply Obj_get_set_eq.
  - now apply IH.
Qed.

End ObjFillFacts.


(** ** The event queue over many insertions *)

Section QueueOrderFacts.

Import JsDate Simulation.
Local Open Scope Z_scope.

Lemma enqueue_sorted (queue : list GameEvent) (e : GameEvent) :
  sortedByDate queue -> sortedByDate (enqueue queue e).
Proof.
  destruct (enqueue_position queue e)
    as (before & after & Hq & Henq & Hbefore & Hafter).
  rewrite Henq, Hq. rewrite !sortedByDate_strong. intros Hs.
  apply StronglySorted_app_inv in Hs. destruct Hs as (Hs1 & Hs2 & H12).
  assert (Hlater :
    Forall (fun x => getTime (evt_date e) < getTime (evt_date x)) after).
  { destruct after as [|x rest]; [constructor|].
    inversion Hs2 as [|? ? _ Hall]; subst.
    constructor; [exact Hafter|].
    eapply Forall_impl; [|exact Hall]. simpl. intros a Ha. lia. }
  apply StronglySorted_app_intro; [exact Hs1| |].
  - constructor; [exact Hs2|].
    eapply Forall_impl; [|exact Hlater]. simpl. intros a Ha. lia.
  - rewrite Forall_forall in Hbefore, Hlater.
    intros a b Ha [<-|Hb].
    + now apply Hbefore.
    + specialize (Hbefore a Ha). specialize (Hlater b Hb).
      simpl in *. lia.
Qed.

Lemma enqueue_Permutation (queue : list GameEvent) (e : GameEvent) :
  Permutation (e :: queue) (enqueue queue e).
Proof.
  destruct (enqueue_position queue e) as (before & after & Hq & Henq & _).
  rewrite Henq, Hq. apply Permutation_middle.
Qed.

Lemma enqueue_length (queue : list GameEvent) (e : GameEvent) :
  length (enqueue queue e) = S (length queue).
Proof.
  symmetry. apply (Permutation_length (enqueue_Permutation queue e)).
Qed.

Lemma sortedByDate_tail (first : GameEvent) (rest : list GameEvent) :
  sortedByDate (first :: rest) -> sortedByDate rest.
Proof. intros H. now inversion H. Qed.

Lemma forEach_enqueueGameEvent {Player Team : Type} (events : list GameEvent) :
  forall s : GameState Player Team,
  forEach events (@enqueueGameEvent Player Team) s =
  Returned tt (withEventQueue s (fold_left enqueue events (eventQueue s))).
Proof.
  induction events as [|e events IH]; intros s; cbn [forEach fold_left].
  - unfold ret. now destruct s.
  - unfold bind, enqueueGameEvent, modify. rewrite IH. reflexivity.
Qed.

Lemma fold_enqueue_sorted (events : list GameEvent) : forall queue,
  sortedByDate queue ->
  sortedByDate (fold_left enqueue events queue) /\
  Permutation (events ++ queue) (fold_left enqueue events queue).
Proof.
  induction events as [|e events IH]; intros queue Hs; simpl.
  - split; [exact Hs|reflexivity].
  - destruct (IH (enqueue queue e) (enqueue_sorted e Hs)) as [H1 H2].
    split; [exact H1|].
    etransitivity; [|exact H2].
    etransitivity; [apply Permutation_middle|].
    apply Permutation_app_head. apply enqueue_Permutation.
Qed.

(** X1. GameState.enqueueGameEvent never loses or repeats an event: the new
    queue holds the new event and exactly the old ones, and nothing but
    the queue has changed. *)
Theorem enqueueGameEvent_keeps_every_event
  {Player Team : Type} (s : GameState Player Team) (e : GameEvent) :
  exists s',
    enqueueGameEvent e s = Returned tt s' /\
    Permutation (e :: eventQueue s) (eventQueue s') /\
    length (eventQueue s') = S (length (eventQueue s)) /\
    date s' = date s /\ players s' = players s /\ teams s' = teams s /\
    contracts s' = contracts s /\ schedules s' = schedules s /\
    matches s' = matches s.
Proof.
  exists (withEventQueue s (enqueue (eventQueue s) e)).
  split; [reflexivity|]. cbn.
  split; [apply enqueue_Permutation|].
  split; [apply enqueue_length|].
  repeat split.
Qed.

(** X2. Events handed to GameState.enqueueGameEvent one by one, in whatever
    order they come, leave a queue that was in ascending order of date in
    ascending order, with all of them in it. *)
Theorem enqueueGameEvent_sorts_any_sequence
  {Player Team : Type} (s : GameState Player Team)
  (events : list GameEvent) :
  sortedByDate (eventQueue s) ->
  exists s',
    forEach events (@enqueueGameEvent Player Team) s = Returned tt s' /\
    sortedByDate (eventQueue s') /\
    Permutation (events ++ eventQueue s) (eventQueue s').
Proof.
  intros Hs. eexists. split; [apply forEach_enqueueGameEvent|].
  cbn. now apply fold_enqueue_sorted.
Qed.

End QueueOrderFacts.

(** ** Saved schedules and the match table *)

Section MatchTableFacts.

Import JsDate Simulation.
Local Open Scope Z_scope.

Context {Player Team : Type} {env : Collaborators Player Team}.

Lemma listed_in_allMatches schd r id :
  In r (map toScheduleRound (TournamentScheduler.rounds schd)) ->
  In id (matchIds r) ->
  In id (map TournamentScheduler.id (TournamentScheduler.allMatches schd)).
Proof.
  intros Hr Hid. apply in_map_iff in Hr. destruct Hr as (round & <- & Hround).
  cbn [toScheduleRound matchIds] in Hid.
  apply in_map_iff in Hid. destruct Hid as (m & <- & Hm).
  apply in_map. unfold TournamentScheduler.allMatches.
  apply in_flat_map. now exists round.
Qed.


Lemma saveSchedule_now_covers schd (s s' : GameState Player Team) :
  saveSchedule schd "now" s = Returned tt s' -> matchesCover s'.
Proof.
  rewrite saveSchedule_returns. intros [= <-].
  intros now r id Hnow Hr Hid. cbn in Hnow |- *.
  rewrite Obj_get_set_eq in Hnow. injection Hnow as <-.
  destruct (get_fill_listed TournamentScheduler.id (fun m => m)
              (TournamentScheduler.allMatches schd)
              (matches s) id (listed_in_allMatches schd r id Hr Hid))
    as (m & Hget & _).
  now exists m.
Qed.

Lemma matchesCover_withEventQueue (s : GameState Player Team) q :
  matchesCover s -> matchesCover (withEventQueue s q).
Proof. intros H now r id. cbn. apply H. Qed.

Lemma newSeasonSchedule_covers_matches_aux (gs : GameState Player Team) :
  (forall names gs', newSeasonSchedule names gs = Returned tt gs' ->
     matchesCover gs') /\
  (forall stop gs', handleSeasonStart gs = Returned stop gs' ->
     matchesCover gs').
Proof.
  assert (Hnew : forall names gs',
            newSeasonSchedule names gs = Returned tt gs' -> matchesCover gs').
  { intros names gs'. rewrite newSeasonSchedule_unfold.
    destruct (_ <=? _); [discriminate|]. apply saveSchedule_now_covers. }
  split; [apply Hnew|].
  intros stop gs'. unfold handleSeasonStart, bind, gets.
  destruct (newSeasonSchedule _ gs) as [[] s1|e] eqn:H1; [|discriminate].
  apply Hnew in H1.
  rewrite enqueueSimRoundEvent_eq.
  rewrite enqueueSeasonEndEvent_eq. unfold ret. intros [= _ <-].
  apply matchesCover_withEventQueue.
  destruct (currentRound s1 0); [apply matchesCover_withEventQueue|]; exact H1.
Qed.

(** X4. A season that newSeasonSchedule or the seasonStart handler has
    scheduled lists no match that the match table lacks. *)
Theorem newSeasonSchedule_covers_matches
  (teams : list string) (gs : GameState Player Team) :
  (forall gs', newSeasonSchedule teams gs = Returned tt gs' ->
     matchesCover gs') /\
  (forall stop gs', handleSeasonStart gs = Returned stop gs' ->
     matchesCover gs').
Proof.
  destruct (newSeasonSchedule_covers_matches_aux gs) as [H1 H2].
  split; [apply H1|exact H2].
Qed.

End MatchTableFacts.

(** ** What simulating a round changes *)

Section RoundResultFacts.

Import JsDate Simulation.
Local Open Scope Z_scope.

Context {Player Team : Type} {env : Collaborators Player Team}.

Lemma forEach_simulateMatch_outcome (ids : list string) :
  forall s : GameState Player Team,
  match forEach ids (@simulateMatch Player Team env) s with
  | Returned _ s' =>
      randomCalls s' = (randomCalls s + 2 * length ids)%nat /\
      (date s' = date s /\ eventQueue s' = eventQueue s /\
       players s' = players s /\ teams s' = teams s /\
       contracts s' = contracts s /\ schedules s' = schedules s) /\
      (forall id, Obj.get id (matches s) = None ->
         Obj.get id (matches s') = None) /\
      (forall id m, Obj.get id (matches s) = Some m ->
         exists m',
           Obj.get id (matches s') = Some m' /\
           TournamentScheduler.id m' = TournamentScheduler.id m /\
           TournamentScheduler.home m' = TournamentScheduler.home m /\
           TournamentScheduler.away m' = TournamentScheduler.away m /\
           (~ In id ids -> m' = m))
  | Thrown e =>
      e = TypeError /\
      exists id, In id ids /\ Obj.get id (matches s) = None
  end.
Proof.
  induction ids as [|id0 ids IH]; intros s.
  - cbn. rewrite Nat.add_0_r. repeat split; auto.
    intros id m Hm. now exists m.
  - cbn [forEach]. unfold bind at 1.
    destruct (Obj.get id0 (matches s)) as [m0|] eqn:H0.
    + rewrite (simulateMatch_present _ _ H0).
      match goal with |- context [forEach ids _ ?s1] =>
        specialize (IH s1); destruct (forEach ids _ s1) as [[] s'|e]
      end.
      * cbn in IH. destruct IH as (Hn & Hframe & Hnone & Hsome).
        split; [rewrite Hn; cbn [length]; lia|].
        split; [exact Hframe|].
        split.
        { intros id Hid. apply Hnone.
          destruct (string_dec id0 id) as [->|Hne]; [congruence|].
          now rewrite Obj_get_set_neq. }
        intros id m Hm.
        destruct (string_dec id0 id) as [->|Hne].
        { rewrite H0 in Hm. injection Hm as ->.
          destruct (Hsome id _ (Obj_get_set_eq _ _ _))
            as (m' & Hget & Hid & Hh & Ha & _).
          exists m'. cbn in Hid, Hh, Ha. repeat split; auto.
          intros Hout. exfalso. apply Hout. now left. }
        { destruct (Hsome id m) as (m' & Hget & Hid & Hh & Ha & Hsame).
          { now rewrite Obj_get_set_neq. }
          exists m'. repeat split; auto.
          intros Hout. apply Hsame. intros Hin. apply Hout. now right. }
      * cbn in IH. destruct IH as (-> & id & Hin & Hid).
        split; [reflexivity|]. exists id. split; [now right|].
        destruct (string_dec id0 id) as [->|Hne].
        { now rewrite Obj_get_set_eq in Hid. }
        { now rewrite Obj_get_set_neq in Hid. }
    + rewrite (simulateMatch_absent _ _ H0).
      split; [reflexivity|]. exists id0. split; [now left|exact H0].
Qed.

Lemma simulateRound_frame (r : Z) (s s' : GameState Player Team) :
  simulateRound r s = Returned tt s' ->
  date s' = date s /\ eventQueue s' = eventQueue s /\
  schedules s' = schedules s.
Proof.
  unfold simulateRound, bind, gets.
  destruct (currentRound s r) as [rd|].
  - pose proof (forEach_simulateMatch_outcome (matchIds rd) s) as H.
    destruct (forEach (matchIds rd) _ s) as [[] s1|e1]; [|discriminate].
    intros [= <-]. tauto.
  - unfold ret. intros [= <-]. auto.
Qed.

(** X5. simulateRound writes results and nothing else: when it returns, the
    clock, the queue, the players, teams, contracts and schedules are as
    before, the match table has the same identifiers, every match has kept
    its identifier and its two teams, the matches outside the round are
    untouched, and two random numbers were drawn for each match of the
    round.  It throws only a TypeError, and only when the round lists an
    identifier the match table lacks. *)
Theorem simulateRound_writes_results_only
  (r : Z) (s : GameState Player Team) :
  (forall s', simulateRound r s = Returned tt s' ->
     let ids :=
       match currentRound s r with Some rd => matchIds rd | None => [] end in
     randomCalls s' = (randomCalls s + 2 * length ids)%nat /\
     (date s' = date s /\ eventQueue s' = eventQueue s /\
      players s' = players s /\ teams s' = teams s /\
      contracts s' = contracts s /\ schedules s' = schedules s) /\
     (forall id, Obj.get id (matches s) = None ->
        Obj.get id (matches s') = None) /\
     (forall id m, Obj.get id (matches s) = Some m ->
        exists m',
          Obj.get id (matches s') = Some m' /\
          TournamentScheduler.id m' = TournamentScheduler.id m /\
          TournamentScheduler.home m' = TournamentScheduler.home m /\
          TournamentScheduler.away m' = TournamentScheduler.away m /\
          (~ In id ids -> m' = m))) /\
  (forall e, simulateRound r s = Thrown e ->
     e = TypeError /\
     exists rd id,
       currentRound s r = Some rd /\ In id (matchIds rd) /\
       Obj.get id (matches s) = None).
Proof.
  unfold simulateRound, bind, gets.
  destruct (currentRound s r) as [rd|].
  - pose proof (forEach_simulateMatch_outcome (matchIds rd) s) as H.
    destruct (forEach (matchIds rd) _ s) as [[] s1|e1].
    + split; [|discriminate]. intros s' [= <-]. exact H.
    + split; [discriminate|]. intros e [= <-].
      destruct H as (-> & id & Hin & Hid). split; [reflexivity|].
      now exists rd, id.
  - unfold ret. split; [|discriminate]. intros s' [= <-]. cbn.
    rewrite Nat.add_0_r. repeat split; auto.
    intros id m Hm. now exists m.
Qed.

(** X6. While every match the current season lists is in the match table,
    handling a simRound event never throws, whatever the round number, and
    the table keeps covering the season afterwards; the schedules stay as
    they are and the queue grows by one event at most. *)
Theorem handleSimRound_returns_when_covered
  (gs : GameState Player Team) (r : Z) :
  matchesCover gs ->
  exists gs',
    handleSimRound {| round := r |} gs = Returned false gs' /\
    matchesCover gs' /\
    schedules gs' = schedules gs /\
    (length (eventQueue gs) <= length (eventQueue gs')
       <= S (length (eventQueue gs)))%nat.
Proof.
  intros Hcover.
  assert (Hqueue : forall s : GameState Player Team,
    (length (eventQueue gs) <=
     length match currentRound s (r + 1) with
            | None => eventQueue gs
            | Some next =>
                enqueue (eventQueue gs)
                  {| evt_date := sr_date next; evt_type := simRound;
                     detail := Some {| round := r + 1 |} |}
            end <= S (length (eventQueue gs)))%nat).
  { intros s. destruct (currentRound s (r + 1)); [|lia].
    rewrite enqueue_length. lia. }
  destruct (currentRound gs r) as [rd|] eqn:Hrd.
  - assert (Hall : forall id, In id (matchIds rd) ->
              exists m, Obj.get id (matches gs) = Some m).
    { unfold currentRound in Hrd.
      destruct (Obj.get "now" (schedules gs)) as [now|] eqn:Hnow;
        [|discriminate].
      intros id Hid. apply (Hcover now rd id Hnow); [|exact Hid].
      unfold arrayAt in Hrd. destruct (r <? 0); [discriminate|].
      eapply nth_error_In; eauto. }
    destruct (handleSimRound_round_present gs r Hrd Hall)
      as (tbl & n & Hrun & Hkeys & Hres & Hframe).
    eexists. split; [exact Hrun|]. cbn.
    split; [|split; [reflexivity|apply Hqueue]].
    intros now r' id Hnow Hr' Hid. cbn in Hnow |- *.
    destruct (in_dec string_dec id (matchIds rd)) as [Hin|Hout].
    + destruct (Hres id Hin) as (m & _ & _ & Hm & _). now exists m.
    + rewrite (Hframe id Hout). eapply Hcover; eauto.
  - rewrite (handleSimRound_round_missing _ _ Hrd).
    eexists. split; [reflexivity|].
    destruct (currentRound gs (r + 1)) as [next|] eqn:Hnext; cbn.
    + split; [exact Hcover|]. split; [reflexivity|].
      rewrite enqueue_length. lia.
    + split; [exact Hcover|]. split; [reflexivity|lia].
Qed.

End RoundResultFacts.

(** ** Reading a key, own or inherited *)

Section ReadFacts.

Context {V : Type}.

Implicit Types (o : Obj.t V) (k : string) (v : V).

Lemma Obj_read_Own k v o : Obj.read k o = Obj.Own v <-> Obj.get k o = Some v.
Proof.
  unfold Obj.read. destruct (Obj.get k o) as [v'|].
  - split; intros [= ->]; reflexivity.
  - destruct (Obj.inherits k); split; discriminate.
Qed.

Lemma Obj_read_absent k o :
  Obj.get k o = None ->
  Obj.read k o =
  if Obj.inherits k then Obj.Inherited k else Obj.Undefined.
Proof. unfold Obj.read. now intros ->. Qed.

Lemma Obj_read_not_Own k o :
  (forall v, Obj.read k o <> Obj.Own v) <-> Obj.get k o = None.
Proof.
  split.
  - intros H. destruct (Obj.get k o) as [v|] eqn:Hget; [|reflexivity].
    exfalso. apply (H v). now apply Obj_read_Own.
  - intros Hnone v Hread. apply Obj_read_Own in Hread. congruence.
Qed.

Lemma Obj_read_set_eq k v o : Obj.read k (Obj.set k v o) = Obj.Own v.
Proof. apply Obj_read_Own, Obj_get_set_eq. Qed.

Lemma Obj_read_set_neq k k' v o :
  k <> k' -> Obj.read k' (Obj.set k v o) = Obj.read k' o.
Proof. intros Hne. unfold Obj.read. now rewrite Obj_get_set_neq. Qed.

Lemma Obj_read_delete_eq k o :
  Obj.read k (Obj.delete k o) =
  if Obj.inherits k then Obj.Inherited k else Obj.Undefined.
Proof. apply Obj_read_absent, Obj_get_delete_eq. Qed.

Lemma Obj_read_delete_neq k k' o :
  k <> k' -> Obj.read k' (Obj.delete k o) = Obj.read k' o.
Proof. intros Hne. unfold Obj.read. now rewrite Obj_get_delete_neq. Qed.

Lemma Obj_read_mapValues (f : V -> V) k o :
  Obj.read k (Obj.mapValues f o) = Obj.mapRead f (Obj.read k o).
Proof.
  unfold Obj.read. rewrite Obj_get_mapValues.
  destruct (Obj.get k o); [reflexivity|].
  now destruct (Obj.inherits k).
Qed.

End ReadFacts.

(** ** Contracts, players and teams of the saved game *)

Section RecordFacts.

Import JsDate Simulation.
Local Open Scope Z_scope.

Context {Player Team : Type} {fields : CharacterFields Player Team}.



(** X8. After GameState.deleteContract the contract table has no entry
    of its own for the player, and GameState.getContract finds no
    contract: it returns undefined, unless the identifier of the player is
    the name of a member of Object.prototype, such as constructor, where
    it returns that inherited member.  The other players keep what they
    had, and deleting the contract of a player who had none changes
    nothing. *)
Theorem deleteContract_then_getContract
  (s : GameState Player Team) (c : Contract) (p : Player) :
  Player_id p = playerId c ->
  exists s',
    deleteContract c s = Returned tt s' /\
    Obj.get (Player_id p) (contracts s') = None /\
    getContract s' p =
      (if Obj.inherits (Player_id p)
       then Obj.Inherited (Player_id p) else Obj.Undefined) /\
    (forall c', getContract s' p <> Obj.Own c') /\
    (forall q, Player_id q <> Player_id p ->
       getContract s' q = getContract s q) /\
    (contractsKeyed (contracts s) -> contractsKeyed (contracts s')) /\
    ((forall c', getContract s p <> Obj.Own c') ->
     contracts s' = contracts s).
Proof.
  intros Hp. eexists. split; [reflexivity|].
  unfold getContract. cbn. rewrite Hp.
  split; [apply Obj_get_delete_eq|].
  split; [apply Obj_read_delete_eq|].
  split; [apply Obj_read_not_Own, Obj_get_delete_eq|].
  split; [intros q Hq; apply Obj_read_delete_neq; congruence|].
  split; [apply contractsKeyed_delete|].
  intros Hnone. apply Obj_read_not_Own in Hnone.
  now apply Obj_delete_absent.
Qed.

Lemma forEach_savePlayer (ps : list Player) : forall s : GameState Player Team,
  forEach ps savePlayer s =
  Returned tt
    (withPlayers s
       (fold_left (fun tbl p => Obj.set (Player_id p) p tbl) ps (players s))).
Proof.
  induction ps as [|p ps IH]; intros s; cbn [forEach fold_left].
  - unfold ret. now destruct s.
  - unfold bind, savePlayer, modify. rewrite IH. reflexivity.
Qed.

(** X9. A team saved with GameState.saveTeam and its players saved with
    GameState.savePlayer, no identifier twice, are what
    GameState.getTeamPlayers returns for the name of the team, in the order
    of the team's list.  For another name, under which no team was saved,
    and a team whose own name is not __proto__, GameState.getTeamPlayers
    returns the empty array, unless the name is the name of a member of
    Object.prototype, such as constructor: then it throws a TypeError. *)
Theorem getTeamPlayers_after_saving
  (s : GameState Player Team) (t : Team) (ps : list Player) :
  Team_playerIds t = map Player_id ps ->
  NoDup (map Player_id ps) ->
  exists s',
    bind (saveTeam t) (fun _ => forEach ps savePlayer) s = Returned tt s' /\
    getTeamPlayers s' (Team_name t) = Returned (map Obj.Own ps) s' /\
    (Team_name t <> "__proto__"%string ->
     forall name, name <> Team_name t ->
       Obj.get name (teams s) = None ->
       getTeamPlayers s' name =
       if Obj.inherits name then Thrown TypeError else Returned [] s') /\
    contracts s' = contracts s /\ eventQueue s' = eventQueue s.
Proof.
  intros Hids Hnd. eexists. split.
  { unfold bind, saveTeam, modify. apply forEach_savePlayer. }
  unfold getTeamPlayers.
  cbn [teams players contracts eventQueue withPlayers withTeams].
  split.
  - rewrite Obj_read_set_eq, Hids, map_map. f_equal.
    apply map_ext_in. intros p Hp. apply Obj_read_Own.
    now apply (get_fill_unique Player_id (fun p => p)).
  - split; [|split; reflexivity].
    intros _ name Hne Hnone. rewrite Obj_read_set_neq by congruence.
    rewrite (Obj_read_absent _ _ Hnone).
    now destruct (Obj.inherits name).
Qed.

(** X10. For a saved team GameState.getTeamPlayers returns one entry per
    identifier of the team, unfiltered: the entry of an identifier no
    player is saved under is undefined, unless the identifier is the name
    of a member of Object.prototype, such as constructor, where the entry
    is that inherited member. *)
Theorem getTeamPlayers_unsaved_player
  (s : GameState Player Team) (name : string) (t : Team) (i : nat)
  (id : string) :
  Obj.get name (teams s) = Some t ->
  nth_error (Team_playerIds t) i = Some id ->
  Obj.get id (players s) = None ->
  exists entries,
    getTeamPlayers s name = Returned entries s /\
    length entries = length (Team_playerIds t) /\
    nth_error entries i =
      Some (if Obj.inherits id then Obj.Inherited id else Obj.Undefined).
Proof.
  intros Ht Hid Hp. unfold getTeamPlayers.
  rewrite (proj2 (Obj_read_Own _ _ _) Ht).
  eexists. split; [reflexivity|].
  split; [apply length_map|].
  rewrite nth_error_map, Hid. cbn [option_map].
  now rewrite (Obj_read_absent _ _ Hp).
Qed.

End RecordFacts.


(** ** Events handled frame after frame *)

Section FrameFacts.

Import JsDate Simulation.
Local Open Scope Z_scope.

Context {Player Team : Type} {env : Collaborators Player Team}.

Implicit Types (gs s : GameState Player Team).

Lemma handleSkillUpdate_eq gs :
  handleSkillUpdate gs =
  Returned true
    (withEventQueue
       (withPlayers gs
          (Obj.mapValues
             (fun p =>
                Player_applyMonthlyDegrowth
                  (Player_applyMonthlyGrowth p (date gs)) (date gs))
             (players gs)))
       (enqueue (eventQueue gs)
          {| evt_date :=
               newDate (getFullYear (date gs)) (getMonth (date gs) + 1) 1;
             evt_type := skillUpdate; detail := None |})).
Proof. reflexivity. Qed.

Lemma handleSimRound_steps r gs stop gs' :
  handleSimRound r gs = Returned stop gs' ->
  exists s1,
    simulateRound (round r) gs = Returned tt s1 /\
    stop = false /\
    gs' = match currentRound s1 (round r + 1) with
          | None => s1
          | Some rd =>
              withEventQueue s1
                (enqueue (eventQueue s1)
                   {| evt_date := sr_date rd; evt_type := simRound;
                      detail := Some {| round := round r + 1 |} |})
          end.
Proof.
  unfold handleSimRound. unfold bind at 1.
  destruct (simulateRound (round r) gs) as [[] s1|e]; [|discriminate].
  unfold bind at 1. rewrite enqueueSimRoundEvent_eq. unfold ret.
  intros [= <- <-]. now exists s1.
Qed.

Lemma storeEndedSeasonSchedule_steps gs gs' :
  storeEndedSeasonSchedule gs = Returned tt gs' ->
  gs' = gs \/
  exists key schd,
    Obj.get "now" (schedules gs) = Some schd /\
    gs' = withSchedules gs (Obj.set key schd (schedules gs)) /\
    exists first last,
      arrayAt schd 0 = Some first /\
      arrayAt schd (Z.of_nat (length schd) - 1) = Some last /\
      key = String.append (numberToString (getFullYear (sr_date first)))
              (String.append "-"
                 (numberToString (getFullYear (sr_date last)))).
Proof.
  unfold storeEndedSeasonSchedule, bind, gets.
  destruct (Obj.get "now" (schedules gs)) as [schd|]; [|].
  - destruct (arrayAt schd 0) as [first|] eqn:Hfirst; [|discriminate].
    destruct (arrayAt schd (Z.of_nat (length schd) - 1)) as [last|] eqn:Hlast;
      [|discriminate].
    unfold modify. intros [= <-]. right.
    eexists _, schd. split; [reflexivity|]. split; [reflexivity|].
    now exists first, last.
  - unfold ret. intros [= <-]. now left.
Qed.

Lemma handleSeasonEnd_steps e gs stop gs' :
  handleSeasonEnd e gs = Returned stop gs' ->
  exists s1,
    storeEndedSeasonSchedule gs = Returned tt s1 /\
    stop = true /\
    gs' =
    withEventQueue s1
      (enqueue
         (enqueue (eventQueue s1)
            {| evt_date := newDate (getFullYear (date s1)) 8 1;
               evt_type := seasonStart; detail := None |})
         {| evt_date := setDate (evt_date e) (getDate (evt_date e) + 1);
            evt_type := updateContract; detail := None |}).
Proof.
  unfold handleSeasonEnd. unfold bind at 1.
  destruct (storeEndedSeasonSchedule gs) as [[] s1|x]; [|discriminate].
  intros H. exists s1. split; [reflexivity|].
  revert H. unfold bind, enqueueSeasonStartEvent, enqueueUpdateContractEvent,
    enqueueGameEvent, gets, modify, ret. cbn.
  intros [= <- <-]. split; reflexivity.
Qed.

Lemma handleSeasonStart_steps gs stop gs' :
  handleSeasonStart gs = Returned stop gs' ->
  exists s1,
    newSeasonSchedule (Obj.keys (teams gs)) gs = Returned tt s1 /\
    stop = true /\
    gs' =
    withEventQueue s1
      (enqueue
         match currentRound s1 0 with
         | None => eventQueue s1
         | Some rd =>
             enqueue (eventQueue s1)
               {| evt_date := sr_date rd; evt_type := simRound;
                  detail := Some {| round := 0 |} |}
         end
         {| evt_date :=
              newDate (getFullYear (date s1) + 1)
                      SEASON_END_MONTH SEASON_END_DATE;
            evt_type := seasonEnd; detail := None |}).
Proof.
  unfold handleSeasonStart. unfold bind at 1, gets. unfold bind at 1.
  destruct (newSeasonSchedule _ gs) as [[] s1|x]; [|discriminate].
  unfold bind at 1. rewrite enqueueSimRoundEvent_eq.
  unfold bind at 1. rewrite enqueueSeasonEndEvent_eq. unfold ret.
  intros [= <- <-]. exists s1. split; [reflexivity|]. split; [reflexivity|].
  now destruct (currentRound s1 0).
Qed.

Lemma saveSchedule_frame schd key gs gs' :
  saveSchedule schd key gs = Returned tt gs' ->
  date gs' = date gs /\ eventQueue gs' = eventQueue gs /\
  Obj.get key (schedules gs')
    = Some (map toScheduleRound (TournamentScheduler.rounds schd)).
Proof.
  rewrite saveSchedule_returns. intros [= <-].
  cbn [date eventQueue schedules withMatches withSchedules].
  rewrite Obj_get_set_eq. auto.
Qed.

Lemma newSeasonSchedule_frame teams gs gs' :
  newSeasonSchedule teams gs = Returned tt gs' ->
  date gs' = date gs /\ eventQueue gs' = eventQueue gs /\
  exists now, Obj.get "now" (schedules gs') = Some now.
Proof.
  rewrite newSeasonSchedule_unfold.
  destruct (_ <=? _); [discriminate|].
  intros H. apply saveSchedule_frame in H. destruct H as (Hd & Hq & Hnow).
  split; [exact Hd|]. split; [exact Hq|]. eexists. exact Hnow.
Qed.

Lemma handleGameEvent_stop evt gs stop gs' :
  handleGameEvent evt gs = Returned stop gs' ->
  stop = requestsStop (evt_type evt).
Proof.
  unfold handleGameEvent. destruct (evt_type evt); cbn [requestsStop].
  - destruct (detail evt) as [r|]; [|discriminate].
    intros H. apply handleSimRound_steps in H.
    now destruct H as (? & _ & ? & _).
  - rewrite handleSkillUpdate_eq. now intros [= <- _].
  - intros H. apply handleSeasonEnd_steps in H.
    now destruct H as (? & _ & ? & _).
  - intros H. apply handleSeasonStart_steps in H.
    now destruct H as (? & _ & ? & _).
  - rewrite handleUpdateContracts_eq. now intros [= <- _].
Qed.

Lemma fold_unsign_clock_queue (cs : list Contract) : forall s,
  teamsKeepClockAndQueue env ->
  date (fold_left Team_unsignPlayer cs s) = date s /\
  eventQueue (fold_left Team_unsignPlayer cs s) = eventQueue s.
Proof.
  induction cs as [|c cs IH]; intros s Hkeep; simpl; [auto|].
  destruct (IH (Team_unsignPlayer s c) Hkeep) as [-> ->].
  apply Hkeep.
Qed.

Lemma fold_renew_clock_queue (ts : list string) : forall s,
  teamsKeepClockAndQueue env ->
  date (fold_left Team_renewExipiringContracts ts s) = date s /\
  eventQueue (fold_left Team_renewExipiringContracts ts s) = eventQueue s.
Proof.
  induction ts as [|t ts IH]; intros s Hkeep; simpl; [auto|].
  destruct (IH (Team_renewExipiringContracts s t) Hkeep) as [-> ->].
  apply Hkeep.
Qed.

Lemma handleGameEvent_clock_queue evt gs stop gs' :
  teamsKeepClockAndQueue env ->
  handleGameEvent evt gs = Returned stop gs' ->
  date gs' = date gs /\
  (sortedByDate (eventQueue gs) -> sortedByDate (eventQueue gs')) /\
  (length (eventQueue gs) <= length (eventQueue gs'))%nat.
Proof.
  intros Hkeep. unfold handleGameEvent. destruct (evt_type evt).
  - destruct (detail evt) as [r|]; [|discriminate].
    intros H. apply handleSimRound_steps in H.
    destruct H as (s1 & Hsim & _ & ->).
    apply simulateRound_frame in Hsim. destruct Hsim as (Hd & Hq & _).
    destruct (currentRound s1 (round r + 1)); cbn; rewrite ?Hd, ?Hq.
    + split; [reflexivity|].
      split; [apply enqueue_sorted|rewrite enqueue_length; lia].
    + auto.
  - rewrite handleSkillUpdate_eq. intros [= _ <-]. cbn.
    split; [reflexivity|].
    split; [apply enqueue_sorted|rewrite enqueue_length; lia].
  - intros H. apply handleSeasonEnd_steps in H.
    destruct H as (s1 & Hstore & _ & ->).
    assert (Hs1 : date s1 = date gs /\ eventQueue s1 = eventQueue gs).
    { apply storeEndedSeasonSchedule_steps in Hstore.
      destruct Hstore as [->|(key & schd & _ & -> & _)]; auto. }
    destruct Hs1 as [Hd Hq]. cbn. rewrite Hq.
    split; [exact Hd|].
    split; [intros Hs; now do 2 apply enqueue_sorted|].
    rewrite !enqueue_length. lia.
  - intros H. apply handleSeasonStart_steps in H.
    destruct H as (s1 & Hnew & _ & ->).
    apply newSeasonSchedule_frame in Hnew. destruct Hnew as (Hd & Hq & _).
    cbn. rewrite Hq. split; [exact Hd|].
    destruct (currentRound s1 0).
    + split; [intros Hs; now do 2 apply enqueue_sorted|].
      rewrite !enqueue_length. lia.
    + split; [apply enqueue_sorted|rewrite enqueue_length; lia].
  - rewrite handleUpdateContracts_eq. intros [= _ <-]. cbv zeta.
    match goal with |- context [fold_left Team_unsignPlayer ?cs ?s2] =>
      destruct (fold_unsign_clock_queue cs s2 Hkeep) as [-> ->]
    end.
    match goal with
    | |- context [fold_left Team_renewExipiringContracts ?ts ?s1] =>
      destruct (fold_renew_clock_queue ts s1 Hkeep) as [-> ->]
    end.
    cbn. auto.
Qed.

Lemma withDate_same gs : withDate gs (date gs) = gs.
Proof. now destruct gs. Qed.

(** X11. The signal of process: true on an empty queue; with events queued,
    true exactly when the earliest one falls due within the next twelve
    hours and is a skillUpdate, a seasonEnd or a seasonStart. *)
Theorem process_stop_signal gs stop gs' :
  process gs = Returned stop gs' ->
  stop =
  match eventQueue gs with
  | [] => true
  | first :: _ =>
      (getTime (evt_date first) <=? getTime (date gs) + 12 * msPerHour)
      && requestsStop (evt_type first)
  end.
Proof.
  destruct (eventQueue gs) as [|first rest] eqn:Hq.
  - rewrite (process_empty _ Hq). now intros [= <- _].
  - destruct (Z.leb_spec (getTime (evt_date first))
                         (getTime (date gs) + 12 * msPerHour)) as [Hdue|Hnot].
    + cbn [andb].
      destruct (Z.le_gt_cases (getTime (evt_date first)) (getTime (date gs)))
        as [Hnow|Hlater].
      * rewrite (process_due_now _ Hq Hnow). apply handleGameEvent_stop.
      * rewrite (process_due_after_one_step _ Hq Hlater Hdue).
        apply handleGameEvent_stop.
    + rewrite (process_nothing_due _ Hq Hnot). now intros [= <- _].
Qed.

Lemma process_clock_queue gs stop gs' :
  teamsKeepClockAndQueue env ->
  sortedByDate (eventQueue gs) ->
  process gs = Returned stop gs' ->
  sortedByDate (eventQueue gs') /\
  date gs <= date gs' <= date gs + 24 * msPerHour.
Proof.
  intros Hkeep Hs.
  assert (Hpos : 0 < msPerHour) by (unfold msPerHour; lia).
  destruct (eventQueue gs) as [|first rest] eqn:Hq.
  - rewrite (process_empty _ Hq). intros [= _ <-]. rewrite Hq.
    split; [exact Hs|lia].
  - pose proof (sortedByDate_tail Hs) as Htail.
    destruct (Z.le_gt_cases (getTime (evt_date first))
                            (getTime (date gs) + 12 * msPerHour))
      as [Hdue|Hnot].
    + destruct (Z.le_gt_cases (getTime (evt_date first)) (getTime (date gs)))
        as [Hnow|Hlater].
      * rewrite (process_due_now _ Hq Hnow). intros H.
        apply (handleGameEvent_clock_queue _ _ Hkeep) in H.
        destruct H as (Hd & Hsorted & _).
        cbn [date eventQueue withDate withEventQueue] in Hd, Hsorted.
        split; [auto|lia].
      * rewrite (process_due_after_one_step _ Hq Hlater Hdue). intros H.
        apply (handleGameEvent_clock_queue _ _ Hkeep) in H.
        destruct H as (Hd & Hsorted & _).
        cbn [date eventQueue withDate withEventQueue] in Hd, Hsorted.
        split; [auto|lia].
    + rewrite (process_nothing_due _ Hq Hnot). intros [= _ <-]. cbn.
      rewrite Hq. split; [exact Hs|lia].
Qed.

End FrameFacts.

(** ** The frames of a run *)

Section RunFacts.

Import JsDate Simulation.
Local Open Scope Z_scope.

Context {Player Team : Type} {env : Collaborators Player Team}.

Implicit Types (gs s : GameState Player Team).

Lemma runSim_frame frames gs :
  runSim (S frames) gs =
  match process gs with
  | Returned stopped s' =>
      if stopped then Returned true s' else runSim frames s'
  | Thrown e => Thrown e
  end.
Proof.
  cbn [runSim]. unfold bind. destruct (process gs) as [[] s'|e]; reflexivity.
Qed.

(** X12. Over any number of frames of a run, with team operations that leave
    the clock and the queue alone, a queue in ascending order of date stays
    in that order, and the clock never goes back and gains at most a day
    per frame. *)
Theorem runSim_keeps_queue_sorted frames : forall gs stopped gs',
  teamsKeepClockAndQueue env ->
  sortedByDate (eventQueue gs) ->
  runSim frames gs = Returned stopped gs' ->
  sortedByDate (eventQueue gs') /\
  date gs <= date gs' <= date gs + Z.of_nat frames * (24 * msPerHour).
Proof.
  assert (Hpos : 0 < msPerHour) by (unfold msPerHour; lia).
  induction frames as [|frames IH]; intros gs stopped gs' Hkeep Hs.
  - cbn. unfold ret. intros [= _ <-]. split; [exact Hs|lia].
  - rewrite runSim_frame.
    destruct (process gs) as [b s1|e] eqn:Hp; [|discriminate].
    destruct (process_clock_queue _ Hkeep Hs Hp) as [Hs1 Hd1].
    destruct b.
    + intros [= _ <-]. split; [exact Hs1|nia].
    + intros Hrun. destruct (IH _ _ _ Hkeep Hs1 Hrun) as [Hs' Hd'].
      split; [exact Hs'|nia].
Qed.

Lemma runSim_reaches_within (n : nat) : forall gs first rest,
  eventQueue gs = first :: rest ->
  getTime (evt_date first) - getTime (date gs)
    <= Z.of_nat n * (24 * msPerHour) ->
  exists (frames : nat) (d' : Date),
    (frames <= n)%nat /\
    getTime (evt_date first) <= getTime d' /\
    (getTime d' < getTime (evt_date first) + 12 * msPerHour \/
     d' = date gs /\ frames = 0%nat) /\
    (exists halves, 0 <= halves /\ halves <= 2 * Z.of_nat frames + 1 /\
        d' = date gs + halves * (12 * msPerHour)) /\
    forall more,
      runSim (S frames + more) gs =
      bind (handleGameEvent first)
           (fun stopped => if stopped then ret true else runSim more)
           (withEventQueue (withDate gs d') rest).
Proof.
  assert (Hpos : 0 < msPerHour) by (unfold msPerHour; lia).
  unfold getTime.
  induction n as [|n IH]; intros gs first rest Hq Hn.
  - exists 0%nat, (date gs). split; [lia|]. split; [lia|].
    split; [now right|]. split; [exists 0; lia|].
    intros more. cbn [Nat.add runSim]. unfold bind at 1.
    rewrite (process_due_now _ Hq) by (unfold getTime; lia).
    rewrite withDate_same. reflexivity.
  - destruct (Z.le_gt_cases (evt_date first) (date gs)) as [Hnow|Hlater].
    { exists 0%nat, (date gs). split; [lia|]. split; [lia|].
      split; [now right|]. split; [exists 0; lia|].
      intros more. cbn [Nat.add runSim]. unfold bind at 1.
      rewrite (process_due_now _ Hq) by (unfold getTime; lia).
      rewrite withDate_same. reflexivity. }
    destruct (Z.le_gt_cases (evt_date first) (date gs + 12 * msPerHour))
      as [Hdue|Hnot].
    { exists 0%nat, (date gs + 12 * msPerHour). split; [lia|]. split; [lia|].
      split; [left; lia|]. split; [exists 1; lia|].
      intros more. cbn [Nat.add runSim]. unfold bind at 1.
      rewrite (process_due_after_one_step _ Hq)
        by (unfold getTime; lia).
      reflexivity. }
    destruct (IH (withDate gs (date gs + 24 * msPerHour)) first rest Hq)
      as (frames & d' & Hle & Hd' & Hbound & (halves & H0 & H1 & Hh) & Hrun).
    { cbn [date withDate]. lia. }
    cbn [date withDate] in Hbound, Hh.
    exists (S frames), d'. split; [lia|]. split; [exact Hd'|].
    split; [left; lia|].
    split; [exists (halves + 2); lia|].
    intros more. change (S (S frames) + more)%nat with (S (S frames + more)).
    rewrite runSim_frame.
    rewrite (process_nothing_due _ Hq) by (unfold getTime; lia).
    rewrite Hrun. reflexivity.
Qed.

Lemma frames_enough (a : Z) :
  a <= Z.of_nat (Z.to_nat (a / (24 * msPerHour) + 1)) * (24 * msPerHour).
Proof.
  assert (Hpos : 0 < msPerHour) by (unfold msPerHour; lia).
  lia.
Qed.

(** X13. A run always gets to the earliest event of the queue: after a
    number of frames in which nothing but the clock moves, the next frame
    hands that event, taken off the queue, to its handler, and goes on
    only if the handler does not ask to stop.  The clock at that moment is
    the one at the start plus a whole number of half days, it is not
    before the date of the event, and it is less than twelve hours past
    that date unless the event was already due at the start. *)
Theorem runSim_reaches_first_event gs first rest :
  eventQueue gs = first :: rest ->
  exists (frames : nat) (d' : Date),
    getTime (evt_date first) <= getTime d' /\
    (getTime d' < getTime (evt_date first) + 12 * msPerHour \/
     d' = date gs /\ frames = 0%nat) /\
    (exists halves, 0 <= halves /\ d' = date gs + halves * (12 * msPerHour)) /\
    forall more,
      runSim (S frames + more) gs =
      bind (handleGameEvent first)
           (fun stopped => if stopped then ret true else runSim more)
           (withEventQueue (withDate gs d') rest).
Proof.
  intros Hq.
  destruct (runSim_reaches_within _ gs Hq
              (frames_enough (getTime (evt_date first) - getTime (date gs))))
    as (frames & d' & _ & H1 & H2 & (halves & H3 & _ & H4) & H5).
  exists frames, d'. repeat split; auto.
  exists halves. auto.
Qed.

(** X14. Once a run has stopped or thrown, the frames that follow change
    nothing: no further call of process is made. *)
Theorem runSim_stopped_is_final frames : forall gs more,
  (forall gs', runSim frames gs = Returned true gs' ->
     runSim (frames + more) gs = Returned true gs') /\
  (forall e, runSim frames gs = Thrown e ->
     runSim (frames + more) gs = Thrown e).
Proof.
  induction frames as [|frames IH]; intros gs more.
  - cbn. unfold ret. split; discriminate.
  - change (S frames + more)%nat with (S (frames + more)).
    rewrite !runSim_frame.
    destruct (process gs) as [[] s1|x]; [auto| |auto].
    apply IH.
Qed.

End RunFacts.

(** ** The season that ended *)

Section ArchiveFacts.

Import JsDate Simulation.
Local Open Scope Z_scope.

Context {Player Team : Type} {env : Collaborators Player Team}.

Implicit Types (gs s : GameState Player Team).

(** A printed number starts with a digit or a minus sign, so no key made
    of two years is the key of the current season. *)
Lemma numberToString_not_now (z : Z) (rest : string) :
  String.append (numberToString z) rest <> "now"%string.
Proof.
  unfold numberToString.
  destruct (Z.to_int z) as [d|d]; cbn; [|discriminate].
  destruct d; cbn; discriminate.
Qed.

Lemma handleSeasonEnd_outcome e gs stop gs' :
  handleSeasonEnd e gs = Returned stop gs' ->
  Obj.get "now" (schedules gs') = Obj.get "now" (schedules gs) /\
  (forall k,
     Obj.get k (schedules gs') = Obj.get k (schedules gs) \/
     k <> "now"%string /\
     Obj.get k (schedules gs') = Obj.get "now" (schedules gs)) /\
  (Obj.get "now" (schedules gs) = None -> schedules gs' = schedules gs) /\
  (matches gs' = matches gs /\ players gs' = players gs /\
   teams gs' = teams gs /\ contracts gs' = contracts gs /\
   date gs' = date gs) /\
  Permutation
    ({| evt_date := setDate (evt_date e) (getDate (evt_date e) + 1);
        evt_type := updateContract; detail := None |}
     :: {| evt_date := newDate (getFullYear (date gs)) 8 1;
           evt_type := seasonStart; detail := None |}
     :: eventQueue gs)
    (eventQueue gs').
Proof.
  intros H. apply handleSeasonEnd_steps in H.
  destruct H as (s1 & Hstore & _ & ->).
  apply storeEndedSeasonSchedule_steps in Hstore.
  assert (Hqueue : forall q (a b : GameEvent),
            Permutation (a :: b :: q) (enqueue (enqueue q b) a)).
  { intros q a b. etransitivity; [|apply enqueue_Permutation].
    constructor. apply enqueue_Permutation. }
  destruct Hstore as [->|(key & schd & Hnow & -> & first & last & _ & _ & ->)].
  - cbn. repeat split; auto.
  - cbn.
    split.
    { rewrite Obj_get_set_neq; [reflexivity|].
      apply numberToString_not_now. }
    split.
    { intros k.
      match goal with |- context [Obj.set ?key _ _] =>
        destruct (string_dec key k) as [<-|Hne]
      end.
      - right. split; [apply numberToString_not_now|].
        now rewrite Obj_get_set_eq.
      - left. now apply Obj_get_set_neq. }
    split; [intros Hnone; congruence|].
    repeat split; auto.
Qed.

(** X15. Handling a seasonEnd event leaves the ended season where it
    was: the schedule under the key of the current season is the same
    before and after, every other schedule is either as before or the copy
    of the ended season, and the matches, players, teams, contracts and
    the clock are untouched.  The queue gains two events: the seasonStart
    event dated [new Date(year, 8, 1)] for the year of the clock, and the
    updateContract event of the day after the handled event.  The date of
    the seasonStart event is September 1 of the year of the clock when that
    year is outside 0..99, and September 1 of 1900 + year when it is from
    0 to 99. *)
Theorem handleSeasonEnd_keeps_current_season e gs stop gs' :
  handleSeasonEnd e gs = Returned stop gs' ->
  let start := newDate (getFullYear (date gs)) 8 1 in
  Obj.get "now" (schedules gs') = Obj.get "now" (schedules gs) /\
  (forall k,
     Obj.get k (schedules gs') = Obj.get k (schedules gs) \/
     k <> "now"%string /\
     Obj.get k (schedules gs') = Obj.get "now" (schedules gs)) /\
  (Obj.get "now" (schedules gs) = None -> schedules gs' = schedules gs) /\
  (matches gs' = matches gs /\ players gs' = players gs /\
   teams gs' = teams gs /\ contracts gs' = contracts gs /\
   date gs' = date gs) /\
  Permutation
    ({| evt_date := setDate (evt_date e) (getDate (evt_date e) + 1);
        evt_type := updateContract; detail := None |}
     :: {| evt_date := start; evt_type := seasonStart; detail := None |}
     :: eventQueue gs)
    (eventQueue gs') /\
  (getFullYear (date gs) < 0 \/ 99 < getFullYear (date gs) ->
   getFullYear start = getFullYear (date gs) /\
   getMonth start = 8 /\ getDate start = 1) /\
  (0 <= getFullYear (date gs) <= 99 ->
   getFullYear start = 1900 + getFullYear (date gs) /\
   getMonth start = 8 /\ getDate start = 1).
Proof.
  intros H. cbv zeta.
  destruct (handleSeasonEnd_outcome _ _ H) as (H1 & H2 & H3 & H4 & H5).
  split; [exact H1|]. split; [exact H2|]. split; [exact H3|].
  split; [exact H4|]. split; [exact H5|]. split.
  - intros Hy.
    destruct (@newDate_september (getFullYear (date gs)) 1 Hy)
      as (Y1 & Y2 & Y3 & _); [clear; lia | auto].
  - intros Hy.
    destruct (@newDate_september_legacy (getFullYear (date gs)) 1 Hy)
      as (Y1 & Y2 & Y3 & _); [clear; lia | auto].
Qed.

End ArchiveFacts.

(** ** The start of a season and of a game *)

Section StartFacts.

Import JsDate Simulation.
Local Open Scope Z_scope.

Context {Player Team : Type} {env : Collaborators Player Team}.

Implicit Types (gs s : GameState Player Team).

Lemma civil_of_august y d :
  1 <= d <= 31 -> civil_from_days (days_from_civil y 8 d) = (y, 8, d).
Proof.
  intros Hd.
  rewrite (@civil_from_days_eq _ (y / 400) (y - y / 400 * 400) (152 + d)).
  - assert (E : (5 * (152 + d) + 2) / 153 = 5) by lia.
    rewrite E. change (5 <? 10) with true. cbv iota.
    change (5 + 3 <=? 2) with false. cbv iota.
    f_equal; [f_equal|]; lia.
  - lia.
  - lia.
  - rewrite days_from_civil_unfold. unfold days_from_civil_def. cbv zeta.
    change (8 <=? 2) with false. change (2 <? 8) with true. cbv iota. lia.
Qed.

Lemma getFullYear_same_day d t :
  TimeWithinDay d = 0 -> 0 <= t < msPerDay ->
  getFullYear (d + t) = getFullYear d.
Proof.
  intros Hd Ht. unfold getFullYear.
  replace (Day (d + t)) with (Day d); [reflexivity|].
  unfold Day, TimeWithinDay, msPerDay, msPerHour in *. lia.
Qed.

Lemma newDate_next_day y m d : newDate y m (d + 1) = newDate y m d + msPerDay.
Proof. unfold newDate, MakeDay. lia. Qed.

Lemma handleSeasonStart_in_time gs :
  getTime (date gs) < getTime (newDate (getFullYear (date gs)) 8 2) ->
  exists gs',
    handleSeasonStart gs = Returned true gs' /\
    date gs' = date gs /\ matchesCover gs' /\
    Obj.get "now" (schedules gs') <> None.
Proof.
  intros Hin.
  destruct (newSeasonSchedule (Obj.keys (teams gs)) gs) as [[] s1|x] eqn:Hnew.
  - pose proof (newSeasonSchedule_frame _ _ Hnew) as (Hd & Hq & now & Hnow).
    assert (Hrun : exists gs', handleSeasonStart gs = Returned true gs' /\
                               date gs' = date s1 /\
                               schedules gs' = schedules s1).
    { unfold handleSeasonStart. unfold bind at 1, gets. unfold bind at 1.
      rewrite Hnew. unfold bind at 1. rewrite enqueueSimRoundEvent_eq.
      unfold bind at 1. rewrite enqueueSeasonEndEvent_eq.
      eexists. split; [reflexivity|]. cbn.
      now destruct (currentRound s1 0). }
    destruct Hrun as (gs' & Hrun & Hd' & Hs').
    exists gs'. split; [exact Hrun|]. split; [congruence|].
    split; [|rewrite Hs', Hnow; discriminate].
    eapply (proj2 (newSeasonSchedule_covers_matches_aux gs)); eauto.
  - rewrite (newSeasonSchedule_in_time _ _ Hin) in Hnew.
    now rewrite saveSchedule_returns in Hnew.
Qed.

(** X16. A seasonStart event dated September 1 at the head of the queue, in a
    game whose clock has not passed that date: the run gets to it and its
    handler returns, the season is scheduled, and the simulation stops
    with the clock less than twelve hours after the date of the event --
    never past the second of September, where newSeasonSchedule throws. *)
Theorem seasonStart_event_handled_in_time gs (y : Z) rest :
  y < 0 \/ 99 < y ->
  eventQueue gs =
    {| evt_date := newDate y SEASON_START_MONTH SEASON_START_DATE;
       evt_type := seasonStart; detail := None |} :: rest ->
  getTime (date gs)
    <= getTime (newDate y SEASON_START_MONTH SEASON_START_DATE) ->
  exists (frames : nat) gs',
    runSim (S frames) gs = Returned true gs' /\
    getTime (newDate y SEASON_START_MONTH SEASON_START_DATE)
      <= getTime (date gs')
      < getTime (newDate y SEASON_START_MONTH SEASON_START_DATE)
        + 12 * msPerHour /\
    matchesCover gs' /\
    Obj.get "now" (schedules gs') <> None.
Proof.
  intros Hy Hq Hbefore.
  unfold SEASON_START_MONTH, SEASON_START_DATE in *.
  destruct (runSim_reaches_within _ gs Hq
              (frames_enough (getTime (newDate y 8 1) - getTime (date gs))))
    as (frames & d' & _ & Hge & Hlt & _ & Hrun).
  cbn [evt_date] in Hge, Hlt. unfold getTime in *.
  assert (Hpos : 0 < msPerHour) by (unfold msPerHour; lia).
  assert (Hd' : newDate y 8 1 <= d' < newDate y 8 1 + 12 * msPerHour).
  { destruct Hlt as [Hlt|[-> _]]; lia. }
  destruct (newDate_september Hy (d := 1)) as (Hyear & _ & _ & Hmid); [lia|].
  assert (Hin : getTime d' < getTime (newDate (getFullYear d') 8 2)).
  { replace d' with (newDate y 8 1 + (d' - newDate y 8 1)) at 2 by lia.
    rewrite getFullYear_same_day, Hyear;
      [|exact Hmid|unfold msPerDay; lia].
    change 2 with (1 + 1). rewrite newDate_next_day.
    unfold getTime, msPerDay. lia. }
  destruct (handleSeasonStart_in_time
              (withEventQueue (withDate gs d') rest) Hin)
    as (gs' & Hstart & Hdate & Hcover & Hnow).
  exists frames, gs'.
  split.
  { specialize (Hrun 0%nat). rewrite Nat.add_0_r in Hrun. rewrite Hrun.
    unfold bind, handleGameEvent. cbn [evt_type]. now rewrite Hstart. }
  cbn [date withDate withEventQueue] in Hdate. rewrite Hdate. auto.
Qed.

(** X17. The first step of GameState.init never throws: on August 1 at ten
    the second of September is still ahead, so the first season is
    scheduled, with every match it lists in the match table. *)
Theorem initSchedule_before_cutoff (year : Z) (names : list string) :
  year < 0 \/ 99 < year ->
  exists gs' : GameState Player Team,
    initSchedule year names = Returned tt gs' /\
    date gs' = newDateHours year INIT_MONTH INIT_DATE INIT_HOUR /\
    getFullYear (date gs') = year /\
    eventQueue gs' = [] /\
    Obj.get "now" (schedules gs') <> None /\
    matchesCover gs'.
Proof.
  intros Hy. unfold initSchedule.
  set (gs := newGameState Player Team _).
  assert (Hday : Day (newDate year 7 1) = days_from_civil year 8 1
                 /\ TimeWithinDay (newDate year 7 1) = 0).
  { unfold newDate, Day, TimeWithinDay, MakeDay.
    replace ((0 <=? year) && (year <=? 99)) with false
      by (symmetry; apply andb_false_iff; lia).
    change (7 / 12) with 0. change (7 mod 12 + 1) with 8.
    rewrite Z.add_0_r. unfold msPerDay, msPerHour. lia. }
  destruct Hday as [Hday Hmid].
  assert (Hyear : getFullYear (date gs) = year).
  { cbn [gs date newGameState]. unfold getTime, newDateHours.
    unfold INIT_MONTH, INIT_DATE, INIT_HOUR.
    rewrite getFullYear_same_day;
      [|exact Hmid|unfold msPerDay, msPerHour; lia].
    unfold getFullYear. rewrite Hday, civil_of_august by lia. reflexivity. }
  assert (Hin : getTime (date gs)
                < getTime (newDate (getFullYear (date gs)) 8 2)).
  { rewrite Hyear. cbn [gs date newGameState].
    unfold getTime, newDateHours, INIT_MONTH, INIT_DATE, INIT_HOUR.
    unfold newDate, MakeDay.
    replace ((0 <=? year) && (year <=? 99)) with false
      by (symmetry; apply andb_false_iff; lia).
    change (7 / 12) with 0. change (7 mod 12 + 1) with 8.
    change (8 / 12) with 0. change (8 mod 12 + 1) with 9.
    rewrite !Z.add_0_r, !days_from_civil_unfold.
    unfold days_from_civil_def, msPerDay, msPerHour. cbv zeta.
    change (8 <=? 2) with false. change (2 <? 8) with true.
    change (9 <=? 2) with false. change (2 <? 9) with true. cbv iota. lia. }
  destruct (newSeasonSchedule names gs) as [[] gs'|x] eqn:Hnew.
  - exists gs'. split; [reflexivity|].
    pose proof (newSeasonSchedule_frame _ _ Hnew) as (Hd & Hq & now & Hnow).
    split; [rewrite Hd; reflexivity|].
    split; [rewrite Hd; exact Hyear|].
    split; [rewrite Hq; reflexivity|].
    split; [rewrite Hnow; discriminate|].
    eapply (proj1 (newSeasonSchedule_covers_matches_aux gs)); eauto.
  - rewrite (newSeasonSchedule_in_time _ _ Hin) in Hnew.
    now rewrite saveSchedule_returns in Hnew.
Qed.

End StartFacts.

(** ** What the handlers leave in the queue *)

Section SuccessorFacts.

Import JsDate Simulation.
Local Open Scope Z_scope.

Context {Player Team : Type} {env : Collaborators Player Team}.

Implicit Types (gs s : GameState Player Team).

Lemma In_enqueue (queue : list GameEvent) (e x : GameEvent) :
  In x (enqueue queue e) <-> x = e \/ In x queue.
Proof.
  split.
  - intros H.
    apply (Permutation_in _ (Permutation_sym (enqueue_Permutation queue e)))
      in H.
    destruct H as [<-|H]; auto.
  - intros H. apply (Permutation_in _ (enqueue_Permutation queue e)).
    destruct H as [->|H]; [now left|now right].
Qed.

Ltac initQueue :=
  unfold bind, enqueueSkillUpdateEvent, enqueueSeasonEndEvent,
    enqueueGameEvent, gets, modify;
  reflexivity.

(** X18. Whenever a handler asks the simulation to stop, it has left the next
    event of its kind in the queue: a skillUpdate the skillUpdate of the
    first of the next month, a seasonEnd the seasonStart of September 1 of
    the year of the clock, a seasonStart the seasonEnd of June 1 of the
    year after.  So a simulation that stopped on an event has a longer
    queue than before the event and can go on. *)
Theorem handleGameEvent_leaves_successor evt gs gs' :
  handleGameEvent evt gs = Returned true gs' ->
  In {| evt_date :=
          match evt_type evt with
          | seasonEnd =>
              newDate (getFullYear (date gs))
                      SEASON_START_MONTH SEASON_START_DATE
          | seasonStart =>
              newDate (getFullYear (date gs) + 1)
                      SEASON_END_MONTH SEASON_END_DATE
          | _ => newDate (getFullYear (date gs)) (getMonth (date gs) + 1) 1
          end;
        evt_type :=
          match evt_type evt with
          | seasonEnd => seasonStart
          | seasonStart => seasonEnd
          | _ => skillUpdate
          end;
        detail := None |}
     (eventQueue gs') /\
  (length (eventQueue gs) < length (eventQueue gs'))%nat.
Proof.
  intros H. pose proof (handleGameEvent_stop _ _ H) as Hstop.
  revert H. unfold handleGameEvent.
  destruct (evt_type evt); try discriminate Hstop.
  - rewrite handleSkillUpdate_eq. intros [= <-]. cbn.
    split; [apply In_enqueue; now left|rewrite enqueue_length; lia].
  - intros H. apply handleSeasonEnd_steps in H.
    destruct H as (s1 & Hstore & _ & ->).
    assert (Hs1 : date s1 = date gs /\ eventQueue s1 = eventQueue gs).
    { apply storeEndedSeasonSchedule_steps in Hstore.
      destruct Hstore as [->|(key & schd & _ & -> & _)]; auto. }
    destruct Hs1 as [Hd Hq]. cbn. rewrite Hq, Hd.
    split; [|rewrite !enqueue_length; lia].
    apply In_enqueue. right. apply In_enqueue. now left.
  - intros H. apply handleSeasonStart_steps in H.
    destruct H as (s1 & Hnew & _ & ->).
    apply newSeasonSchedule_frame in Hnew. destruct Hnew as (Hd & Hq & _).
    cbn. rewrite Hq, Hd.
    split; [apply In_enqueue; now left|].
    destruct (currentRound s1 0); rewrite !enqueue_length; lia.
Qed.

(** X19. initGameEvents never throws and touches the queue only: it adds the
    simRound event of round 0 when the current season has one, the
    skillUpdate event and the seasonEnd event, and a queue in ascending
    order of date stays in that order. *)
Theorem initGameEvents_fills_queue gs :
  exists gs',
    initGameEvents gs = Returned tt gs' /\
    Permutation
      ({| evt_date :=
            newDate (getFullYear (date gs) + 1)
                    SEASON_END_MONTH SEASON_END_DATE;
          evt_type := seasonEnd; detail := None |}
       :: {| evt_date :=
               newDate (getFullYear (date gs)) (getMonth (date gs) + 1) 1;
             evt_type := skillUpdate; detail := None |}
       :: match currentRound gs 0 with
          | Some rd =>
              [{| evt_date := sr_date rd; evt_type := simRound;
                  detail := Some {| round := 0 |} |}]
          | None => []
          end ++ eventQueue gs)
      (eventQueue gs') /\
    (sortedByDate (eventQueue gs) -> sortedByDate (eventQueue gs')) /\
    date gs' = date gs /\ players gs' = players gs /\ teams gs' = teams gs /\
    contracts gs' = contracts gs /\ schedules gs' = schedules gs /\
    matches gs' = matches gs.
Proof.
  unfold initGameEvents. unfold bind at 1. rewrite enqueueSimRoundEvent_eq.
  destruct (currentRound gs 0) as [rd|].
  - eexists. split; [initQueue|].
    cbn [eventQueue date players teams contracts schedules matches
         withEventQueue].
    split.
    { etransitivity; [|apply enqueue_Permutation]. constructor.
      etransitivity; [|apply enqueue_Permutation]. constructor.
      apply enqueue_Permutation. }
    split; [intros Hs; now do 3 apply enqueue_sorted|].
    repeat split.
  - eexists. split; [initQueue|].
    cbn [eventQueue date players teams contracts schedules matches
         withEventQueue].
    split.
    { etransitivity; [|apply enqueue_Permutation]. constructor.
      apply enqueue_Permutation. }
    split; [intros Hs; now do 2 apply enqueue_sorted|].
    repeat split.
Qed.

Context {fields : CharacterFields Player Team}.

(** X20. Handling a skillUpdate event puts every saved player through the
    monthly growth and then the monthly degrowth, both at the date of the
    clock: the player table keeps its identifiers and their order, and
    GameState.getTeamPlayers returns the updated players of every team.
    The teams, contracts, schedules, matches and the clock are
    untouched. *)
Theorem handleSkillUpdate_updates_every_player gs :
  let update p :=
    Player_applyMonthlyDegrowth
      (Player_applyMonthlyGrowth p (date gs)) (date gs) in
  exists gs',
    handleSkillUpdate gs = Returned true gs' /\
    Obj.keys (players gs') = Obj.keys (players gs) /\
    (forall id,
       Obj.get id (players gs') = option_map update (Obj.get id (players gs)))
    /\
    (forall team,
       getTeamPlayers gs' team =
       match getTeamPlayers gs team with
       | Returned entries _ =>
           Returned (map (Obj.mapRead update) entries) gs'
       | Thrown e => Thrown e
       end) /\
    teams gs' = teams gs /\ contracts gs' = contracts gs /\
    schedules gs' = schedules gs /\ matches gs' = matches gs /\
    date gs' = date gs.
Proof.
  intros update. eexists. split; [apply handleSkillUpdate_eq|].
  cbn [players teams contracts schedules matches date
       withEventQueue withPlayers].
  split; [apply Obj_keys_mapValues|].
  split; [intros id; apply Obj_get_mapValues|].
  split; [|repeat split].
  intros team. unfold getTeamPlayers.
  cbn [players teams withEventQueue withPlayers].
  destruct (Obj.read team (teams gs)) as [t| |]; [|reflexivity..].
  f_equal. rewrite map_map. apply map_ext. intros id.
  apply Obj_read_mapValues.
Qed.

End SuccessorFacts.

(** ** Events are enqueued ahead of the clock *)

Section AheadFacts.

Import JsDate Simulation.
Local Open Scope Z_scope.

Context {Player Team : Type} {env : Collaborators Player Team}.

Implicit Types (gs s : GameState Player Team).

(** X21. The skillUpdate event that enqueueSkillUpdateEvent adds is dated
    after the clock, at midnight of the first day of the month that
    follows the month of the clock; when the year of the clock is not one
    the Date constructor reads as a year of the 1900s, that is at most
    thirty-one days ahead. *)
Theorem enqueueSkillUpdateEvent_next_month gs :
  let next := newDate (getFullYear (date gs)) (getMonth (date gs) + 1) 1 in
  exists gs',
    enqueueSkillUpdateEvent gs = Returned tt gs' /\
    In {| evt_date := next; evt_type := skillUpdate; detail := None |}
       (eventQueue gs') /\
    getTime (date gs) < getTime next /\
    TimeWithinDay next = 0 /\ getDate next = 1 /\
    getMonth next = (getMonth (date gs) + 1) mod 12 /\
    (getFullYear (date gs) < 0 \/ 99 < getFullYear (date gs) ->
     getTime next <= getTime (date gs) + 31 * msPerDay).
Proof.
  intros next. eexists. split; [reflexivity|].
  cbn [eventQueue withEventQueue].
  split; [apply In_enqueue; now left|].
  subst next. unfold getTime.
  destruct (civil_of_date (date gs)) as (y & m & dd & Hc & -> & -> & _).
  destruct (days_from_civil_of_civil_from_days _ Hc) as (Hm & _ & _).
  pose proof (next_month_is_later _ Hc) as Hnext.
  pose proof (Day_bounds (date gs)) as Hday.
  destruct (newDate_first y (m - 1 + 1)) as (yr & -> & Hyr & Hsame).
  replace (m - 1 + 1) with m by lia.
  pose proof (days_from_civil_year_mono (m mod 12 + 1) 1
                (y1 := y + m / 12) (y2 := yr + m / 12)) as Hmono.
  assert (Hpos : 0 < msPerDay) by (unfold msPerDay, msPerHour; lia).
  split; [nia|].
  split; [apply TimeWithinDay_of_midnight|].
  unfold getDate, getMonth. rewrite Day_of_midnight.
  rewrite civil_of_month_start by lia.
  split; [reflexivity|]. split; [lia|].
  intros Hy. rewrite (Hsame Hy) in *. nia.
Qed.

(** X22. The seasonEnd event that enqueueSeasonEndEvent adds is dated after
    the clock, at midnight; when the year after the year of the clock is
    not one the Date constructor reads as a year of the 1900s, it is June 1
    of that year. *)
Theorem enqueueSeasonEndEvent_next_june gs :
  let next :=
    newDate (getFullYear (date gs) + 1) SEASON_END_MONTH SEASON_END_DATE in
  exists gs',
    enqueueSeasonEndEvent gs = Returned tt gs' /\
    In {| evt_date := next; evt_type := seasonEnd; detail := None |}
       (eventQueue gs') /\
    getTime (date gs) < getTime next /\
    TimeWithinDay next = 0 /\ getDate next = 1 /\ getMonth next = 5 /\
    (getFullYear (date gs) + 1 < 0 \/ 99 < getFullYear (date gs) + 1 ->
     getFullYear next = getFullYear (date gs) + 1).
Proof.
  intros next. eexists. split; [apply enqueueSeasonEndEvent_eq|].
  cbn [eventQueue withEventQueue].
  split; [apply In_enqueue; now left|].
  subst next. unfold getTime, SEASON_END_MONTH, SEASON_END_DATE.
  destruct (civil_of_date (date gs)) as (y & m & dd & Hc & -> & _ & _).
  pose proof (next_june_is_later _ Hc) as Hnext.
  pose proof (Day_bounds (date gs)) as Hday.
  destruct (newDate_first (y + 1) 5) as (yr & -> & Hyr & Hsame).
  change (5 / 12) with 0. change (5 mod 12 + 1) with 6.
  rewrite Z.add_0_r.
  pose proof (days_from_civil_year_mono 6 1 Hyr) as Hmono.
  assert (Hpos : 0 < msPerDay) by (unfold msPerDay, msPerHour; lia).
  split; [nia|].
  split; [apply TimeWithinDay_of_midnight|].
  unfold getDate, getMonth, getFullYear. rewrite Day_of_midnight.
  rewrite civil_of_month_start by lia.
  split; [reflexivity|]. split; [reflexivity|].
  intros Hy. now apply Hsame.
Qed.

End AheadFacts.

(** ** More sample runs *)

Section MoreSamples.

Import JsDate TournamentScheduler Simulation.
Local Open Scope Z_scope.
Local Open Scope string_scope.

Lemma plainCollaborators_keep_clock_and_queue :
  teamsKeepClockAndQueue plainCollaborators.
Proof. split; intros; split; reflexivity. Qed.

Lemma sampleGameWithMatches_covered : matchesCover sampleGameWithMatches.
Proof.
  intros now r id Hnow Hr Hid. cbn in Hnow. injection Hnow as <-.
  destruct Hr as [<-|[<-|[]]]; destruct Hid as [<-|[]];
    eexists; reflexivity.
Qed.

Lemma enqueueGameEvent_sorts_any_sequence_sample :
  sortedByDate (eventQueue gameWithQueue) /\
  exists s',
    forEach [seasonEndEvent; eventAtNoon] (@enqueueGameEvent unit unit)
            gameWithQueue = Returned tt s' /\
    sortedByDate (eventQueue s') /\
    Permutation ([seasonEndEvent; eventAtNoon] ++ eventQueue gameWithQueue)
                (eventQueue s').
Proof.
  split; [exact gameWithQueue_sorted|].
  apply (enqueueGameEvent_sorts_any_sequence gameWithQueue
           [seasonEndEvent; eventAtNoon]).
  exact gameWithQueue_sorted.
Defined.

Lemma handleSimRound_returns_when_covered_sample :
  exists gs',
    handleSimRound (env := plainCollaborators) {| round := 0 |}
                   sampleGameWithMatches = Returned false gs' /\
    matchesCover gs' /\
    schedules gs' = schedules sampleGameWithMatches /\
    (length (eventQueue sampleGameWithMatches) <= length (eventQueue gs')
       <= S (length (eventQueue sampleGameWithMatches)))%nat.
Proof.
  apply (handleSimRound_returns_when_covered (env := plainCollaborators)
           (gs := sampleGameWithMatches) 0).
  exact sampleGameWithMatches_covered.
Defined.


(** The contract of p2 deleted: p2 has none.  A contract deleted for a
    player called constructor: what is read for that player is the
    inherited member. *)
Lemma deleteContract_then_getContract_sample :
  (exists s',
     deleteContract {| playerId := "p2"; duration := 1 |} clubGame
       = Returned tt s' /\
     getContract (fields := plainFields) s' "p2" = Obj.Undefined) /\
  (exists s',
     deleteContract {| playerId := "constructor"; duration := 1 |} clubGame
       = Returned tt s' /\
     getContract (fields := plainFields) s' "constructor"
       = Obj.Inherited "constructor").
Proof.
  split.
  - destruct (deleteContract_then_getContract (fields := plainFields)
                clubGame {| playerId := "p2"; duration := 1 |} "p2"
                eq_refl) as (s' & H1 & _ & H2 & _).
    exists s'. split; assumption.
  - destruct (deleteContract_then_getContract (fields := plainFields)
                clubGame {| playerId := "constructor"; duration := 1 |}
                "constructor" eq_refl) as (s' & H1 & _ & H2 & _).
    exists s'. split; assumption.
Defined.

(** The team reds and its two players saved: they are the players of
    reds, no team blues has players, and asking for the players of a team
    called constructor throws. *)
Lemma getTeamPlayers_after_saving_sample :
  exists s',
    bind (saveTeam (fields := plainFields) reds)
         (fun _ => forEach ["p1"; "p2"] (savePlayer (fields := plainFields)))
         clubGame = Returned tt s' /\
    getTeamPlayers (fields := plainFields) s' "reds"
      = Returned [Obj.Own "p1"; Obj.Own "p2"] s' /\
    getTeamPlayers (fields := plainFields) s' "blues" = Returned [] s' /\
    getTeamPlayers (fields := plainFields) s' "constructor"
      = Thrown TypeError.
Proof.
  destruct (getTeamPlayers_after_saving (fields := plainFields)
              clubGame reds ["p1"; "p2"] eq_refl)
    as (s' & H1 & H2 & H3 & _).
  { repeat constructor; simpl; intuition discriminate. }
  exists s'. split; [exact H1|]. split; [exact H2|].
  split.
  - exact (H3 ltac:(discriminate) "blues" ltac:(discriminate) eq_refl).
  - exact (H3 ltac:(discriminate) "constructor" ltac:(discriminate)
              eq_refl).
Defined.

(** The players of reds are not saved: both entries are there, the first
    undefined.  The player of ghosts is not saved and is called
    constructor: the entry is the inherited member. *)
Lemma getTeamPlayers_unsaved_player_sample :
  (exists entries,
     getTeamPlayers (fields := plainFields) clubGameWithTeam "reds"
       = Returned entries clubGameWithTeam /\
     length entries = 2%nat /\
     nth_error entries 0 = Some Obj.Undefined) /\
  (exists entries,
     getTeamPlayers (fields := plainFields) clubGameWithGhosts "ghosts"
       = Returned entries clubGameWithGhosts /\
     length entries = 1%nat /\
     nth_error entries 0 = Some (Obj.Inherited "constructor")).
Proof.
  split.
  - exact (getTeamPlayers_unsaved_player (fields := plainFields)
             clubGameWithTeam "reds" (t := reds) 0 (id := "p1")
             eq_refl eq_refl eq_refl).
  - exact (getTeamPlayers_unsaved_player (fields := plainFields)
             clubGameWithGhosts "ghosts" (t := ghosts) 0
             (id := "constructor") eq_refl eq_refl eq_refl).
Defined.

Lemma process_stop_signal_sample :
  process (env := plainCollaborators) gameBeforeNoon
    = Returned true gameAfterNoon /\
  true =
  Z.leb (getTime (evt_date eventAtNoon))
        (getTime (date gameBeforeNoon) + 12 * msPerHour)
  && requestsStop (evt_type eventAtNoon).
Proof.
  assert (H : process (env := plainCollaborators) gameBeforeNoon
              = Returned true gameAfterNoon) by (vm_compute; reflexivity).
  split; [exact H|].
  exact (process_stop_signal (env := plainCollaborators) gameBeforeNoon H).
Defined.

Lemma runSim_keeps_queue_sorted_sample :
  runSim (env := plainCollaborators) 2 gameWithQueue
    = Returned true gameWithQueueAfterTwoFrames /\
  sortedByDate (eventQueue gameWithQueueAfterTwoFrames) /\
  date gameWithQueue <= date gameWithQueueAfterTwoFrames
    <= date gameWithQueue + Z.of_nat 2 * (24 * msPerHour).
Proof.
  assert (H : runSim (env := plainCollaborators) 2 gameWithQueue
              = Returned true gameWithQueueAfterTwoFrames)
    by (vm_compute; reflexivity).
  split; [exact H|].
  exact (runSim_keeps_queue_sorted (env := plainCollaborators) 2
           gameWithQueue plainCollaborators_keep_clock_and_queue
           gameWithQueue_sorted H).
Defined.

Lemma runSim_reaches_first_event_sample :
  exists (frames : nat) (d' : Date),
    getTime (evt_date eventAtNoon) <= getTime d' /\
    (getTime d' < getTime (evt_date eventAtNoon) + 12 * msPerHour \/
     d' = date gameBeforeNoon /\ frames = 0%nat) /\
    (exists halves,
        0 <= halves /\
        d' = date gameBeforeNoon + halves * (12 * msPerHour)) /\
    forall more,
      runSim (env := plainCollaborators) (S frames + more) gameBeforeNoon =
      bind (handleGameEvent (env := plainCollaborators) eventAtNoon)
           (fun stopped =>
              if stopped then ret true
              else runSim (env := plainCollaborators) more)
           (withEventQueue (withDate gameBeforeNoon d') []).
Proof.
  exact (runSim_reaches_first_event (env := plainCollaborators)
           gameBeforeNoon eq_refl).
Defined.

Lemma seasonStart_event_handled_in_time_sample :
  exists (frames : nat) gs',
    runSim (env := plainCollaborators) (S frames) gameBeforeSeason
      = Returned true gs' /\
    getTime (newDate 2011 SEASON_START_MONTH SEASON_START_DATE)
      <= getTime (date gs')
      < getTime (newDate 2011 SEASON_START_MONTH SEASON_START_DATE)
        + 12 * msPerHour /\
    matchesCover gs' /\
    Obj.get "now" (schedules gs') <> None.
Proof.
  apply (seasonStart_event_handled_in_time (env := plainCollaborators)
           gameBeforeSeason (y := 2011) (rest := [])).
  - right. lia.
  - reflexivity.
  - apply Z.leb_le. vm_compute. reflexivity.
Defined.

Lemma handleSeasonEnd_keeps_current_season_sample :
  handleSeasonEnd seasonEndEvent sampleGame
    = Returned true sampleGameAfterSeasonEnd /\
  Obj.get "now" (schedules sampleGameAfterSeasonEnd) = Some sampleSeason /\
  Obj.get "2010-2011" (schedules sampleGameAfterSeasonEnd)
    = Some sampleSeason.
Proof.
  assert (H : handleSeasonEnd seasonEndEvent sampleGame
              = Returned true sampleGameAfterSeasonEnd)
    by (vm_compute; reflexivity).
  split; [exact H|].
  destruct (handleSeasonEnd_keeps_current_season seasonEndEvent sampleGame H)
    as (Hnow & _).
  split; [exact Hnow|]. vm_compute. reflexivity.
Defined.

Lemma initSchedule_before_cutoff_sample :
  exists gs' : GameState unit unit,
    initSchedule 2010 sampleTeams = Returned tt gs' /\
    date gs' = newDateHours 2010 INIT_MONTH INIT_DATE INIT_HOUR /\
    getFullYear (date gs') = 2010 /\
    eventQueue gs' = [] /\
    Obj.get "now" (schedules gs') <> None /\
    matchesCover gs'.
Proof.
  apply (initSchedule_before_cutoff (Player := unit) (Team := unit)
           (year := 2010) sampleTeams).
  right. lia.
Defined.

Lemma handleGameEvent_leaves_successor_sample :
  handleGameEvent (env := plainCollaborators) eventAtNoon
    (withEventQueue (withDate gameBeforeNoon (12 * msPerHour)) [])
    = Returned true gameAfterNoon /\
  In {| evt_date := newDate 1970 1 1; evt_type := skillUpdate;
        detail := None |}
     (eventQueue gameAfterNoon).
Proof.
  assert (H : handleGameEvent (env := plainCollaborators) eventAtNoon
                (withEventQueue (withDate gameBeforeNoon (12 * msPerHour)) [])
              = Returned true gameAfterNoon) by (vm_compute; reflexivity).
  split; [exact H|].
  destruct (handleGameEvent_leaves_successor (env := plainCollaborators)
              eventAtNoon _ H) as [Hin _].
  exact Hin.
Defined.

End MoreSamples.
